(** * StGit stack transactions: a shallow embedding of [stgit/lib/transaction.py]
    together with the parts of [stgit/lib/git.py] and [stgit/utils.py] it
    drives, and the properties of the transaction engine proved over it.

    Python objects that are mutated in place (the transaction, the stack, the
    index and worktree behind the Git subprocesses) are threaded through a
    state-and-exception monad.  Every Git subprocess whose answer the code
    branches on is an oracle of the class [GitProcess]; the oracle sees the
    whole history of effects so far, so no assumption is made on what Git
    answers.  Git subprocesses whose failure the code does not handle are
    taken to succeed. *)

From stdpp Require Import base option list strings gmap sets fin_maps pretty.
From Stdlib Require Import ZArith.

Local Open Scope string_scope.
Local Open Scope list_scope.
Local Open Scope Z_scope.

(** ** Effects: state passing with Python exceptions *)

Module py.

(** The exceptions that cross the transaction code. *)
Inductive Exn :=
| TransactionException (m : string)
| TransactionHalted (m : string)
| CheckoutException (m : string)
| MergeException (m : string)
| MergeConflictException (conflicts : list string)
| AssertionError
| AttributeError
| KeyError (k : string)
| ValueError.

Inductive outcome (A : Type) :=
| Ret (a : A)
| Raise (e : Exn).
Arguments Ret {A} a.
Arguments Raise {A} e.

(** A computation over a mutable state [S]: the state survives an exception,
    as the mutated Python objects do. *)
Definition Eff (S A : Type) : Type := S → outcome A * S.

#[export] Instance Eff_ret {S} : MRet (Eff S) := λ A a s, (Ret a, s).
#[export] Instance Eff_bind {S} : MBind (Eff S) := λ A B f m s,
  match m s with
  | (Ret a, s') => f a s'
  | (Raise e, s') => (Raise e, s')
  end.

Definition raise {S A} (e : Exn) : Eff S A := λ s, (Raise e, s).
Definition gets {S A} (f : S → A) : Eff S A := λ s, (Ret (f s), s).
Definition modify {S} (f : S → S) : Eff S unit := λ s, (Ret tt, f s).

(** [try: m except <handled>: h] *)
Definition try_except {S A} (m : Eff S A) (h : Exn → option (Eff S A)) : Eff S A :=
  λ s, match m s with
       | (Ret a, s') => (Ret a, s')
       | (Raise e, s') =>
           match h e with
           | Some k => k s'
           | None => (Raise e, s')
           end
       end.

(** [assert b] *)
Definition assert {S} (b : bool) : Eff S unit :=
  if b then mret tt else raise AssertionError.

(** [for x in l: f x] *)
Fixpoint for_each {S A} (l : list A) (f : A → Eff S unit) : Eff S unit :=
  match l with
  | [] => mret tt
  | x :: l' => f x ;; for_each l' f
  end.

(** Truth value of a string-or-None. *)
Definition truthy (o : option string) : bool :=
  match o with
  | None => false
  | Some s => negb (String.eqb s EmptyString)
  end.

End py.
Import py.

(** ** [stgit/utils.py] *)

Module utils.

Definition STGIT_SUCCESS : Z := 0.
Definition STGIT_GENERAL_ERROR : Z := 1.
Definition STGIT_COMMAND_ERROR : Z := 2.
Definition STGIT_CONFLICT : Z := 3.
Definition STGIT_BUG_ERROR : Z := 4.

(** [len(s)] *)
Definition len (s : string) : Z := Z.of_nat (String.length s).

(** An index of a slice, as Python clamps it: a negative one counts from
    the end, and both ends stay within the string. *)
Definition clamp (n i : Z) : Z :=
  if i <? 0 then Z.max 0 (n + i) else Z.min i n.

(** [s[start:stop]], either bound may be left out. *)
Definition slice (s : string) (start stop : option Z) : string :=
  let lo := match start with Some i => clamp (len s) i | None => 0 end in
  let hi := match stop with Some i => clamp (len s) i | None => len s end in
  String.substring (Z.to_nat lo) (Z.to_nat (hi - lo)) s.

(** [s.startswith(prefix)] and [s.endswith(suffix)] *)
Definition startswith (s prefix : string) : bool := String.prefix prefix s.
Definition endswith (s suffix : string) : bool :=
  (len suffix <=? len s)
  && String.eqb (slice s (Some (len s - len suffix)) None) suffix.

Definition strip_prefix {S} (prefix s : string) : Eff S string :=
  assert (startswith s prefix);;
  mret (slice s (Some (len prefix)) None).

Definition strip_suffix {S} (suffix s : string) : Eff S string :=
  assert (endswith s suffix);;
  mret (slice s None (Some (- len suffix))).

(** [get_editor], as a function of what the environment and the
    configuration hold (or do not): GIT_EDITOR, stgit.editor, core.editor,
    VISUAL and EDITOR. *)
Definition get_editor (git_editor stgit_editor core_editor visual editor : option string)
  : option string :=
  (list_find (λ e, Is_true (truthy e))
     [git_editor; stgit_editor; core_editor; visual; editor; Some "vi"]) ≫= snd.

(** The newline and the double quote. *)
Definition nl : string := String (Ascii.ascii_of_nat 10) EmptyString.
Definition quote : string := String (Ascii.ascii_of_nat 34) EmptyString.

Definition append_comment (s comment separator : string) : string :=
  s +:+ nl +:+ nl +:+ separator +:+ nl
    +:+ "Everything following the line with " +:+ quote +:+ separator +:+ quote
    +:+ " will be ignored" +:+ nl +:+ nl +:+ comment.

(** [s.index(sub)] is [String.index 0 sub s], [None] for [ValueError]. *)
Definition strip_comment (s separator : string) : string :=
  match String.index 0 (nl +:+ separator +:+ nl) s with
  | Some i => slice s None (Some (Z.of_nat i))
  | None => s
  end.

(** ['%s-%d' % (patchname, suffix)] *)
Definition numbered (patchname : string) (suffix : nat) : string :=
  patchname +:+ "-" +:+ pretty suffix.

(** The [while] loop of [find_patch_name], which need not end: at most
    [fuel] names are tried. *)
Fixpoint find_suffix (fuel : nat) (unacceptable : string → bool)
    (patchname : string) (suffix : nat) : option nat :=
  match fuel with
  | O => None
  | S fuel' =>
      if unacceptable (numbered patchname suffix) then
        find_suffix fuel' unacceptable patchname (S suffix)
      else Some suffix
  end.

Definition find_patch_name (fuel : nat) (patchname : string)
    (unacceptable : string → bool) : option string :=
  if unacceptable patchname then
    suffix ← find_suffix fuel unacceptable patchname 0;
    Some (numbered patchname suffix)
  else Some patchname.

(** [add_dict]: a new dict with the contents of both; in case of
    conflicting mappings, [d2] takes precedence. *)
Definition add_dict (d1 d2 : gmap string string) : gmap string string :=
  d2 ∪ d1.

End utils.

(** ** [stgit/lib/git.py] *)

Module git.

(** A [Tree] handle.  A repository interns one handle per SHA-1, so Python's
    object comparison on handles is comparison of their SHA-1. *)
Record Tree := mkTree { tree_sha1 : string }.

Definition tree_eqb (a b : Tree) : bool := String.eqb (tree_sha1 a) (tree_sha1 b).

(** [current == t] where [current] may be [None]. *)
Definition otree_eqb (a : option Tree) (b : Tree) : bool :=
  match a with
  | Some a' => tree_eqb a' b
  | None => false
  end.

(** [Person]: the code never builds a new one on the paths modelled here, so
    comparing the fields agrees with Python's comparison of the objects. *)
Record Person := mkPerson {
  person_name : option string;
  person_email : option string;
  person_date : option string }.

Definition ostring_eqb (a b : option string) : bool :=
  match a, b with
  | Some x, Some y => String.eqb x y
  | None, None => true
  | _, _ => false
  end.

Definition person_eqb (p q : Person) : bool :=
  ostring_eqb (person_name p) (person_name q)
  && ostring_eqb (person_email p) (person_email q)
  && ostring_eqb (person_date p) (person_date q).

Definition operson_eqb (p q : option Person) : bool :=
  match p, q with
  | Some x, Some y => person_eqb x y
  | None, None => true
  | _, _ => false
  end.

(** A [Commit] handle with its (lazily loaded, immutable) [CommitData]. *)
Inductive Commit :=
| mkCommit (sha1 : string) (data : CommitData)
with CommitData :=
| mkCommitData (tree : Tree) (parents : list Commit)
    (author committer : option Person) (message : string).

Definition sha1 (c : Commit) : string := let 'mkCommit s _ := c in s.
Definition data (c : Commit) : CommitData := let 'mkCommit _ d := c in d.
Definition tree (cd : CommitData) : Tree := let 'mkCommitData t _ _ _ _ := cd in t.
Definition parents (cd : CommitData) : list Commit :=
  let 'mkCommitData _ p _ _ _ := cd in p.
Definition author (cd : CommitData) : option Person :=
  let 'mkCommitData _ _ a _ _ := cd in a.
Definition committer (cd : CommitData) : option Person :=
  let 'mkCommitData _ _ _ c _ := cd in c.
Definition message (cd : CommitData) : string :=
  let 'mkCommitData _ _ _ _ m := cd in m.

Definition commit_eqb (a b : Commit) : bool := String.eqb (sha1 a) (sha1 b).

Definition set_tree (cd : CommitData) (t : Tree) : CommitData :=
  mkCommitData t (parents cd) (author cd) (committer cd) (message cd).
Definition set_parents (cd : CommitData) (ps : list Commit) : CommitData :=
  mkCommitData (tree cd) ps (author cd) (committer cd) (message cd).
Definition set_parent (cd : CommitData) (p : Commit) : CommitData :=
  set_parents cd [p].
Definition set_committer (cd : CommitData) (c : option Person) : CommitData :=
  mkCommitData (tree cd) (parents cd) (author cd) c (message cd).

(** [CommitData.parent]: asserts that there is exactly one. *)
Definition parent {S} (cd : CommitData) : Eff S Commit :=
  match parents cd with
  | [p] => mret p
  | _ => raise AssertionError
  end.

Definition is_nochange (cd : CommitData) : bool :=
  match parents cd with
  | [p] => tree_eqb (tree cd) (tree (data p))
  | _ => false
  end.

(** An index file, and an index together with a worktree. *)
Record Index := mkIndex { index_filename : string }.
Record IndexAndWorktree := mkIW { iw_index : Index; iw_directory : string }.

(** [CommitData.env]: the author and committer settings of the
    [git commit-tree] that makes the commit. *)
Definition CommitData_env (cd : CommitData) : gmap string string :=
  foldl (λ env '(p, v1),
    match p : option Person with
    | Some p' =>
        foldl (λ env '(attr, v2),
          match (attr : Person → option string) p' with
          | Some x => <["GIT_" +:+ v1 +:+ "_" +:+ v2 := x]> env
          | None => env
          end) env
          [(person_name, "NAME"); (person_email, "EMAIL"); (person_date, "DATE")]
    | None => env
    end) ∅ [(author cd, "AUTHOR"); (committer cd, "COMMITTER")].

(** [Repository.env], [Index.env], [Worktree.env] and
    [IndexAndWorktree.env]; the repository is given by its Git directory. *)
Definition Repository_env (git_dir : string) : gmap string string :=
  {["GIT_DIR" := git_dir]}.
Definition Index_env (git_dir : string) (ix : Index) : gmap string string :=
  utils.add_dict (Repository_env git_dir) {["GIT_INDEX_FILE" := index_filename ix]}.
Definition Worktree_env : gmap string string := {["GIT_WORK_TREE" := "."]}.
Definition IndexAndWorktree_env (git_dir : string) (iw : IndexAndWorktree)
  : gmap string string :=
  utils.add_dict (Index_env git_dir (iw_index iw)) Worktree_env.

(** [RunWithEnv.run]: the environment the command is given. *)
Definition run_env (self_env env : gmap string string) : gmap string string :=
  utils.add_dict self_env env.

(** The [env] argument of the [git merge-recursive] of
    [IndexAndWorktree.merge]: a dict display, so a later key wins. *)
Definition merge_env (base ours theirs : Tree) : gmap string string :=
  <["GITHEAD_" +:+ tree_sha1 theirs := "patched"]>
    (<["GITHEAD_" +:+ tree_sha1 ours := "current"]>
       (<["GITHEAD_" +:+ tree_sha1 base := "ancestor"]> ∅)).

End git.
Import git.

(** [ObjectCache]: one Python object per Git object. *)

Module ObjectCache.
Section cache.
Context {S A : Type}.

(** The cache: the dict [__objects] and, beside it, the state that
    [create] works on. *)
Definition Cache : Type := gmap string A * S.

Context (create : string → Eff S A).

(** A call of [self.__create]. *)
Definition call_create (name : string) : Eff Cache A :=
  λ c, let '(r, s) := create name c.2 in (r, (c.1, s)).

Definition __getitem__ (name : string) : Eff Cache A :=
  objects ← gets fst;
  (if bool_decide (is_Some ((objects : gmap string A) !! name)) then mret tt
   else
     val ← call_create name;
     modify (λ c, (<[name := val]> c.1, c.2)));;
  objects ← gets fst;
  match (objects : gmap string A) !! name with
  | Some val => mret val
  | None => raise (KeyError name)
  end.

Definition __contains__ (name : string) : Eff Cache bool :=
  objects ← gets fst;
  mret (bool_decide (is_Some ((objects : gmap string A) !! name))).

Definition __setitem__ (name : string) (val : A) : Eff Cache unit :=
  objects ← gets fst;
  assert (negb (bool_decide (is_Some ((objects : gmap string A) !! name))));;
  modify (λ c, (<[name := val]> c.1, c.2)).

End cache.
End ObjectCache.

(** ** The stack model, the log writer and the message sink *)

Module stack.

(** Modelled from the spec: the stack model of [stgit/lib/stack.py], which is
    not among the sources: a passive store of the ordered lists applied,
    unapplied and hidden, the map from patch name to commit, the base commit
    and the branch head. *)
Record Stack := mkStack {
  patchorder_applied : list string;
  patchorder_unapplied : list string;
  patchorder_hidden : list string;
  stack_patches : gmap string Commit;
  stack_base : Commit;
  stack_head : Commit }.

(** Modelled from the spec: [head_top_equal], the head invariant:
    [branch.head == applied[-1].commit] when applied is non-empty, else
    [branch.head == base]. *)
Definition head_top_equal (s : Stack) : bool :=
  match last (patchorder_applied s) with
  | None => commit_eqb (stack_head s) (stack_base s)
  | Some pn =>
      match stack_patches s !! pn with
      | Some c => commit_eqb (stack_head s) c
      | None => false
      end
  end.

(** Modelled from the spec: [set_head], the ref update of the branch head. *)
Definition with_head (c : Commit) (s : Stack) : Stack :=
  mkStack (patchorder_applied s) (patchorder_unapplied s) (patchorder_hidden s)
    (stack_patches s) (stack_base s) c.

(** Modelled from the spec: the mutators of the patch to commit map
    ([patches.new], [Patch.set_commit], [Patch.delete]). *)
Definition with_patches (f : gmap string Commit → gmap string Commit) (s : Stack) : Stack :=
  mkStack (patchorder_applied s) (patchorder_unapplied s) (patchorder_hidden s)
    (f (stack_patches s)) (stack_base s) (stack_head s).

(** Modelled from the spec: the mutator of the three ordered lists. *)
Definition with_patchorder (a u h : list string) (s : Stack) : Stack :=
  mkStack a u h (stack_patches s) (stack_base s) (stack_head s).

End stack.
Import stack.

Module world.

(** What the code does to the world outside the transaction object, in the
    order it does it. *)
Inductive Event :=
| OutInfo (s : string)
| OutError (lines : list string)
| TempIndex (ix : Index)
| ReadTree (ix : Index) (t : Tree)
| ApplyTreediff (ix : Index) (t1 t2 : Tree)
| WriteTree (ix : Index)
| CommitTree (cd : CommitData)
| CheckoutHard (iw : IndexAndWorktree) (t : Tree)
| Checkout (iw : IndexAndWorktree) (old_tree new_tree : Tree)
| MergeRecursive (iw : IndexAndWorktree) (base ours theirs : Tree)
| LsFilesUnmerged (ix : Index)
| SetHead (c : Commit) (msg : string)
| PatchDelete (pn : string)
| PatchSetCommit (pn : string) (c : Commit) (msg : string)
| PatchNew (pn : string) (c : Commit) (msg : string)
| LogExternalMods (s : Stack)
| LogEntry (s : Stack) (msg : string).

(** The world: the live stack and the history of effects. *)
Record World := mkWorld { w_stack : Stack; w_trace : list Event }.

(** The answers of the Git subprocesses, each a function of the history. *)
Class GitProcess := {
  (** [git apply --cached] of the diff between two trees: did it apply? *)
  git_apply_cached : list Event → Index → Tree → Tree → bool;
  (** [git write-tree]: the tree, or nothing when it exits non-zero. *)
  git_write_tree : list Event → Index → option Tree;
  (** [git commit-tree] followed by [get_commit] of the SHA-1 it prints. *)
  git_commit_tree : list Event → CommitData → Commit;
  (** [git read-tree -u -m old new]: did it succeed? *)
  git_read_tree_merge : list Event → IndexAndWorktree → Tree → Tree → bool;
  (** [git merge-recursive]: exit code and output lines. *)
  git_merge_recursive :
    list Event → IndexAndWorktree → Tree → Tree → Tree → Z * list string;
  (** [git ls-files -z --unmerged]: the paths of the output lines. *)
  git_ls_files_unmerged : list Event → Index → list string;
  (** The file name of a fresh temporary index. *)
  temp_index_filename : list Event → string }.

Definition emit (e : Event) : Eff World unit :=
  modify (λ w, mkWorld (w_stack w) (w_trace w ++ [e])).

Definition history : Eff World (list Event) := gets w_trace.

Definition update_stack (f : Stack → Stack) : Eff World unit :=
  modify (λ w, mkWorld (f (w_stack w)) (w_trace w)).

(** [stgit.out] *)
Definition out_info (s : string) : Eff World unit := emit (OutInfo s).
Definition out_error (lines : list string) : Eff World unit := emit (OutError lines).

(** Modelled from the spec: [Stack.set_head] of [stgit/lib/stack.py] sets
    the branch head through the ref store, under the given message. *)
Definition set_head (c : option Commit) (msg : string) : Eff World unit :=
  match c with
  | Some c' => emit (SetHead c' msg);; update_stack (with_head c')
  | None => raise AttributeError
  end.

(** Modelled from the spec: patch metadata writeback, existing and tombstone:
    delete. *)
Definition patch_delete (pn : string) : Eff World unit :=
  emit (PatchDelete pn);; update_stack (with_patches (delete pn)).

(** Modelled from the spec: patch metadata writeback, existing and commit:
    set the commit. *)
Definition patch_set_commit (pn : string) (c : Commit) (msg : string)
  : Eff World unit :=
  emit (PatchSetCommit pn c msg);; update_stack (with_patches (<[pn := c]>)).

(** Modelled from the spec: patch metadata writeback, fresh: create with the
    commit (which has to be one). *)
Definition patches_new (pn : string) (c : option Commit) (msg : string)
  : Eff World unit :=
  match c with
  | Some c' => emit (PatchNew pn c' msg);; update_stack (with_patches (<[pn := c']>))
  | None => raise AttributeError
  end.

(** Modelled from the spec: the log writer of [stgit/lib/log.py], opaque to
    the core: [log_external_mods] is called before anything is written and
    [log_entry] appends a snapshot of the stack under a message. *)
Definition log_external_mods : Eff World unit :=
  s ← gets w_stack; emit (LogExternalMods s).

(** Modelled from the spec: see [log_external_mods]. *)
Definition log_entry (msg : string) : Eff World unit :=
  s ← gets w_stack; emit (LogEntry s msg).

End world.
Import world.

Module Index.
Section with_git.
Context `{G : GitProcess}.

Definition read_tree (ix : Index) (t : Tree) : Eff World unit :=
  emit (ReadTree ix t).

Definition write_tree (ix : Index) : Eff World Tree :=
  h ← history;
  emit (WriteTree ix);;
  match git_write_tree h ix with
  | Some t => mret t
  | None => raise (MergeException "Conflicting merge")
  end.

Definition apply_treediff (ix : Index) (tree1 tree2 : Tree) (quiet : bool)
  : Eff World unit :=
  h ← history;
  emit (ApplyTreediff ix tree1 tree2);;
  if git_apply_cached h ix tree1 tree2 then mret tt
  else raise (MergeException "Patch does not apply cleanly").

(** [except MergeException], which also catches its subclass. *)
Definition except_MergeException {S A} (k : Eff S A) (e : Exn) : option (Eff S A) :=
  match e with
  | MergeException _ | MergeConflictException _ => Some k
  | _ => None
  end.

Definition merge (ix : Index) (base ours theirs : Tree) (current : option Tree)
  : Eff World (option Tree * option Tree) :=
  (* Take care of the really trivial cases. *)
  if tree_eqb base ours then mret (Some theirs, current)
  else if tree_eqb base theirs then mret (Some ours, current)
  else if tree_eqb ours theirs then mret (Some ours, current)
  else
    let '(ours, theirs) :=
      if otree_eqb current theirs then (theirs, ours) else (ours, theirs) in
    (if otree_eqb current ours then mret tt else read_tree ix ours);;
    try_except
      (apply_treediff ix base theirs true;;
       result ← write_tree ix;
       mret (Some result, Some result))
      (except_MergeException (mret (None, Some ours))).

Definition conflicts (ix : Index) : Eff World (list string) :=
  h ← history;
  emit (LsFilesUnmerged ix);;
  mret (git_ls_files_unmerged h ix).

End with_git.
End Index.

Module IndexAndWorktree.
Section with_git.
Context `{G : GitProcess}.

Definition checkout_hard (iw : IndexAndWorktree) (t : Tree) : Eff World unit :=
  emit (CheckoutHard iw t).

Definition checkout (iw : IndexAndWorktree) (old_tree new_tree : Tree)
  : Eff World unit :=
  h ← history;
  emit (Checkout iw old_tree new_tree);;
  if git_read_tree_merge h iw old_tree new_tree then mret tt
  else raise (CheckoutException "Index/workdir dirty").

Definition merge (iw : IndexAndWorktree) (base ours theirs : Tree)
  : Eff World unit :=
  h ← history;
  emit (MergeRecursive iw base ours theirs);;
  let '(exitcode, output) := git_merge_recursive h iw base ours theirs in
  if exitcode =? 0 then mret tt
  else if exitcode =? 1 then
    raise (MergeConflictException (filter (λ l, String.prefix "CONFLICT" l) output))
  else raise (MergeException "Index/worktree dirty").

End with_git.
End IndexAndWorktree.

Module Repository.
Section with_git.
Context `{G : GitProcess}.

Definition temp_index : Eff World Index :=
  h ← history;
  let ix := mkIndex (temp_index_filename h) in
  emit (TempIndex ix);;
  mret ix.

Definition commit (cd : CommitData) : Eff World Commit :=
  h ← history;
  emit (CommitTree cd);;
  mret (git_commit_tree h cd).

End with_git.
End Repository.

(** *** [Refs] and [Branch]

    This code raises exceptions of its own and runs commands of its own, so
    it has its own state: the cache of the refs and the commands run. *)

Module Refs.

(** The exceptions that cross this code. *)
Inductive Exn :=
| KeyError (k : string)
| AttributeError
| RunException
| BranchException (m : string).

(** The Git commands this code runs. *)
Inductive Command :=
| ShowRef
| UpdateRef (msg ref new_sha1 old_sha1 : string)
| UpdateRefDelete (ref old_sha1 : string)
| GitBranch (start : string).

(** A repository as [Refs] sees it: its cache of all refs ([None] until
    it is built) and the commands run so far. *)
Record Repo := mkRepo {
  cache : option (gmap string string);
  commands : list Command }.

(** What the code gets from the repository, given the commands run so
    far: the lines of [git show-ref], each one with the SHA-1 and the ref
    that the regular expression finds in it ([None]: no match), or nothing
    when the command fails; whether another command succeeds; and
    [get_commit], the one handle of a SHA-1. *)
Class GitRepository := {
  git_show_ref : list Command → option (list (option (string * string)));
  git_succeeds : list Command → Command → bool;
  get_commit : string → Commit;
  get_commit_sha1 : ∀ s, sha1 (get_commit s) = s }.

(** State passing with these exceptions. *)
Definition M (A : Type) : Type := Repo → (Exn + A) * Repo.

#[export] Instance M_ret : MRet M := λ A a r, (inr a, r).
#[export] Instance M_bind : MBind M := λ A B f m r,
  match m r with
  | (inr a, r') => f a r'
  | (inl e, r') => (inl e, r')
  end.

Definition raise {A} (e : Exn) : M A := λ r, (inl e, r).
Definition gets {A} (f : Repo → A) : M A := λ r, (inr (f r), r).
Definition set_cache (m : gmap string string) : M unit :=
  λ r, (inr tt, mkRepo (Some m) (commands r)).
Definition log (c : Command) : M unit :=
  λ r, (inr tt, mkRepo (cache r) (commands r ++ [c])).

(** [try: m except <handled>: h] *)
Definition try_except {A} (m : M A) (h : Exn → option (M A)) : M A :=
  λ r, match m r with
       | (inr a, r') => (inr a, r')
       | (inl e, r') =>
           match h e with
           | Some k => k r'
           | None => (inl e, r')
           end
       end.

(** ['0' * 40] *)
Definition zeros : string := "0000000000000000000000000000000000000000".

Section with_repository.
Context `{R : GitRepository}.

(** [repository.run([...]).no_output()] and [.discard_output()]: a command
    that fails raises [RunException]. *)
Definition run (c : Command) : M unit :=
  ok ← gets (λ r, git_succeeds (commands r) c);
  log c;;
  if ok : bool then mret tt else raise RunException.

(** [for line in lines: ...; self.__refs[ref] = sha1]; a line without a
    match has no [groups]. *)
Fixpoint cache_lines (lines : list (option (string * string)))
    (refs : gmap string string) : M unit :=
  match lines with
  | [] => mret tt
  | Some (sha1, ref) :: lines' =>
      set_cache (<[ref := sha1]> refs);;
      cache_lines lines' (<[ref := sha1]> refs)
  | None :: _ => raise AttributeError
  end.

(** [Refs.__cache_refs]: (re-)build the cache of all refs. *)
Definition __cache_refs : M unit :=
  set_cache ∅;;
  lines ← gets (λ r, git_show_ref (commands r));
  log ShowRef;;
  match lines with
  | None => mret tt
  | Some lines => cache_lines lines ∅
  end.

(** [if self.__refs is None: self.__cache_refs()], then [self.__refs]. *)
Definition the_refs : M (gmap string string) :=
  c ← gets cache;
  match c with
  | Some refs => mret refs
  | None => __cache_refs;; gets (λ r, default ∅ (cache r))
  end.

Definition get (ref : string) : M Commit :=
  refs ← the_refs;
  match refs !! ref with
  | Some sha1 => mret (get_commit sha1)
  | None => raise (KeyError ref)
  end.

Definition exists_ (ref : string) : M bool :=
  try_except (get ref;; mret true)
    (λ e, match e with KeyError _ => Some (mret false) | _ => None end).

Definition set (ref : string) (commit : Commit) (msg : string) : M unit :=
  refs ← the_refs;
  let old_sha1 := default zeros (refs !! ref) in
  let new_sha1 := sha1 commit in
  if negb (String.eqb old_sha1 new_sha1) then
    run (UpdateRef msg ref new_sha1 old_sha1);;
    set_cache (<[ref := new_sha1]> refs)
  else mret tt.

Definition delete (ref : string) : M unit :=
  refs ← the_refs;
  match refs !! ref with
  | Some old_sha1 =>
      run (UpdateRefDelete ref old_sha1);;
      set_cache (base.delete ref refs)
  | None => raise (KeyError ref)
  end.

End with_repository.
End Refs.

Module Branch.
Import Refs.
Section with_repository.
Context `{R : GitRepository}.

(** A branch is its name. *)
Definition __ref (name : string) : string := "refs/heads/" +:+ name.

Definition head (name : string) : M Commit := Refs.get (__ref name).

Definition set_head (name : string) (commit : Commit) (msg : string) : M unit :=
  Refs.set (__ref name) commit msg.

(** [Branch.__init__]: the branch of a name, if there is one. *)
Definition __init__ (name : string) : M string :=
  try_except (head name;; mret name)
    (λ e, match e with
          | KeyError _ => Some (raise (BranchException (name +:+ ": no such branch")))
          | _ => None
          end).

Definition create (name : string) (create_at : option Commit) : M string :=
  branch ←
    try_except (b ← __init__ name; mret (Some b))
      (λ e, match e with BranchException _ => Some (mret None) | _ => None end);
  match branch with
  | Some _ => raise (BranchException (name +:+ ": branch already exists"))
  | None =>
      start ← match create_at with
              | Some c => mret (sha1 c)
              | None => raise AttributeError
              end;
      run (GitBranch start);;
      __init__ name
  end.

End with_repository.
End Branch.

(** ** [stgit/lib/transaction.py] *)

Module transaction.

(** What a caller-supplied [allow_conflicts] function can read of the
    transaction it is given: its public properties. *)
Record View := mkView {
  view_patches : gmap string (option Commit);
  view_applied : list string;
  view_unapplied : list string;
  view_hidden : list string;
  view_base : Commit }.

(** The [allow_conflicts] argument: a bool, or a function of the transaction. *)
Inductive AllowConflicts :=
| AllowBool (b : bool)
| AllowFun (f : Stack → View → bool).

(** The fields of a [StackTransaction].  In the override map [patches] a
    tombstone is [None].  The closure [update] that [push_patch] stores in
    [conflicting_push] is kept as the two variables it captures, the patch
    name and the new commit (or [None]). *)
Record Trans := mkTrans {
  msg : string;
  patches : gmap string (option Commit);
  applied : list string;
  unapplied : list string;
  hidden : list string;
  conflicting_push : option (string * option Commit);
  error : option string;
  current_tree : Tree;
  base : Commit;
  discard_changes : bool;
  bad_head : option Commit;
  allow_conflicts : Stack → View → bool;
  temp_index : option Index;
  temp_index_tree : option Tree }.

Definition view (t : Trans) : View :=
  mkView (patches t) (applied t) (unapplied t) (hidden t) (base t).

Definition with_patches f t :=
  mkTrans (msg t) (f (patches t)) (applied t) (unapplied t) (hidden t)
    (conflicting_push t) (error t) (current_tree t) (base t) (discard_changes t)
    (bad_head t) (allow_conflicts t) (temp_index t) (temp_index_tree t).
Definition with_applied f t :=
  mkTrans (msg t) (patches t) (f (applied t)) (unapplied t) (hidden t)
    (conflicting_push t) (error t) (current_tree t) (base t) (discard_changes t)
    (bad_head t) (allow_conflicts t) (temp_index t) (temp_index_tree t).
Definition with_unapplied f t :=
  mkTrans (msg t) (patches t) (applied t) (f (unapplied t)) (hidden t)
    (conflicting_push t) (error t) (current_tree t) (base t) (discard_changes t)
    (bad_head t) (allow_conflicts t) (temp_index t) (temp_index_tree t).
Definition with_hidden f t :=
  mkTrans (msg t) (patches t) (applied t) (unapplied t) (f (hidden t))
    (conflicting_push t) (error t) (current_tree t) (base t) (discard_changes t)
    (bad_head t) (allow_conflicts t) (temp_index t) (temp_index_tree t).
Definition with_conflicting_push v t :=
  mkTrans (msg t) (patches t) (applied t) (unapplied t) (hidden t)
    v (error t) (current_tree t) (base t) (discard_changes t)
    (bad_head t) (allow_conflicts t) (temp_index t) (temp_index_tree t).
Definition with_error v t :=
  mkTrans (msg t) (patches t) (applied t) (unapplied t) (hidden t)
    (conflicting_push t) v (current_tree t) (base t) (discard_changes t)
    (bad_head t) (allow_conflicts t) (temp_index t) (temp_index_tree t).
Definition with_current_tree v t :=
  mkTrans (msg t) (patches t) (applied t) (unapplied t) (hidden t)
    (conflicting_push t) (error t) v (base t) (discard_changes t)
    (bad_head t) (allow_conflicts t) (temp_index t) (temp_index_tree t).
Definition with_allow_conflicts v t :=
  mkTrans (msg t) (patches t) (applied t) (unapplied t) (hidden t)
    (conflicting_push t) (error t) (current_tree t) (base t) (discard_changes t)
    (bad_head t) v (temp_index t) (temp_index_tree t).
Definition with_temp_index v t :=
  mkTrans (msg t) (patches t) (applied t) (unapplied t) (hidden t)
    (conflicting_push t) (error t) (current_tree t) (base t) (discard_changes t)
    (bad_head t) (allow_conflicts t) v (temp_index_tree t).
Definition with_temp_index_tree v t :=
  mkTrans (msg t) (patches t) (applied t) (unapplied t) (hidden t)
    (conflicting_push t) (error t) (current_tree t) (base t) (discard_changes t)
    (bad_head t) (allow_conflicts t) (temp_index t) v.

(** The state the methods run over: the transaction object and the world. *)
Definition TW : Type := Trans * World.

Definition self {A} (f : Trans → A) : Eff TW A := gets (λ s, f s.1).
Definition set_self (f : Trans → Trans) : Eff TW unit := modify (λ s, (f s.1, s.2)).
Definition the_stack {A} (f : Stack → A) : Eff TW A := gets (λ s, f (w_stack s.2)).
Definition in_world {A} (m : Eff World A) : Eff TW A :=
  λ s, let '(r, w) := m s.2 in (r, (s.1, w)).

(** [o.data] and the like on a value that may be [None]. *)
Definition deref {S A} (o : option A) : Eff S A :=
  match o with
  | Some a => mret a
  | None => raise AttributeError
  end.

(** The one-character string holding a double quote. *)
Definition dquote : string := String (Ascii.ascii_of_nat 34) EmptyString.

Definition _print_current_patch (old_applied new_applied : list string)
  : Eff World unit :=
  let now_at pn := out_info ("Now at patch " +:+ dquote +:+ pn +:+ dquote) in
  match last old_applied, last new_applied with
  | None, None => mret tt
  | None, Some n => now_at n
  | Some _, None => out_info "No patch applied"
  | Some o, Some n => if String.eqb o n then mret tt else now_at n
  end.

(** [_TransPatchMap.__getitem__]: the override map, falling through to the
    live stack. *)
Definition patches_getitem (pn : string) : Eff TW (option Commit) :=
  ov ← self patches;
  match ov !! pn with
  | Some c => mret c
  | None =>
      live ← the_stack stack_patches;
      match live !! pn with
      | Some c => mret (Some c)
      | None => raise (KeyError pn)
      end
  end.

Definition all_patches (t : Trans) : list string :=
  applied t ++ unapplied t ++ hidden t.

Section with_git.
Context `{G : GitProcess}.

Definition __abort {S A} : Eff S A :=
  raise (TransactionException "Command aborted (all changes rolled back)").

Definition __assert_head_top_equal : Eff World unit :=
  s ← gets w_stack;
  if head_top_equal s then mret tt
  else
    out_error ["HEAD and top are not the same.";
               "This can happen if you modify a branch with git.";
               dquote +:+ "stg repair --help" +:+ dquote
                 +:+ " explains more about what to do next."];;
    __abort.

(** [StackTransaction.__init__]: the new transaction, or the exception. *)
Definition __init__ (msg : string) (discard_changes : bool)
    (allow_conflicts : AllowConflicts) (allow_bad_head : bool)
  : Eff World Trans :=
  s ← gets w_stack;
  let t :=
    {| msg := msg;
       patches := ∅;
       applied := patchorder_applied s;
       unapplied := patchorder_unapplied s;
       hidden := patchorder_hidden s;
       conflicting_push := None;
       error := None;
       current_tree := tree (data (stack_head s));
       base := stack_base s;
       discard_changes := discard_changes;
       bad_head := None;
       allow_conflicts :=
         match allow_conflicts with
         | AllowBool b => λ _ _, b
         | AllowFun f => f
         end;
       temp_index := None;
       temp_index_tree := None |} in
  (if negb allow_bad_head then __assert_head_top_equal else mret tt);;
  mret t.

(** The [temp_index] property: created on first use. *)
Definition get_temp_index : Eff TW Index :=
  cached ← self temp_index;
  match cached with
  | Some ix => mret ix
  | None =>
      ix ← in_world Repository.temp_index;
      set_self (with_temp_index (Some ix));;
      mret ix
  end.

(** The [top] property; [None] is Python's [None], a tombstone. *)
Definition top : Eff TW (option Commit) :=
  a ← self applied;
  match last a with
  | Some pn => patches_getitem pn
  | None => b ← self base; mret (Some b)
  end.

(** The getter of the [head] property. *)
Definition head : Eff TW (option Commit) :=
  bh ← self bad_head;
  match bh with
  | Some c => mret (Some c)
  | None => top
  end.

Definition __checkout (tree : Tree) (iw : option IndexAndWorktree)
    (allow_bad_head : bool) : Eff TW unit :=
  (if negb allow_bad_head then in_world __assert_head_top_equal else mret tt);;
  cur ← self current_tree;
  discard ← self discard_changes;
  let go : Eff TW unit :=
    (* assert iw != None *)
    match iw with
    | None => raise AssertionError
    | Some iw' =>
        (if (discard : bool) then in_world (IndexAndWorktree.checkout_hard iw' tree)
         else in_world (IndexAndWorktree.checkout iw' cur tree));;
        set_self (with_current_tree tree)
    end in
  if tree_eqb cur tree && negb discard then
    (* No tree change, but there must be no unresolved conflicts. *)
    s ← the_stack id;
    ac ← self (λ t, allow_conflicts t s (view t));
    if (ac : bool) then mret tt
    else match iw with
         | None => mret tt
         | Some iw' =>
             cs ← in_world (Index.conflicts (iw_index iw'));
             match cs : list string with
             | [] => mret tt
             | _ :: _ =>
                 in_world (out_error ["Need to resolve conflicts first"]);;
                 __abort
             end
         end
  else go.

Definition __check_consistency : Eff TW unit :=
  remaining ← self all_patches;
  ov ← self patches;
  for_each (map_to_list ov) (λ '(pn, commit),
    match commit with
    | None =>
        live ← the_stack stack_patches;
        assert (bool_decide (is_Some (live !! pn)))
    | Some _ => assert (bool_decide (pn ∈ remaining))
    end).

Definition abort (iw : option IndexAndWorktree) : Eff TW unit :=
  (* The only state we need to restore is index+worktree. *)
  match iw with
  | Some _ =>
      h ← the_stack stack_head;
      __checkout (tree (data h)) iw true
  | None => mret tt
  end.

Definition __halt {A} (m : string) : Eff TW A :=
  set_self (with_error (Some m));;
  raise (TransactionHalted m).

Definition __print_popped (popped : list string) : Eff World unit :=
  match popped with
  | [] => mret tt
  | [pn] => out_info ("Popped " +:+ pn)
  | first :: _ :: _ =>
      out_info ("Popped " +:+ default first (last popped) +:+ " -- " +:+ first)
  end.

(** The [for i in xrange(len(self.applied))] loop of [pop_patches] and
    [delete_patches]: cut [applied] at the lowest index whose patch satisfies
    [p]; gives what stays applied and what is popped. *)
Definition cut_at_first (p : string → bool) (applied : list string)
  : list string * list string :=
  match list_find (λ pn, Is_true (p pn)) applied with
  | Some (i, _) => (take i applied, drop i applied)
  | None => (applied, [])
  end.

Definition pop_patches (p : string → bool) : Eff TW (list string) :=
  a ← self applied;
  let '(kept, popped) := cut_at_first p a in
  set_self (with_applied (λ _, kept));;
  let popped1 := filter (λ pn, Is_true (negb (p pn))) popped in
  let popped2 := filter (λ pn, Is_true (p pn)) popped in
  set_self (with_unapplied (λ u, popped1 ++ popped2 ++ u));;
  in_world (__print_popped popped);;
  mret popped1.

Definition delete_patches (p : string → bool) (quiet : bool)
  : Eff TW (list string) :=
  all ← self all_patches;
  a ← self applied;
  let '(kept, popped) := cut_at_first p a in
  set_self (with_applied (λ _, kept));;
  let popped := filter (λ pn, Is_true (negb (p pn))) popped in
  set_self (with_unapplied (λ u, popped ++ filter (λ pn, Is_true (negb (p pn))) u));;
  set_self (with_hidden (filter (λ pn, Is_true (negb (p pn)))));;
  in_world (__print_popped popped);;
  for_each all (λ pn,
    if p pn then
      c ← patches_getitem pn;
      c' ← deref c;
      let s := if is_nochange (data c') then " (empty)" else EmptyString in
      set_self (with_patches (<[pn := None]>));;
      if quiet then mret tt
      else in_world (out_info ("Deleted " +:+ pn +:+ s))
    else mret tt);;
  mret popped.

(** [x.index(pn)] *)
Definition index (pn : string) (x : list string) : option nat :=
  fst <$> list_find (λ y, y = pn) x.

(** The closure [update] of [push_patch], over the [pn] and [comm] it
    captures. *)
Definition update (pn : string) (comm : option Commit) : Eff TW unit :=
  match comm with
  | Some c => set_self (with_patches (<[pn := Some c]>))
  | None => mret tt
  end;;
  h ← self hidden;
  u ← self unapplied;
  (if bool_decide (pn ∈ (h : list string)) then
     match index pn h with
     | Some i => set_self (with_hidden (delete i))
     | None => raise ValueError
     end
   else
     match index pn u with
     | Some i => set_self (with_unapplied (delete i))
     | None => raise ValueError
     end);;
  set_self (with_applied (λ a, a ++ [pn])).

(** [CommitData.parent] without the assertion. *)
Definition the_parent (cd : CommitData) : option Commit :=
  match parents cd with
  | [p] => Some p
  | _ => None
  end.

Definition ocommit_eqb (a b : option Commit) : bool :=
  match a, b with
  | Some x, Some y => commit_eqb x y
  | None, None => true
  | _, _ => false
  end.

(** [any(getattr(cd, a) != getattr(orig_cd, a)
         for a in ['parent', 'tree', 'author', 'message'])];
    where it is evaluated both have exactly one parent. *)
Definition changed (cd orig_cd : CommitData) : bool :=
  negb (ocommit_eqb (the_parent cd) (the_parent orig_cd))
  || negb (tree_eqb (tree cd) (tree orig_cd))
  || negb (operson_eqb (author cd) (author orig_cd))
  || negb (String.eqb (message cd) (message orig_cd)).

Definition except_CheckoutException {S A} (k : Eff S A) (e : Exn) : option (Eff S A) :=
  match e with
  | CheckoutException _ => Some k
  | _ => None
  end.

Definition push_patch (pn : string) (iw : option IndexAndWorktree) : Eff TW unit :=
  orig ← patches_getitem pn;
  orig' ← deref orig;
  let orig_cd := data orig' in
  let cd := set_committer orig_cd None in
  oldparent ← parent cd;
  new_top ← top;
  let base := tree (data oldparent) in
  new_parent ← deref new_top;
  let cd := set_parent cd new_parent in
  let ours := tree (data new_parent) in
  let theirs := tree cd in
  ix ← get_temp_index;
  hint ← self temp_index_tree;
  merged ← in_world (Index.merge ix base ours theirs hint);
  set_self (with_temp_index_tree (merged : option Tree * option Tree).2);;
  tsm ←
    match merged.1 with
    | Some tree => mret (tree, EmptyString, false)
    | None =>
        match iw with
        | None => __halt (pn +:+ " does not apply cleanly")
        | Some iw' =>
            try_except (__checkout ours iw false)
              (except_CheckoutException (__halt "Index/worktree dirty"));;
            try_except
              (in_world (IndexAndWorktree.merge iw' base ours theirs);;
               tree ← in_world (Index.write_tree (iw_index iw'));
               set_self (with_current_tree tree);;
               mret (tree, " (modified)", false))
              (λ e, match e with
                    | MergeConflictException _ => Some (mret (ours, " (conflict)", true))
                    | MergeException m => Some (__halt m)
                    | _ => None
                    end)
        end
    end;
  let '(tree, s, merge_conflict) := (tsm : Tree * string * bool) in
  let cd := set_tree cd tree in
  comm_s ←
    (if changed cd orig_cd then
       comm ← in_world (Repository.commit cd); mret (Some comm, s)
     else mret (None, " (unmodified)"));
  let '(comm, s) := (comm_s : option Commit * string) in
  let s := if negb merge_conflict && is_nochange cd then " (empty)" else s in
  in_world (out_info ("Pushed " +:+ pn +:+ s));;
  if merge_conflict then
    (* We have just caused conflicts, so we must allow them in the final
       checkout. *)
    set_self (with_allow_conflicts (λ _ _, true));;
    (* Save this update so that we can run it a little later. *)
    set_self (with_conflicting_push (Some (pn, comm)));;
    __halt "Merge conflict"
  else
    (* Update immediately. *)
    update pn comm.

(** [len(list(takewhile(lambda (a, b): a == b, zip(xs, ys))))] *)
Fixpoint common_prefix (xs ys : list string) : nat :=
  match xs, ys with
  | x :: xs', y :: ys' => if String.eqb x y then S (common_prefix xs' ys') else O
  | _, _ => O
  end.

Definition list_eqb (xs ys : list string) : bool := bool_decide (xs = ys).

Definition set_eqb (xs ys : list string) : bool :=
  bool_decide (list_to_set (C := gset string) xs = list_to_set ys).

Definition reorder_patches (applied' unapplied' hidden' : list string)
    (iw : option IndexAndWorktree) : Eff TW unit :=
  a ← self applied;
  let common := common_prefix a applied' in
  let to_pop := drop common a in
  pop_patches (λ pn, bool_decide (pn ∈ to_pop));;
  for_each (drop common applied') (λ pn, push_patch pn iw);;
  a ← self applied;
  assert (list_eqb a applied');;
  u ← self unapplied;
  h ← self hidden;
  assert (set_eqb (u ++ h) (unapplied' ++ hidden'));;
  set_self (with_unapplied (λ _, unapplied'));;
  set_self (with_hidden (λ _, hidden')).

(** The local function [write] of [run]. *)
Definition write (msg : string) : Eff TW unit :=
  ov ← self patches;
  for_each (map_to_list ov) (λ '(pn, commit),
    live ← the_stack stack_patches;
    match live !! pn with
    | Some _ =>
        match commit with
        | None => in_world (patch_delete pn)
        | Some c => in_world (patch_set_commit pn c msg)
        end
    | None => in_world (patches_new pn commit msg)
    end);;
  a ← self applied;
  u ← self unapplied;
  h ← self hidden;
  in_world (update_stack (with_patchorder a u h));;
  in_world (log_entry msg).

Definition run (iw : option IndexAndWorktree)
    (set_head allow_bad_head print_current_patch : bool) : Eff TW Z :=
  __check_consistency;;
  in_world log_external_mods;;
  new_head ← head;
  m ← self msg;
  (* Set branch head. *)
  (if set_head then
     match iw with
     | Some _ =>
         try_except
           (nh ← deref new_head; __checkout (tree (data nh)) iw allow_bad_head)
           (* We have to abort the transaction. *)
           (except_CheckoutException (abort iw;; __abort))
     | None => mret tt
     end;;
     in_world (world.set_head new_head m)
   else mret tt);;
  err ← self error;
  match err with
  | Some e => if truthy err then in_world (out_error [e]) else mret tt
  | None => mret tt
  end;;
  (* Write patches. *)
  old_applied ← the_stack patchorder_applied;
  write m;;
  cp ← self conflicting_push;
  match cp with
  | Some (pn, comm) =>
      set_self (with_patches (λ _, ∅));;
      update pn comm;;
      write (m +:+ " (CONFLICT)")
  | None => mret tt
  end;;
  (if print_current_patch then
     a ← self applied; in_world (_print_current_patch old_applied a)
   else mret tt);;
  err ← self error;
  mret (if truthy err then utils.STGIT_CONFLICT else utils.STGIT_SUCCESS).

End with_git.
End transaction.

Import transaction.

(** ** Vocabulary of the properties *)

Section vocabulary.
Context `{G : GitProcess}.

(** [push_patch] up to the point where the tree of the pushed patch is
    known: the original commit data, the rebased commit data carrying the
    new tree, the message suffix so far and whether the merge conflicted. *)
Definition push_merge (pn : string) (iw : option IndexAndWorktree)
  : Eff TW (CommitData * CommitData * string * bool) :=
  orig ← patches_getitem pn;
  orig' ← deref orig;
  let orig_cd := data orig' in
  let cd := set_committer orig_cd None in
  oldparent ← parent cd;
  new_top ← top;
  let base := tree (data oldparent) in
  new_parent ← deref new_top;
  let cd := set_parent cd new_parent in
  let ours := tree (data new_parent) in
  let theirs := tree cd in
  ix ← get_temp_index;
  hint ← self temp_index_tree;
  merged ← in_world (Index.merge ix base ours theirs hint);
  set_self (with_temp_index_tree (merged : option Tree * option Tree).2);;
  tsm ←
    match merged.1 with
    | Some tree => mret (tree, EmptyString, false)
    | None =>
        match iw with
        | None => __halt (pn +:+ " does not apply cleanly")
        | Some iw' =>
            try_except (__checkout ours iw false)
              (except_CheckoutException (__halt "Index/worktree dirty"));;
            try_except
              (in_world (IndexAndWorktree.merge iw' base ours theirs);;
               tree ← in_world (Index.write_tree (iw_index iw'));
               set_self (with_current_tree tree);;
               mret (tree, " (modified)", false))
              (λ e, match e with
                    | MergeConflictException _ => Some (mret (ours, " (conflict)", true))
                    | MergeException m => Some (__halt m)
                    | _ => None
                    end)
        end
    end;
  let '(tree, s, merge_conflict) := (tsm : Tree * string * bool) in
  mret (orig_cd, set_tree cd tree, s, merge_conflict).

(** The rest of [push_patch]: the commit decision, the report and the
    update of the patch lists (or its deferral). *)
Definition push_finish (pn : string) (x : CommitData * CommitData * string * bool)
  : Eff TW unit :=
  let '(orig_cd, cd, s, merge_conflict) := x in
  comm_s ←
    (if changed cd orig_cd then
       comm ← in_world (Repository.commit cd); mret (Some comm, s)
     else mret (None, " (unmodified)"));
  let '(comm, s) := (comm_s : option Commit * string) in
  let s := if negb merge_conflict && is_nochange cd then " (empty)" else s in
  in_world (out_info ("Pushed " +:+ pn +:+ s));;
  if merge_conflict then
    set_self (with_allow_conflicts (λ _ _, true));;
    set_self (with_conflicting_push (Some (pn, comm)));;
    __halt "Merge conflict"
  else update pn comm.

End vocabulary.

(** The events between two worlds of one run. *)
Definition new_events (w w' : World) : list Event :=
  drop (length (w_trace w)) (w_trace w').

(** The commit objects created by a list of events. *)
Definition commit_trees (evs : list Event) : list CommitData :=
  omap (λ e, match e with CommitTree cd => Some cd | _ => None end) evs.

(** A computation keeps a relation between the state it starts from and the
    state it leaves, however it ends. *)
Definition preserves {S A} (R : relation S) (m : Eff S A) : Prop :=
  ∀ s, R s (m s).2.

(** The world is extended: the live stack moves along [RS] and the history
    grows by events that all satisfy [P]. *)
Definition extends (RS : relation Stack) (P : Event → Prop) : relation World :=
  λ w w',
    RS (w_stack w) (w_stack w')
    ∧ ∃ evs, w_trace w' = w_trace w ++ evs ∧ Forall P evs.

(** The staged stack of the transaction is the same. *)
Definition same_staged : relation Trans := λ t t',
  applied t' = applied t ∧ unapplied t' = unapplied t ∧ hidden t' = hidden t
  ∧ patches t' = patches t ∧ base t' = base t ∧ bad_head t' = bad_head t
  ∧ msg t' = msg t ∧ conflicting_push t' = conflicting_push t.

(** Relations on the transaction and on the world, side by side. *)
Definition both (RT : relation Trans) (RW : relation World) : relation TW :=
  λ s s', RT s.1 s'.1 ∧ RW s.2 s'.2.

(** The events of merging and checking out: what [push_patch] may do before
    it knows the tree of the pushed patch. *)
Definition merge_event (e : Event) : Prop :=
  match e with
  | OutInfo _ | OutError _ | TempIndex _ | ReadTree _ _ | ApplyTreediff _ _ _
  | WriteTree _ | CheckoutHard _ _ | Checkout _ _ _ | MergeRecursive _ _ _ _
  | LsFilesUnmerged _ => True
  | CommitTree _ | SetHead _ _ | PatchDelete _ | PatchSetCommit _ _ _
  | PatchNew _ _ _ | LogExternalMods _ | LogEntry _ _ => False
  end.

(** At least one of parent, tree, author and message of [cd] is not that of
    [orig_cd]; commits are compared as the interned handles are, by SHA-1. *)
Definition differs (cd orig_cd : CommitData) : Prop :=
  sha1 <$> the_parent cd ≠ sha1 <$> the_parent orig_cd
  ∨ tree cd ≠ tree orig_cd
  ∨ author cd ≠ author orig_cd
  ∨ message cd ≠ message orig_cd.

(** The statement that a push of a patch whose tree is the tree of its new
    parent never creates a commit object. *)
Definition same_tree_push_creates_no_commit : Prop :=
  ∀ (G : GitProcess) pn iw t w c newparent,
    patches_getitem pn (t, w) = (Ret (Some c), (t, w)) →
    top (t, w) = (Ret (Some newparent), (t, w)) →
    tree (data c) = tree (data newparent) →
    commit_trees (new_events w (push_patch pn iw (t, w)).2.2) = [].

(** [run] up to and including the first call of [write]; gives the log
    message and the applied list the stack had before. *)
Definition run_first_pass `{G : GitProcess} (iw : option IndexAndWorktree)
    (set_head allow_bad_head : bool) : Eff TW (string * list string) :=
  __check_consistency;;
  in_world log_external_mods;;
  new_head ← head;
  m ← self msg;
  (if set_head then
     match iw with
     | Some _ =>
         try_except
           (nh ← deref new_head; __checkout (tree (data nh)) iw allow_bad_head)
           (except_CheckoutException (abort iw;; __abort))
     | None => mret tt
     end;;
     in_world (world.set_head new_head m)
   else mret tt);;
  err ← self error;
  match err with
  | Some e => if truthy err then in_world (out_error [e]) else mret tt
  | None => mret tt
  end;;
  old_applied ← the_stack patchorder_applied;
  write m;;
  mret (m, old_applied).

(** The rest of [run]: the conflict continuation, the report and the
    status code. *)
Definition run_second_pass (print_current_patch : bool)
    (x : string * list string) : Eff TW Z :=
  let '(m, old_applied) := x in
  cp ← self conflicting_push;
  match cp with
  | Some (pn, comm) =>
      set_self (with_patches (λ _, ∅));;
      update pn comm;;
      write (m +:+ " (CONFLICT)")
  | None => mret tt
  end;;
  (if print_current_patch then
     a ← self applied; in_world (_print_current_patch old_applied a)
   else mret tt);;
  err ← self error;
  mret (if truthy err then utils.STGIT_CONFLICT else utils.STGIT_SUCCESS).

(** The branch head of the live stack stays where it is. *)
Definition same_head : relation Stack := λ s s', stack_head s' = stack_head s.

(** Any change of the live stack. *)
Definition any_stack : relation Stack := λ _ _, True.

(** The events that are no checkout and no update of the branch head. *)
Definition no_checkout (e : Event) : Prop :=
  match e with
  | CheckoutHard _ _ | Checkout _ _ _ | SetHead _ _ => False
  | _ => True
  end.

Definition any_event (e : Event) : Prop := True.

(** The error field is the same. *)
Definition same_error : relation Trans := λ t t', error t' = error t.

(** The error field holds no empty message. *)
Definition error_ok (t : Trans) : Prop := error t ≠ Some EmptyString.

(** The override map, written over the patches of the live stack. *)
Definition written (ov : gmap string (option Commit)) (live : gmap string Commit)
    (pn : string) : option Commit :=
  match ov !! pn with
  | Some c => c
  | None => live !! pn
  end.

(** The events of the patch metadata writeback under a message. *)
Definition patch_event (msg : string) (e : Event) : Prop :=
  match e with
  | PatchDelete _ => True
  | PatchSetCommit _ _ m | PatchNew _ _ m => m = msg
  | _ => False
  end.

(** The body of the loop of [write]: one entry of the override map. *)
Definition write_entry (msg : string) (entry : string * option Commit)
  : Eff TW unit :=
  let '(pn, commit) := entry in
  live ← the_stack stack_patches;
  match live !! pn with
  | Some _ =>
      match commit with
      | None => in_world (patch_delete pn)
      | Some c => in_world (patch_set_commit pn c msg)
      end
  | None => in_world (patches_new pn commit msg)
  end.

(** The live stack but for its patch to commit map. *)
Definition same_but_patches : relation Stack := λ s s',
  patchorder_applied s' = patchorder_applied s
  ∧ patchorder_unapplied s' = patchorder_unapplied s
  ∧ patchorder_hidden s' = patchorder_hidden s
  ∧ stack_base s' = stack_base s
  ∧ stack_head s' = stack_head s.

(** The transaction is the same but for the tree it believes checked out. *)
Definition same_but_current_tree : relation Trans := λ t t',
  ∃ v, t' = with_current_tree v t.

(** The transaction after [update] recorded the commit, if any. *)
Definition recorded (pn : string) (comm : option Commit) (t : Trans) : Trans :=
  match comm with
  | Some c => with_patches (<[pn := Some c]>) t
  | None => t
  end.

(** What [__check_consistency] asserts: every tombstone is of a patch of the
    live stack, every other override is of a patch in one of the lists. *)
Definition consistent (t : Trans) (s : Stack) : Prop :=
  ∀ pn c,
    patches t !! pn = Some c →
    match c with
    | None => is_Some (stack_patches s !! pn)
    | Some _ => pn ∈ all_patches t
    end.

(** The [head] property can be read: a bad head is set, or nothing is
    applied, or the topmost applied patch is known. *)
Definition head_resolves (t : Trans) (s : Stack) : Prop :=
  is_Some (bad_head t)
  ∨ match last (applied t) with
    | None => True
    | Some pn => is_Some (patches t !! pn) ∨ is_Some (stack_patches s !! pn)
    end.

(** The events of [out.info]. *)
Definition is_info (e : Event) : Prop := ∃ s, e = OutInfo s.

(** A patch name is live: the transaction introduced or rewrote it, or the
    stack has it and the transaction did not tombstone it. *)
Definition live (t : Trans) (s : Stack) (pn : string) : Prop :=
  match patches t !! pn with
  | Some (Some _) => True
  | Some None => False
  | None => is_Some (stack_patches s !! pn)
  end.

(** The invariant as the spec words it: the three staged lists are pairwise
    disjoint and their union is the set of live patch names. *)
Definition disjoint_lists (s : TW) : Prop :=
  (∀ pn, pn ∈ applied s.1 → pn ∉ unapplied s.1)
  ∧ (∀ pn, pn ∈ applied s.1 → pn ∉ hidden s.1)
  ∧ (∀ pn, pn ∈ unapplied s.1 → pn ∉ hidden s.1)
  ∧ (∀ pn, pn ∈ all_patches s.1 ↔ live s.1 (w_stack s.2) pn).

(** The invariant the code keeps: moreover no list names a patch twice. *)
Definition invariant (s : TW) : Prop :=
  NoDup (all_patches s.1)
  ∧ (∀ pn, pn ∈ all_patches s.1 ↔ live s.1 (w_stack s.2) pn).

(** The statement that every operation keeps the invariant as the spec
    words it. *)
Definition operations_keep_disjoint_lists : Prop :=
  ∀ (G : GitProcess) (s : TW),
    disjoint_lists s →
    (∀ p, disjoint_lists (pop_patches p s).2)
    ∧ (∀ p quiet, disjoint_lists (delete_patches p quiet s).2)
    ∧ (∀ pn iw, disjoint_lists (push_patch pn iw s).2)
    ∧ (∀ applied' unapplied' hidden' iw,
         disjoint_lists (reorder_patches applied' unapplied' hidden' iw s).2).

(** A computation keeps a property of the state. *)
Definition keeps {S} (P : S → Prop) : relation S := λ s s', P s → P s'.

(** The body of the loop of [delete_patches]. *)
Definition delete_entry (p : string → bool) (quiet : bool) (pn : string)
  : Eff TW unit :=
  if p pn then
    c ← patches_getitem pn;
    c' ← deref c;
    let s := if is_nochange (data c') then " (empty)" else EmptyString in
    set_self (with_patches (<[pn := None]>));;
    if quiet then mret tt
    else in_world (out_info ("Deleted " +:+ pn +:+ s))
  else mret tt.

(** The lines of the HEAD/top divergence error. *)
Definition divergence_error : Event :=
  OutError ["HEAD and top are not the same.";
            "This can happen if you modify a branch with git.";
            dquote +:+ "stg repair --help" +:+ dquote
              +:+ " explains more about what to do next."].

(** ** Vocabulary of the further properties *)

(** Any change of the transaction. *)
Definition any_trans : relation Trans := λ _ _, True.

(** The events that write nothing to the stack, its refs or its log. *)
Definition no_write (e : Event) : Prop :=
  match e with
  | SetHead _ _ | PatchDelete _ | PatchSetCommit _ _ _ | PatchNew _ _ _
  | LogExternalMods _ | LogEntry _ _ => False
  | _ => True
  end.

(** A computation that raises leaves a state that satisfies [Q] of the
    exception. *)
Definition raises {S A} (Q : Exn → S → Prop) (m : Eff S A) : Prop :=
  ∀ s e s', m s = (Raise e, s') → Q e s'.

(** The error field holds the message of the exception that halted the
    transaction. *)
Definition halted_with_error (e : Exn) (s : TW) : Prop :=
  ∀ m, e = TransactionHalted m → error s.1 = Some m ∧ m ≠ EmptyString.

(** The lists name the same patches, each as often. *)
Definition same_names : relation TW := λ s s',
  all_patches s'.1 ≡ₚ all_patches s.1.

(** The world after more events. *)
Definition after (w : World) (evs : list Event) : World :=
  mkWorld (w_stack w) (w_trace w ++ evs).

(** The events that check a tree out into the index and worktree. *)
Definition is_checkout (e : Event) : Prop :=
  match e with
  | CheckoutHard _ _ | Checkout _ _ _ => True
  | _ => False
  end.

(** How [__abort] ends. *)
Definition aborted {A} : outcome A :=
  Raise (TransactionException "Command aborted (all changes rolled back)").

(** [run] up to the update of the branch head: the checks, the head to set
    and the checkout of its tree. *)
Definition run_checkout `{G : GitProcess} (iw : option IndexAndWorktree)
    (set_head allow_bad_head : bool) : Eff TW (option Commit * string) :=
  __check_consistency;;
  in_world log_external_mods;;
  new_head ← head;
  m ← self msg;
  (if set_head then
     match iw with
     | Some _ =>
         try_except
           (nh ← deref new_head; __checkout (tree (data nh)) iw allow_bad_head)
           (except_CheckoutException (abort iw;; __abort))
     | None => mret tt
     end
   else mret tt);;
  mret (new_head, m).

(** The rest of [run]: everything it writes. *)
Definition run_write `{G : GitProcess} (set_head print_current_patch : bool)
    (x : option Commit * string) : Eff TW Z :=
  let '(new_head, m) := x in
  (if set_head then in_world (world.set_head new_head m) else mret tt);;
  err ← self error;
  match err with
  | Some e => if truthy err then in_world (out_error [e]) else mret tt
  | None => mret tt
  end;;
  old_applied ← the_stack patchorder_applied;
  write m;;
  cp ← self conflicting_push;
  match cp with
  | Some (pn, comm) =>
      set_self (with_patches (λ _, ∅));;
      update pn comm;;
      write (m +:+ " (CONFLICT)")
  | None => mret tt
  end;;
  (if print_current_patch then
     a ← self applied; in_world (_print_current_patch old_applied a)
   else mret tt);;
  err ← self error;
  mret (if truthy err then utils.STGIT_CONFLICT else utils.STGIT_SUCCESS).

(** The events that update nothing of the stack: no ref, no patch and no
    log entry is written. *)
Definition no_update (e : Event) : Prop :=
  match e with
  | SetHead _ _ | PatchDelete _ | PatchSetCommit _ _ _ | PatchNew _ _ _
  | LogEntry _ _ => False
  | _ => True
  end.


(** The tree the transaction believes checked out is the same. *)
Definition same_current_tree : relation Trans := λ t t',
  current_tree t' = current_tree t.


(** The object of a name is in the cache. *)
Definition cached {S A} (name : string) (val : A)
    (c : ObjectCache.Cache (S := S)) : Prop :=
  c.1 !! name = Some val.

(** A computation on the refs that leaves the cache built, and runs
    [git show-ref] once, before anything else, if the cache was not built,
    and not at all if it was. *)
Definition builds_cache_once {A} (m : Refs.M A) : Prop :=
  ∀ r x r', m r = (x, r') →
    is_Some (Refs.cache r') ∧
    ∃ cmds,
      Refs.commands r'
      = Refs.commands r ++ match Refs.cache r with Some _ => [] | None => [Refs.ShowRef] end ++ cmds
      ∧ Refs.ShowRef ∉ cmds.

(** ** A small repository to run the code on

    A base commit, a stack with the patch [a] applied and the patches [p]
    and [b] unapplied; [p] has the tree of [a], and [b] does not apply on
    top of [a]. *)

Module sample.

Definition T0 := mkTree "t0".
Definition Ta := mkTree "ta".
Definition Tb := mkTree "tb".
Definition C0 := mkCommit "c0" (mkCommitData T0 [] None None "base").
Definition CA := mkCommit "ca" (mkCommitData Ta [C0] None None "a").
Definition CP := mkCommit "cp" (mkCommitData Ta [C0] None None "p").
Definition CB := mkCommit "cb" (mkCommitData Tb [C0] None None "b").

(** A Git in which no diff applies and every worktree merge conflicts. *)
Definition conflicting_git : GitProcess := {|
  git_apply_cached := λ _ _ _ _, false;
  git_write_tree := λ _ _, None;
  git_commit_tree := λ _ cd, mkCommit ("new-" +:+ message cd) cd;
  git_read_tree_merge := λ _ _ _ _, true;
  git_merge_recursive := λ _ _ _ _ _, (1, ["CONFLICT (content): f"; "Auto-merging f"]);
  git_ls_files_unmerged := λ _ _, [];
  temp_index_filename := λ _, ".git/index.temp-1-a" |}.

Definition the_stack : Stack :=
  mkStack ["a"] ["p"; "b"] []
    (<["a" := CA]> (<["p" := CP]> (<["b" := CB]> ∅))) C0 CA.

Definition the_world : World := mkWorld the_stack [].

Definition iw : IndexAndWorktree := mkIW (mkIndex ".git/index") ".".

(** The transaction [__init__] builds on [the_world]. *)
Definition trans (m : string) : Trans :=
  {| msg := m; patches := ∅; applied := ["a"]; unapplied := ["p"; "b"];
     hidden := []; conflicting_push := None; error := None;
     current_tree := Ta; base := C0; discard_changes := false;
     bad_head := None; allow_conflicts := λ _ _, false;
     temp_index := None; temp_index_tree := None |}.

(** The transaction after everything was popped. *)
Definition popped_trans (m : string) : Trans :=
  with_unapplied (λ _, ["a"; "p"; "b"]) (with_applied (λ _, []) (trans m)).

(** The transaction and the world after the push of [b] with an index and
    worktree, which halts on a merge conflict. *)
Definition conflicted : TW :=
  (push_patch (G := conflicting_git) "b" (Some iw) (trans "push", the_world)).2.

(** The transaction and the world after the push of [p]. *)
Definition pushed : TW :=
  (push_patch (G := conflicting_git) "p" None (trans "push", the_world)).2.

(** A transaction whose applied list names [a] twice. *)
Definition twice_applied : TW :=
  (with_unapplied (λ _, ["p"])
     (with_applied (λ _, ["a"; "b"; "a"]) (trans "pop")),
   the_world).

(** The same stack after the branch was moved behind StGit's back. *)
Definition diverged_world : World :=
  mkWorld (with_head CB the_stack) [].

End sample.

(** A repository with one branch, where every Git command succeeds. *)

Module sample_refs.

Definition commit_of (s : string) : Commit :=
  mkCommit s (mkCommitData sample.T0 [] None None "m").

Definition repository : Refs.GitRepository := {|
  Refs.git_show_ref := λ _, Some [Some ("c0", "refs/heads/master")];
  Refs.git_succeeds := λ _ _, true;
  Refs.get_commit := commit_of;
  Refs.get_commit_sha1 := λ _, eq_refl |}.

Definition fresh : Refs.Repo := Refs.mkRepo None [].

End sample_refs.

(** ** Laws of the effect monad *)

Section monad_laws.
Context {S : Type}.

Lemma bind_ret {A B} (m : Eff S A) (f : A → Eff S B) s a s' :
  m s = (Ret a, s') → (m ≫= f) s = f a s'.
Proof. intros Hm. unfold mbind, Eff_bind. by rewrite Hm. Qed.

Lemma bind_raise {A B} (m : Eff S A) (f : A → Eff S B) s e s' :
  m s = (Raise e, s') → (m ≫= f) s = (Raise e, s').
Proof. intros Hm. unfold mbind, Eff_bind. by rewrite Hm. Qed.

Lemma bind_assoc {A B C} (m : Eff S A) (f : A → Eff S B) (g : B → Eff S C) s :
  ((m ≫= f) ≫= g) s = (m ≫= (λ a, f a ≫= g)) s.
Proof. unfold mbind, Eff_bind. by destruct (m s) as [[a|e] s']. Qed.

Lemma bind_ext {A B} (m : Eff S A) (f g : A → Eff S B) s :
  (∀ a s', f a s' = g a s') → (m ≫= f) s = (m ≫= g) s.
Proof. intros E. unfold mbind, Eff_bind. destruct (m s) as [[a|e] s']; auto. Qed.

End monad_laws.

(** Unfold the plumbing of the monad, leaving the calls of the code. *)
Ltac eff_unfold :=
  unfold mbind, Eff_bind, mret, Eff_ret, self, set_self, the_stack, in_world,
    gets, modify, raise, assert, deref in *.

Section push_phases.
Context `{G : GitProcess}.

(** [push_patch] is its two phases in sequence. *)
Lemma push_patch_phases pn iw s :
  push_patch pn iw s = (push_merge pn iw ≫= push_finish pn) s.
Proof.
  unfold push_patch, push_merge.
  repeat (rewrite bind_assoc; apply bind_ext; intros).
  match goal with x : (Tree * string * bool)%type |- _ => by destruct x as [[? ?] ?] end.
Qed.

End push_phases.

(** ** The three-way merge in the index *)

Section index_merge.
Context `{G : GitProcess}.

Lemma tree_eqb_eq a b : tree_eqb a b = true ↔ a = b.
Proof.
  unfold tree_eqb. rewrite String.eqb_eq. destruct a, b; simpl.
  split; [intros ->|intros [= ->]]; done.
Qed.

Lemma tree_eqb_refl a : tree_eqb a a = true.
Proof. by apply tree_eqb_eq. Qed.

Lemma tree_eqb_neq a b : tree_eqb a b = false ↔ a ≠ b.
Proof. rewrite <-tree_eqb_eq. by destruct (tree_eqb a b). Qed.

(** C4: in each of the trivial cases of [Index.merge] (base is ours, base is
    theirs, ours is theirs) the result is theirs, ours and ours
    respectively, the index-tree hint is passed through unchanged, and the
    world is left as it was: no Git subprocess runs, so no [read-tree]. *)
Theorem merge_trivial_cases ix base ours theirs current w :
  (base = ours →
     Index.merge ix base ours theirs current w = (Ret (Some theirs, current), w))
  ∧ (base = theirs →
     Index.merge ix base ours theirs current w = (Ret (Some ours, current), w))
  ∧ (ours = theirs →
     Index.merge ix base ours theirs current w = (Ret (Some ours, current), w)
     ∧ ∀ w' o t, Index.merge ix base ours theirs current w = (o, w') →
         ReadTree ix t ∉ new_events w w').
Proof.
  unfold Index.merge. split_and!.
  - intros ->. by rewrite tree_eqb_refl.
  - intros ->. destruct (tree_eqb theirs ours) eqn:E.
    + apply tree_eqb_eq in E as ->. done.
    + by rewrite tree_eqb_refl.
  - intros ->. rewrite tree_eqb_refl.
    split.
    + by destruct (tree_eqb base theirs).
    + intros w' o t Hm.
      assert (w' = w) as ->.
      { destruct (tree_eqb base theirs); by inversion Hm. }
      unfold new_events. rewrite drop_all. apply not_elem_of_nil.
Qed.

End index_merge.

Lemma merge_trivial_cases_witness :
  let merge := Index.merge (G := sample.conflicting_git) (mkIndex "index.temp") in
  merge sample.T0 sample.T0 sample.Ta None sample.the_world
    = (Ret (Some sample.Ta, None), sample.the_world)
  ∧ merge sample.T0 sample.Ta sample.T0 (Some sample.Tb) sample.the_world
    = (Ret (Some sample.Ta, Some sample.Tb), sample.the_world)
  ∧ merge sample.T0 sample.Ta sample.Ta None sample.the_world
    = (Ret (Some sample.Ta, None), sample.the_world).
Proof.
  split_and!.
  - exact (proj1 (merge_trivial_cases _ _ _ _ _ _) eq_refl).
  - exact (proj1 (proj2 (merge_trivial_cases _ _ _ _ _ _)) eq_refl).
  - exact (proj1 (proj2 (proj2 (merge_trivial_cases _ _ _ _ _ _)) eq_refl)).
Defined.

(** ** Popping patches *)

Section pop.
Context `{G : GitProcess}.

Lemma cut_at_first_Some p (l : list string) i pn :
  l !! i = Some pn → p pn = true →
  (∀ j y, l !! j = Some y → (j < i)%nat → p y = false) →
  cut_at_first p l = (take i l, drop i l).
Proof.
  intros Hi Hp Hlow. unfold cut_at_first.
  assert (list_find (λ pn, Is_true (p pn)) l = Some (i, pn)) as ->; [|done].
  apply list_find_Some. split_and!; [done|by rewrite Hp|].
  intros j y Hj Hlt. rewrite (Hlow j y Hj Hlt). simpl. tauto.
Qed.

Lemma cut_at_first_None p (l : list string) :
  (∀ pn, pn ∈ l → p pn = false) → cut_at_first p l = (l, []).
Proof.
  intros Hno. unfold cut_at_first.
  assert (list_find (λ pn, Is_true (p pn)) l = None) as ->; [|done].
  apply list_find_None, Forall_forall. intros x Hx. rewrite (Hno x Hx). simpl. tauto.
Qed.

(** The cut always splits [applied] in two. *)
Lemma cut_at_first_app p (l : list string) :
  (cut_at_first p l).1 ++ (cut_at_first p l).2 = l.
Proof.
  unfold cut_at_first. destruct (list_find _ l) as [[i x]|]; simpl.
  - apply take_drop.
  - apply app_nil_r.
Qed.

Lemma cut_at_first_kept p (l : list string) pn :
  pn ∈ (cut_at_first p l).1 → p pn = false.
Proof.
  unfold cut_at_first. destruct (list_find _ l) as [[i x]|] eqn:E; simpl.
  - apply list_find_Some in E as (_ & _ & Hlow).
    intros (j & Hj)%list_elem_of_lookup_1.
    apply lookup_take_Some in Hj as [Hj Hlt].
    specialize (Hlow j pn Hj Hlt). by destruct (p pn).
  - apply list_find_None in E. rewrite Forall_forall in E.
    intros Hin. specialize (E pn Hin). by destruct (p pn).
Qed.

Lemma print_popped_ret popped w :
  ∃ evs, __print_popped popped w = (Ret tt, mkWorld (w_stack w) (w_trace w ++ evs)).
Proof.
  destruct popped as [|a [|b l]]; simpl.
  - exists []. rewrite app_nil_r. by destruct w.
  - by eexists [_].
  - by eexists [_].
Qed.

(** What [pop_patches] does, in one equation. *)
Lemma pop_patches_eq p t w :
  let '(kept, popped) := cut_at_first p (applied t) in
  let popped1 := filter (λ pn, Is_true (negb (p pn))) popped in
  let popped2 := filter (λ pn, Is_true (p pn)) popped in
  ∃ evs,
    pop_patches p (t, w)
    = (Ret popped1,
       (with_unapplied (λ u, popped1 ++ popped2 ++ u) (with_applied (λ _, kept) t),
        mkWorld (w_stack w) (w_trace w ++ evs))).
Proof.
  unfold pop_patches. destruct (cut_at_first p (applied t)) as [kept popped] eqn:E.
  eff_unfold. cbn [fst snd]. rewrite E. cbn [fst snd].
  destruct (print_popped_ret popped w) as [evs ->]. by exists evs.
Qed.

(** C3: [pop_patches p] cuts [applied] at the lowest index [i] whose patch
    satisfies [p], puts the popped patches in front of [unapplied], those
    that do not satisfy [p] first and those that do after them, each group
    in its order, and returns the former; when no applied patch satisfies
    [p] the transaction and the world are left as they were and the empty
    list is returned; in every case it returns normally. *)
Theorem pop_patches_spec p t w :
  (∀ i pn,
     applied t !! i = Some pn → p pn = true →
     (∀ j y, applied t !! j = Some y → (j < i)%nat → p y = false) →
     let popped := drop i (applied t) in
     let popped_no := filter (λ x, p x = false) popped in
     let popped_yes := filter (λ x, p x = true) popped in
     ∃ t' w',
       pop_patches p (t, w) = (Ret popped_no, (t', w'))
       ∧ applied t' = take i (applied t)
       ∧ unapplied t' = popped_no ++ popped_yes ++ unapplied t
       ∧ hidden t' = hidden t
       ∧ patches t' = patches t
       ∧ w_stack w' = w_stack w)
  ∧ ((∀ pn, pn ∈ applied t → p pn = false) →
     pop_patches p (t, w) = (Ret [], (t, w)))
  ∧ (∃ r s', pop_patches p (t, w) = (Ret r, s')).
Proof.
  pose proof (pop_patches_eq p t w) as Heq.
  split_and!.
  - intros i pn Hi Hp Hlow popped popped_no popped_yes.
    rewrite (cut_at_first_Some p _ i pn Hi Hp Hlow) in Heq.
    destruct Heq as [evs Heq].
    assert (E1 : filter (λ pn, Is_true (negb (p pn))) (drop i (applied t)) = popped_no).
    { apply list_filter_iff. intros x. by destruct (p x). }
    assert (E2 : filter (λ pn, Is_true (p pn)) (drop i (applied t)) = popped_yes).
    { apply list_filter_iff. intros x. by destruct (p x). }
    rewrite E1, E2 in Heq. eexists _, _. split; [exact Heq|]. done.
  - intros Hno. clear Heq. unfold pop_patches. eff_unfold. cbn [fst snd].
    rewrite (cut_at_first_None p _ Hno). cbn. by destruct t, w.
  - destruct (cut_at_first p (applied t)) as [kept popped].
    destruct Heq as [evs Heq]. eauto.
Qed.

End pop.

Lemma pop_patches_spec_witness :
  let p := λ pn, String.eqb pn "b" in
  let t := with_applied (λ _, ["a"; "b"; "c"]) (sample.trans "pop") in
  (∃ t' w',
     pop_patches p (t, sample.the_world)
       = (Ret ["c"], (t', w'))
     ∧ applied t' = ["a"]
     ∧ unapplied t' = ["c"; "b"; "p"; "b"]
     ∧ hidden t' = []
     ∧ patches t' = ∅
     ∧ w_stack w' = sample.the_stack)
  ∧ pop_patches (λ _, false) (t, sample.the_world)
    = (Ret [], (t, sample.the_world)).
Proof.
  intros p t. split.
  - refine (proj1 (pop_patches_spec p t sample.the_world) 1%nat "b" eq_refl eq_refl _).
    intros [|j] y Hj Hlt; [by injection Hj as <-|lia].
  - exact (proj1 (proj2 (pop_patches_spec (λ _, false) t sample.the_world))
             (λ _ _, eq_refl)).
Defined.

(** ** Construction *)

Section construction.
Context `{G : GitProcess}.

(** C6: constructing a transaction with [allow_bad_head] false on a stack
    whose head and top differ reports the HEAD/top divergence error and
    raises a [TransactionException], with the stack as it was; with
    [allow_bad_head] true, or head and top equal, the transaction is
    built, on the lists of the stack, and nothing happens to the world. *)
Theorem init_head_top m discard ac allow_bad_head w :
  (allow_bad_head = false → head_top_equal (w_stack w) = false →
     ∃ w',
       __init__ m discard ac allow_bad_head w
         = (Raise (TransactionException "Command aborted (all changes rolled back)"), w')
       ∧ w_stack w' = w_stack w
       ∧ w_trace w' = w_trace w ++ [divergence_error])
  ∧ (allow_bad_head = true ∨ head_top_equal (w_stack w) = true →
     ∃ t,
       __init__ m discard ac allow_bad_head w = (Ret t, w)
       ∧ applied t = patchorder_applied (w_stack w)
       ∧ unapplied t = patchorder_unapplied (w_stack w)
       ∧ hidden t = patchorder_hidden (w_stack w)
       ∧ patches t = ∅
       ∧ error t = None
       ∧ conflicting_push t = None).
Proof.
  unfold __init__, __assert_head_top_equal, __abort, out_error, emit.
  split.
  - intros -> Hneq. eff_unfold. cbn. rewrite Hneq. cbn. eauto.
  - intros Hok. eff_unfold. cbn.
    destruct allow_bad_head; cbn.
    + eexists. split; [by destruct w|]. done.
    + destruct Hok as [? | ->]; [done|]. eexists. split; [by destruct w|]. done.
Qed.

End construction.

Lemma init_head_top_witness :
  (∃ w',
     __init__ "push" false (AllowBool false) false sample.diverged_world
       = (Raise (TransactionException "Command aborted (all changes rolled back)"), w')
     ∧ w_stack w' = w_stack sample.diverged_world
     ∧ w_trace w' = [divergence_error])
  ∧ (∃ t,
       __init__ "push" false (AllowBool false) true sample.diverged_world
         = (Ret t, sample.diverged_world)
       ∧ applied t = ["a"] ∧ unapplied t = ["p"; "b"] ∧ hidden t = []
       ∧ patches t = ∅ ∧ error t = None ∧ conflicting_push t = None).
Proof.
  split.
  - exact (proj1 (init_head_top "push" false (AllowBool false) false
                    sample.diverged_world) eq_refl eq_refl).
  - exact (proj2 (init_head_top "push" false (AllowBool false) true
                    sample.diverged_world) (or_introl eq_refl)).
Defined.

(** ** Relations kept by a computation *)

Section preserves.
Context {S : Type} (R : relation S) `{!Reflexive R, !Transitive R}.

Lemma preserves_ret {A} (a : A) : preserves R (mret a).
Proof. intros s. reflexivity. Qed.

Lemma preserves_raise {A} e : preserves R (raise (A := A) e).
Proof. intros s. reflexivity. Qed.

Lemma preserves_gets {A} (f : S → A) : preserves R (gets f).
Proof. intros s. reflexivity. Qed.

Lemma preserves_assert b : preserves R (assert b).
Proof. destruct b; [apply preserves_ret|apply preserves_raise]. Qed.

Lemma preserves_deref {A} (o : option A) : preserves R (deref o).
Proof. destruct o; [apply preserves_ret|apply preserves_raise]. Qed.

Lemma preserves_modify (f : S → S) : (∀ s, R s (f s)) → preserves R (modify f).
Proof. intros Hf s. apply Hf. Qed.

Lemma preserves_bind {A B} (m : Eff S A) (f : A → Eff S B) :
  preserves R m → (∀ a, preserves R (f a)) → preserves R (m ≫= f).
Proof.
  intros Hm Hf s. specialize (Hm s). unfold mbind, Eff_bind.
  destruct (m s) as [[a|e] s1]; simpl in *; [|done].
  etrans; [exact Hm|apply Hf].
Qed.

Lemma preserves_try {A} (m : Eff S A) h :
  preserves R m → (∀ e k, h e = Some k → preserves R k) →
  preserves R (try_except m h).
Proof.
  intros Hm Hh s. specialize (Hm s). unfold try_except.
  destruct (m s) as [[a|e] s1]; simpl in *; [done|].
  destruct (h e) as [k|] eqn:E; [|done].
  etrans; [exact Hm|by apply (Hh e k)].
Qed.

Lemma preserves_for_each {A} (l : list A) (f : A → Eff S unit) :
  (∀ x, preserves R (f x)) → preserves R (for_each l f).
Proof.
  intros Hf. induction l as [|x l IH]; simpl.
  - apply preserves_ret.
  - apply preserves_bind; auto.
Qed.

End preserves.

(** How a computation that keeps a relation ends. *)
Lemma preserves_run {S A} (R : relation S) (m : Eff S A) s o s' :
  preserves R m → m s = (o, s') → R s s'.
Proof. intros Hm E. specialize (Hm s). by rewrite E in Hm. Qed.

Section extends.
Context (RS : relation Stack) (P : Event → Prop).

#[export] Instance extends_refl `{!Reflexive RS} : Reflexive (extends RS P).
Proof. intros w. split; [done|]. exists []. by rewrite app_nil_r. Qed.

#[export] Instance extends_trans `{!Transitive RS} : Transitive (extends RS P).
Proof.
  intros w1 w2 w3 [Hs1 (e1 & Ht1 & HP1)] [Hs2 (e2 & Ht2 & HP2)].
  split; [by etrans|]. exists (e1 ++ e2).
  rewrite Ht2, Ht1, app_assoc. split; [done|]. by apply Forall_app.
Qed.

Lemma extends_emit `{!Reflexive RS} e : P e → preserves (extends RS P) (emit e).
Proof.
  intros He w. split; [done|]. exists [e]. split; [done|]. by apply Forall_singleton.
Qed.

Lemma extends_update_stack `{!Reflexive RS} f :
  (∀ s, RS s (f s)) → preserves (extends RS P) (update_stack f).
Proof.
  intros Hf w. split; [apply Hf|]. exists []. split; [|done]. simpl. by rewrite app_nil_r.
Qed.

End extends.

#[export] Instance any_stack_refl : Reflexive any_stack.
Proof. done. Qed.

#[export] Instance any_stack_trans : Transitive any_stack.
Proof. done. Qed.

#[export] Instance same_head_refl : Reflexive same_head.
Proof. done. Qed.

#[export] Instance same_head_trans : Transitive same_head.
Proof. intros s1 s2 s3 H1 H2. unfold same_head in *. congruence. Qed.

#[export] Instance same_error_refl : Reflexive same_error.
Proof. done. Qed.

#[export] Instance same_error_trans : Transitive same_error.
Proof. intros s1 s2 s3 H1 H2. unfold same_error in *. congruence. Qed.

#[export] Instance same_but_current_tree_refl : Reflexive same_but_current_tree.
Proof. intros t. exists (current_tree t). by destruct t. Qed.

#[export] Instance same_but_current_tree_trans : Transitive same_but_current_tree.
Proof. intros t1 t2 t3 [v1 ->] [v2 ->]. by exists v2. Qed.

#[export] Instance same_staged_refl : Reflexive same_staged.
Proof. intros t. by repeat split. Qed.

#[export] Instance same_staged_trans : Transitive same_staged.
Proof. intros t1 t2 t3 H1 H2. unfold same_staged in *. intuition congruence. Qed.

#[export] Instance both_refl RT RW `{!Reflexive RT, !Reflexive RW} : Reflexive (both RT RW).
Proof. intros s. by split. Qed.

#[export] Instance both_trans RT RW `{!Transitive RT, !Transitive RW} :
  Transitive (both RT RW).
Proof. intros s1 s2 s3 [? ?] [? ?]. split; etrans; eauto. Qed.

Lemma preserves_in_world {A} RT RW `{!Reflexive RT} (m : Eff World A) :
  preserves RW m → preserves (both RT RW) (in_world m).
Proof.
  intros Hm [t w]. specialize (Hm w). unfold in_world. simpl.
  destruct (m w) as [o w']. by split.
Qed.

Lemma preserves_set_self RT RW `{!Reflexive RW} (f : Trans → Trans) :
  (∀ t, RT t (f t)) → preserves (both RT RW) (set_self f).
Proof. intros Hf [t w]. by split. Qed.

(** Walk through a computation, one construct of the code at a time. *)
Create HintDb eff discriminated.
#[export] Hint Unfold
  Index.read_tree Index.write_tree Index.apply_treediff Index.merge
  Index.conflicts Index.except_MergeException
  IndexAndWorktree.checkout_hard IndexAndWorktree.checkout IndexAndWorktree.merge
  Repository.temp_index Repository.commit
  out_info out_error log_external_mods log_entry
  world.set_head patch_delete patch_set_commit patches_new
  __abort __assert_head_top_equal get_temp_index top head __checkout
  __check_consistency abort __halt __print_popped _print_current_patch
  patches_getitem parent except_CheckoutException
  push_merge push_finish update write run run_first_pass run_second_pass : eff.

(** [leaf] shows that an assignment to a field keeps the relation on
    transactions; [special] is tried first. *)
Ltac preserves_step_with leaf special :=
  first [special|
  match goal with
  | |- preserves _ (mret _) => apply preserves_ret; tc_solve
  | |- preserves _ (raise _) => apply preserves_raise; tc_solve
  | |- preserves _ (_ ≫= _) => apply preserves_bind; [tc_solve| |intros ?]
  | |- preserves _ (try_except _ _) =>
      apply preserves_try; [tc_solve| |intros [] ? ?; simplify_eq/=]
  | |- preserves _ (for_each _ _) =>
      apply preserves_for_each; [tc_solve..|intros ?; cbv beta]
  | |- preserves _ (gets _) => apply preserves_gets; tc_solve
  | |- preserves _ (self _) => apply preserves_gets; tc_solve
  | |- preserves _ (the_stack _) => apply preserves_gets; tc_solve
  | |- preserves _ history => apply preserves_gets; tc_solve
  | |- preserves _ (assert _) => apply preserves_assert; tc_solve
  | |- preserves _ (deref _) => apply preserves_deref; tc_solve
  | |- preserves _ (in_world _) => apply preserves_in_world; [tc_solve|]
  | |- preserves _ (emit _) => apply extends_emit; [tc_solve|exact I]
  | |- preserves _ (update_stack _) =>
      apply extends_update_stack; [tc_solve|intros ?; by repeat split]
  | |- preserves _ (set_self _) =>
      apply preserves_set_self;
        [tc_solve|intros ?; leaf]
  | |- preserves _ (match ?x with _ => _ end) =>
      lazymatch x with
      | true => cbv iota
      | false => cbv iota
      | _ => destruct x
      end
  | |- preserves _ _ => progress autounfold with eff
  end].

Ltac preserves_step :=
  preserves_step_with ltac:(first [by repeat split|by eexists]) ltac:(fail).

Ltac preserves_auto := repeat preserves_step.

Section push_merge_frame.
Context `{G : GitProcess}.

(** Until the tree of the pushed patch is known, [push_patch] leaves the
    staged stack and the live stack alone and creates no commit. *)
Lemma push_merge_preserves pn iw :
  preserves (both same_staged (extends eq merge_event)) (push_merge pn iw).
Proof. preserves_auto. Qed.

End push_merge_frame.

(** ** Pushing a patch *)

(** Take the next call of the code, which returns as [tac] shows. *)
Ltac eff_ret tac := erewrite bind_ret; [|tac]; cbv beta.
Ltac eff_pure := eff_ret ltac:(reflexivity).

Section push.
Context `{G : GitProcess}.

Lemma parent_set_committer {S} cd p c :
  parents cd = [p] → parent (S := S) (set_committer cd c) = mret p.
Proof. intros Hp. unfold parent. simpl. by rewrite Hp. Qed.

Lemma get_temp_index_preserves :
  preserves (both same_staged (extends eq merge_event)) get_temp_index.
Proof. preserves_auto. Qed.

Lemma index_merge_preserves ix base ours theirs current :
  preserves (extends eq merge_event) (Index.merge ix base ours theirs current).
Proof. preserves_auto. Qed.

(** C5: when the merge in the temporary index gives no tree and no index and
    worktree were given, [push_patch pn] halts the transaction with the
    message "<pn> does not apply cleanly", and the staged lists applied,
    unapplied and hidden and the override map are what they were before the
    call; so is the live stack. *)
Theorem push_patch_does_not_apply pn t w c oldparent newparent ix t1 w1 hint w2 :
  patches_getitem pn (t, w) = (Ret (Some c), (t, w)) →
  parents (data c) = [oldparent] →
  top (t, w) = (Ret (Some newparent), (t, w)) →
  get_temp_index (t, w) = (Ret ix, (t1, w1)) →
  Index.merge ix (tree (data oldparent)) (tree (data newparent)) (tree (data c))
    (temp_index_tree t1) w1 = (Ret (None, hint), w2) →
  ∃ t',
    push_patch pn None (t, w)
      = (Raise (TransactionHalted (pn +:+ " does not apply cleanly")), (t', w2))
    ∧ error t' = Some (pn +:+ " does not apply cleanly")
    ∧ applied t' = applied t ∧ unapplied t' = unapplied t ∧ hidden t' = hidden t
    ∧ patches t' = patches t
    ∧ w_stack w2 = w_stack w.
Proof.
  intros Hget Hpar Htop Hix Hmerge.
  exists (with_error (Some (pn +:+ " does not apply cleanly"))
            (with_temp_index_tree hint t1)).
  destruct (preserves_run _ _ _ _ _ get_temp_index_preserves Hix)
    as [(Ha & Hu & Hh & Hp & _) [Hs1 _]].
  destruct (preserves_run _ _ _ _ _ (index_merge_preserves _ _ _ _ _) Hmerge)
    as [Hs2 _].
  simpl in *. split_and!; [|done..|congruence].
  unfold push_patch.
  eff_ret ltac:(exact Hget). eff_pure.
  rewrite (parent_set_committer _ _ _ Hpar). eff_pure.
  eff_ret ltac:(exact Htop). eff_pure.
  eff_ret ltac:(exact Hix). eff_pure.
  change (tree (set_parent (set_committer (data c) None) newparent))
    with (tree (data c)).
  eff_ret ltac:(unfold in_world; cbn [fst snd]; rewrite Hmerge; reflexivity).
  eff_pure. cbn [fst snd].
  by erewrite bind_raise.
Qed.

Lemma checkout_preserves tree iw allow_bad_head :
  preserves (both same_staged (extends eq merge_event))
    (__checkout tree iw allow_bad_head).
Proof. preserves_auto. Qed.

(** [Index.merge] fails only on trees that are pairwise different. *)
Lemma index_merge_None ix base ours theirs current w hint w' :
  Index.merge ix base ours theirs current w = (Ret (None, hint), w') →
  base ≠ ours ∧ base ≠ theirs ∧ ours ≠ theirs.
Proof.
  unfold Index.merge. intros Hm.
  destruct (tree_eqb base ours) eqn:E1; [by inversion Hm|].
  destruct (tree_eqb base theirs) eqn:E2; [by inversion Hm|].
  destruct (tree_eqb ours theirs) eqn:E3; [by inversion Hm|].
  by rewrite <-!tree_eqb_neq.
Qed.

Lemma changed_tree cd orig_cd :
  tree cd ≠ tree orig_cd → changed cd orig_cd = true.
Proof.
  intros Hne%tree_eqb_neq. unfold changed. rewrite Hne. simpl.
  by rewrite orb_true_r.
Qed.

(** C2: when the merge in the temporary index gives no tree and the merge
    in the given index and worktree conflicts, the commit data of the patch
    gets the tree ours, the tree of the new parent; [allow_conflicts]
    becomes the constant true; the new commit and the move into applied are
    kept in [conflicting_push], the staged lists and the override map being
    left as they were; and the transaction halts with "Merge conflict". *)
Theorem push_patch_conflict pn iw t w c oldparent newparent ix t1 w1 hint w2
    t3 w3 conflicts w4 :
  patches_getitem pn (t, w) = (Ret (Some c), (t, w)) →
  parents (data c) = [oldparent] →
  top (t, w) = (Ret (Some newparent), (t, w)) →
  get_temp_index (t, w) = (Ret ix, (t1, w1)) →
  let base := tree (data oldparent) in
  let ours := tree (data newparent) in
  let theirs := tree (data c) in
  Index.merge ix base ours theirs (temp_index_tree t1) w1 = (Ret (None, hint), w2) →
  __checkout ours (Some iw) false (with_temp_index_tree hint t1, w2)
    = (Ret tt, (t3, w3)) →
  IndexAndWorktree.merge iw base ours theirs w3
    = (Raise (MergeConflictException conflicts), w4) →
  let cd := set_tree (set_parent (set_committer (data c) None) newparent) ours in
  let comm := git_commit_tree (w_trace w4) cd in
  ∃ t',
    push_patch pn (Some iw) (t, w)
      = (Raise (TransactionHalted "Merge conflict"),
         (t', mkWorld (w_stack w4)
                (w_trace w4 ++ [CommitTree cd;
                                OutInfo ("Pushed " +:+ pn +:+ " (conflict)")])))
    ∧ tree cd = tree (data newparent)
    ∧ tree cd ≠ tree (data c)
    ∧ allow_conflicts t' = (λ _ _, true)
    ∧ conflicting_push t' = Some (pn, Some comm)
    ∧ applied t' = applied t ∧ unapplied t' = unapplied t ∧ hidden t' = hidden t
    ∧ patches t' = patches t
    ∧ error t' = Some "Merge conflict".
Proof.
  intros Hget Hpar Htop Hix base ours theirs Hmerge Hco Hiw cd comm.
  exists (with_error (Some "Merge conflict")
            (with_conflicting_push (Some (pn, Some comm))
               (with_allow_conflicts (λ _ _, true) t3))).
  destruct (preserves_run _ _ _ _ _ get_temp_index_preserves Hix)
    as [(Ha & Hu & Hh & Hp & _) _].
  destruct (preserves_run _ _ _ _ _ (checkout_preserves _ _ _) Hco)
    as [(Ha' & Hu' & Hh' & Hp' & _) _].
  destruct (index_merge_None _ _ _ _ _ _ _ _ Hmerge) as (_ & _ & Hne).
  simpl in *. split_and!; [|done..|congruence|congruence|congruence|congruence|done].
  unfold push_patch.
  eff_ret ltac:(exact Hget). eff_pure.
  rewrite (parent_set_committer _ _ _ Hpar). eff_pure.
  eff_ret ltac:(exact Htop). eff_pure.
  eff_ret ltac:(exact Hix). eff_pure.
  change (tree (set_parent (set_committer (data c) None) newparent)) with theirs.
  eff_ret ltac:(unfold in_world; cbn [fst snd]; fold base ours; rewrite Hmerge;
                reflexivity).
  eff_pure. cbn [fst snd].
  eff_ret ltac:(
    eff_ret ltac:(unfold try_except, modify; cbn [fst snd]; fold ours; rewrite Hco;
                  reflexivity);
    unfold try_except;
    erewrite bind_raise
      by (unfold in_world; cbn [fst snd]; fold base ours; rewrite Hiw; reflexivity);
    reflexivity).
  cbn iota beta.
  change (set_tree (set_parent (set_committer (data c) None) newparent)
            (tree (data newparent))) with cd.
  rewrite (changed_tree cd (data c)) by done.
  unfold Repository.commit, out_info, emit, history, __halt. eff_unfold.
  cbn [fst snd w_stack w_trace negb andb]. by rewrite <-app_assoc.
Qed.

Lemma new_events_app w w' evs :
  w_trace w' = w_trace w ++ evs → new_events w w' = evs.
Proof. intros E. unfold new_events. by rewrite E, drop_app_length. Qed.

Lemma commit_trees_merge_events evs :
  Forall merge_event evs → commit_trees evs = [].
Proof.
  induction 1 as [|e evs He _ IH]; [done|].
  destruct e; try done; exact IH.
Qed.

Lemma commit_trees_app evs1 evs2 :
  commit_trees (evs1 ++ evs2) = commit_trees evs1 ++ commit_trees evs2.
Proof. unfold commit_trees. apply omap_app. Qed.

Lemma ostring_eqb_eq a b : ostring_eqb a b = true ↔ a = b.
Proof.
  destruct a, b; simpl; try (split; (done || congruence)).
  rewrite String.eqb_eq. split; congruence.
Qed.

Lemma person_eqb_eq p q : person_eqb p q = true ↔ p = q.
Proof.
  unfold person_eqb. rewrite !andb_true_iff, !ostring_eqb_eq.
  destruct p, q; simpl. split; [intros [[-> ->] ->]|intros [= -> -> ->]]; done.
Qed.

Lemma operson_eqb_eq p q : operson_eqb p q = true ↔ p = q.
Proof.
  destruct p, q; simpl; try (split; (done || congruence)).
  rewrite person_eqb_eq. split; congruence.
Qed.

Lemma ocommit_eqb_eq a b : ocommit_eqb a b = true ↔ sha1 <$> a = sha1 <$> b.
Proof.
  destruct a, b; simpl; try (split; (done || congruence)).
  unfold commit_eqb. rewrite String.eqb_eq. split; congruence.
Qed.

(** The test of [push_patch] is the comparison of the four fields. *)
Lemma changed_differs cd orig_cd : changed cd orig_cd = true ↔ differs cd orig_cd.
Proof.
  unfold changed, differs.
  rewrite !orb_true_iff, !negb_true_iff, <-!not_true_iff_false.
  rewrite ocommit_eqb_eq, tree_eqb_eq, operson_eqb_eq, String.eqb_eq. tauto.
Qed.

(** [update] works on the transaction only. *)
Lemma update_world pn comm t w : (update pn comm (t, w)).2.2 = w.
Proof.
  unfold update. eff_unfold.
  destruct comm; cbn [fst snd]; repeat case_match; by simplify_eq/=.
Qed.

Lemma update_None_patches pn t w :
  patches (update pn None (t, w)).2.1 = patches t.
Proof.
  unfold update. eff_unfold. cbn [fst snd]. repeat case_match; by simplify_eq/=.
Qed.

(** The second phase of [push_patch]: the events it adds, and the override
    map when no commit is made. *)
Lemma push_finish_events pn orig_cd cd s conflict t1 w1 :
  let info :=
    "Pushed " +:+ pn +:+
      (if negb conflict && is_nochange cd then " (empty)"
       else if changed cd orig_cd then s else " (unmodified)") in
  ∃ o t2,
    push_finish pn (orig_cd, cd, s, conflict) (t1, w1)
      = (o, (t2, mkWorld (w_stack w1)
                   (w_trace w1 ++ (if changed cd orig_cd then [CommitTree cd] else [])
                      ++ [OutInfo info])))
    ∧ (changed cd orig_cd = false → patches t2 = patches t1).
Proof.
  unfold push_finish, Repository.commit, out_info, emit, history, __halt.
  destruct (changed cd orig_cd); eff_unfold; cbn [fst snd w_stack w_trace];
    rewrite <-?app_assoc.
  - destruct conflict.
    + by eexists _, _.
    + match goal with |- context [update pn ?c (?t, ?w)] =>
        pose proof (update_world pn c t w) as Hw;
        destruct (update pn c (t, w)) as [o [t2 w2]] end.
      simpl in Hw. subst w2. by eexists _, _.
  - destruct conflict.
    + by eexists _, _.
    + match goal with |- context [update pn ?c (?t, ?w)] =>
        pose proof (update_world pn c t w) as Hw;
        pose proof (update_None_patches pn t w) as Hp;
        destruct (update pn c (t, w)) as [o [t2 w2]] end.
      simpl in Hw, Hp. subst w2. by eexists _, _.
Qed.

(** What [push_merge] returns: the data of the commit of the patch, and the
    same data on top of the new parent, with a new tree. *)
Lemma push_merge_ret pn iw t w orig_cd cd s conflict s1 :
  push_merge pn iw (t, w) = (Ret (orig_cd, cd, s, conflict), s1) →
  ∃ c newparent,
    patches_getitem pn (t, w) = (Ret (Some c), (t, w))
    ∧ top (t, w) = (Ret (Some newparent), (t, w))
    ∧ orig_cd = data c
    ∧ parents cd = [newparent]
    ∧ author cd = author orig_cd
    ∧ message cd = message orig_cd
    ∧ committer cd = None.
Proof.
  unfold push_merge. intros Hrun.
  assert (Hget : ∃ o, patches_getitem pn (t, w) = (o, (t, w))).
  { unfold patches_getitem. eff_unfold. cbn [fst snd]. repeat case_match; eauto. }
  destruct Hget as [[[c|]|e] Hget];
    [|rewrite (bind_ret _ _ _ _ _ Hget) in Hrun;
      by erewrite bind_raise in Hrun by reflexivity
     |by rewrite (bind_raise _ _ _ _ _ Hget) in Hrun].
  rewrite (bind_ret _ _ _ _ _ Hget) in Hrun.
  erewrite bind_ret in Hrun by reflexivity.
  unfold parent at 1 in Hrun. simpl parents in Hrun.
  destruct (parents (data c)) as [|oldparent [|? ?]] eqn:Hpar;
    [by erewrite bind_raise in Hrun by reflexivity|
     |by erewrite bind_raise in Hrun by reflexivity].
  erewrite bind_ret in Hrun by reflexivity.
  assert (Htop : ∃ o, top (t, w) = (o, (t, w))).
  { unfold top, patches_getitem. eff_unfold. cbn [fst snd]. repeat case_match; eauto. }
  destruct Htop as [[[newparent|]|e] Htop];
    [|rewrite (bind_ret _ _ _ _ _ Htop) in Hrun;
      by erewrite bind_raise in Hrun by reflexivity
     |by rewrite (bind_raise _ _ _ _ _ Htop) in Hrun].
  rewrite (bind_ret _ _ _ _ _ Htop) in Hrun.
  erewrite bind_ret in Hrun by reflexivity.
  exists c, newparent. split; [done|]. split; [done|].
  repeat (unfold mbind at 1, Eff_bind in Hrun;
          match type of Hrun with
          | context [match ?m ?s with _ => _ end] =>
              destruct (m s) as [[?|?] ?]; [|by inversion Hrun]
          end).
  match type of Hrun with
  | context [match ?x with _ => _ end] => destruct x as [[? ?] ?]
  end.
  inversion Hrun; subst. done.
Qed.

(** C7: [push_patch] creates a commit object if and only if parent, tree,
    author or message of the pushed patch is not that of its original commit
    data; when all four are the same no commit object is created and the
    override map is left as it was.  A push that ends before the tree of
    the patch is known (the patch does not apply, the worktree is dirty)
    creates no commit either and records none. *)
Theorem push_patch_commit_iff pn iw t w :
  (∀ e s1,
     push_merge pn iw (t, w) = (Raise e, s1) →
     push_patch pn iw (t, w) = (Raise e, s1)
     ∧ commit_trees (new_events w s1.2) = []
     ∧ patches s1.1 = patches t)
  ∧ (∀ orig_cd cd s conflict s1,
       push_merge pn iw (t, w) = (Ret (orig_cd, cd, s, conflict), s1) →
       (∃ c newparent,
          patches_getitem pn (t, w) = (Ret (Some c), (t, w))
          ∧ top (t, w) = (Ret (Some newparent), (t, w))
          ∧ orig_cd = data c
          ∧ parents cd = [newparent]
          ∧ author cd = author orig_cd
          ∧ message cd = message orig_cd)
       ∧ ∃ o t2 w2,
           push_patch pn iw (t, w) = (o, (t2, w2))
           ∧ (differs cd orig_cd ↔ commit_trees (new_events w w2) = [cd])
           ∧ (¬ differs cd orig_cd →
                commit_trees (new_events w w2) = [] ∧ patches t2 = patches t)).
Proof.
  split.
  - intros e [t1 w1] Hm.
    rewrite push_patch_phases, (bind_raise _ _ _ _ _ Hm). split; [done|].
    destruct (preserves_run _ _ _ _ _ (push_merge_preserves pn iw) Hm)
      as [(_ & _ & _ & Hp & _) [_ (evs & Htr & Hev)]].
    simpl in *. rewrite (new_events_app _ _ _ Htr).
    split; [by apply commit_trees_merge_events|done].
  - intros orig_cd cd s conflict [t1 w1] Hm.
    destruct (push_merge_ret _ _ _ _ _ _ _ _ _ Hm)
      as (c & np & Hget & Htop & Ho & Hpar & Hau & Hmsg & _).
    split; [by eauto 10|].
    destruct (preserves_run _ _ _ _ _ (push_merge_preserves pn iw) Hm)
      as [(_ & _ & _ & Hp & _) [_ (evs & Htr & Hev)]].
    destruct (push_finish_events pn orig_cd cd s conflict t1 w1)
      as (o & t2 & Hf & Hpatches).
    simpl in *. eexists o, t2, _.
    rewrite push_patch_phases, (bind_ret _ _ _ _ _ Hm).
    split; [exact Hf|].
    erewrite new_events_app; [|simpl; rewrite Htr, <-app_assoc; reflexivity].
    rewrite !commit_trees_app, (commit_trees_merge_events _ Hev).
    rewrite <-changed_differs.
    destruct (changed cd orig_cd); simpl.
    + split; [done|]. intros []. done.
    + split; [split; [done|by intros [=]]|]. intros _. split; [done|].
      rewrite Hpatches; done.
Qed.

End push.

Lemma push_patch_does_not_apply_witness :
  ∃ t' w',
    push_patch (G := sample.conflicting_git) "b" None
        (sample.trans "push", sample.the_world)
      = (Raise (TransactionHalted "b does not apply cleanly"), (t', w'))
    ∧ error t' = Some "b does not apply cleanly"
    ∧ applied t' = ["a"] ∧ unapplied t' = ["p"; "b"] ∧ hidden t' = []
    ∧ patches t' = ∅
    ∧ w_stack w' = sample.the_stack.
Proof.
  set (ix := mkIndex ".git/index.temp-1-a").
  destruct (push_patch_does_not_apply (G := sample.conflicting_git)
              "b" (sample.trans "push") sample.the_world
              sample.CB sample.C0 sample.CA ix
              (with_temp_index (Some ix) (sample.trans "push"))
              (mkWorld sample.the_stack [TempIndex ix])
              (Some sample.Ta)
              (mkWorld sample.the_stack
                 [TempIndex ix; ReadTree ix sample.Ta;
                  ApplyTreediff ix sample.T0 sample.Tb]))
    as (t' & Hrun & Hrest);
    [vm_compute; reflexivity..|].
  by exists t', (mkWorld sample.the_stack
                  [TempIndex ix; ReadTree ix sample.Ta;
                   ApplyTreediff ix sample.T0 sample.Tb]).
Defined.

Lemma push_patch_conflict_witness :
  ∃ t' w',
    push_patch (G := sample.conflicting_git) "b" (Some sample.iw)
        (sample.trans "push", sample.the_world)
      = (Raise (TransactionHalted "Merge conflict"), (t', w'))
    ∧ conflicting_push t'
      = Some ("b", Some (mkCommit "new-b"
                           (mkCommitData sample.Ta [sample.CA] None None "b")))
    ∧ allow_conflicts t' = (λ _ _, true)
    ∧ applied t' = ["a"] ∧ unapplied t' = ["p"; "b"] ∧ hidden t' = []
    ∧ patches t' = ∅
    ∧ error t' = Some "Merge conflict".
Proof.
  set (ix := mkIndex ".git/index.temp-1-a").
  set (t1 := with_temp_index (Some ix) (sample.trans "push")).
  set (e2 := [TempIndex ix; ReadTree ix sample.Ta;
              ApplyTreediff ix sample.T0 sample.Tb]).
  set (e3 := e2 ++ [LsFilesUnmerged (iw_index sample.iw)]).
  set (e4 := e3 ++ [MergeRecursive sample.iw sample.T0 sample.Ta sample.Tb]).
  destruct (push_patch_conflict (G := sample.conflicting_git)
              "b" sample.iw (sample.trans "push") sample.the_world
              sample.CB sample.C0 sample.CA ix
              t1 (mkWorld sample.the_stack [TempIndex ix])
              (Some sample.Ta) (mkWorld sample.the_stack e2)
              (with_temp_index_tree (Some sample.Ta) t1)
              (mkWorld sample.the_stack e3)
              ["CONFLICT (content): f"] (mkWorld sample.the_stack e4))
    as (t' & Hrun & _ & _ & Hallow & Hcp & Hlists);
    [vm_compute; reflexivity..|].
  exists t'. eexists. split; [exact Hrun|]. split; [exact Hcp|]. split; [exact Hallow|].
  exact Hlists.
Defined.

Lemma push_patch_commit_iff_witness :
  let G := sample.conflicting_git in
  (* pushing [p] on top of [a]: the parent differs, one commit *)
  (∃ o t2 w2,
     push_patch "p" None (sample.trans "push", sample.the_world) = (o, (t2, w2))
     ∧ commit_trees (new_events sample.the_world w2)
       = [mkCommitData sample.Ta [sample.CA] None None "p"])
  (* pushing [a] back on the base: nothing differs, no commit *)
  ∧ (∃ o t2 w2,
       push_patch "a" None (sample.popped_trans "push", sample.the_world)
         = (o, (t2, w2))
       ∧ commit_trees (new_events sample.the_world w2) = []
       ∧ patches t2 = ∅)
  (* pushing [b] on top of [a]: it does not apply, no commit *)
  ∧ (∃ s1,
       push_patch "b" None (sample.trans "push", sample.the_world)
         = (Raise (TransactionHalted "b does not apply cleanly"), s1)
       ∧ commit_trees (new_events sample.the_world s1.2) = []
       ∧ patches s1.1 = ∅).
Proof.
  intros G. split_and!.
  - edestruct (proj2 (push_patch_commit_iff (G := G) "p" None
                        (sample.trans "push") sample.the_world))
      as (_ & o & t2 & w2 & Hrun & Hiff & _); [vm_compute; reflexivity|].
    exists o, t2, w2. split; [exact Hrun|].
    apply Hiff. left. simpl. discriminate.
  - edestruct (proj2 (push_patch_commit_iff (G := G) "a" None
                        (sample.popped_trans "push") sample.the_world))
      as (_ & o & t2 & w2 & Hrun & _ & Hnot); [vm_compute; reflexivity|].
    exists o, t2, w2. split; [exact Hrun|].
    apply Hnot. intros [Hd|[Hd|[Hd|Hd]]]; by apply Hd.
  - edestruct (proj1 (push_patch_commit_iff (G := G) "b" None
                        (sample.trans "push") sample.the_world))
      as (Hrun & Hev & Hp); [vm_compute; reflexivity|].
    eexists. split; [exact Hrun|]. split; [exact Hev|exact Hp].
Defined.

(** ** Pushing a patch that brings no change *)

Section push_no_change.
Context `{G : GitProcess}.

Lemma index_merge_same ix base t current w :
  Index.merge ix base t t current w = (Ret (Some t, current), w).
Proof.
  unfold Index.merge. rewrite tree_eqb_refl.
  destruct (tree_eqb base t); reflexivity.
Qed.

Lemma get_temp_index_ret t w :
  ∃ ix t1 w1, get_temp_index (t, w) = (Ret ix, (t1, w1)).
Proof.
  unfold get_temp_index, Repository.temp_index, emit, history. eff_unfold.
  cbn [fst snd]. destruct (temp_index t); eauto.
Qed.

(** C8, as the code has it: a push of a patch whose tree (theirs) is the tree
    of its new parent (ours) reports the patch as "(empty)"; it creates no
    commit object when the new parent is the parent the patch already had,
    and otherwise exactly one, the commit of the same tree on the new
    parent. *)
Theorem push_same_tree pn iw t w c oldparent newparent :
  patches_getitem pn (t, w) = (Ret (Some c), (t, w)) →
  parents (data c) = [oldparent] →
  top (t, w) = (Ret (Some newparent), (t, w)) →
  tree (data c) = tree (data newparent) →
  let cd := set_parent (set_committer (data c) None) newparent in
  ∃ o t2 w2 evs,
    push_patch pn iw (t, w) = (o, (t2, w2))
    ∧ new_events w w2 = evs ++ [OutInfo ("Pushed " +:+ pn +:+ " (empty)")]
    ∧ commit_trees evs = (if commit_eqb newparent oldparent then [] else [cd])
    ∧ is_nochange cd = true
    ∧ tree cd = tree (data c).
Proof.
  intros Hget Hpar Htop Htree cd.
  destruct (get_temp_index_ret t w) as (ix & t1 & w1 & Hix).
  destruct (preserves_run _ _ _ _ _ get_temp_index_preserves Hix)
    as [_ [_ (evs & Htr & Hev)]].
  simpl in *.
  assert (Hcd : set_tree cd (tree (data newparent)) = cd).
  { unfold cd, set_tree. simpl. by rewrite <-Htree. }
  assert (Hm : push_merge pn iw (t, w)
    = (Ret (data c, cd, EmptyString, false),
       (with_temp_index_tree (temp_index_tree t1) t1, w1))).
  { unfold push_merge.
    eff_ret ltac:(exact Hget). eff_pure.
    rewrite (parent_set_committer _ _ _ Hpar). eff_pure.
    eff_ret ltac:(exact Htop). eff_pure.
    eff_ret ltac:(exact Hix). eff_pure.
    change (tree (set_parent (set_committer (data c) None) newparent))
      with (tree (data c)).
    rewrite Htree.
    eff_ret ltac:(unfold in_world; cbn [fst snd]; rewrite index_merge_same;
                  reflexivity).
    eff_pure. cbn [fst snd]. eff_pure. cbn iota beta. fold cd. by rewrite Hcd. }
  assert (Hno : is_nochange cd = true).
  { unfold is_nochange, cd. simpl. rewrite Htree. apply tree_eqb_refl. }
  assert (Hch : changed cd (data c) = negb (commit_eqb newparent oldparent)).
  { unfold changed, the_parent, cd. simpl. rewrite Hpar. simpl.
    rewrite tree_eqb_refl.
    assert (operson_eqb (author (data c)) (author (data c)) = true) as ->
      by by apply operson_eqb_eq.
    rewrite String.eqb_refl. simpl. by rewrite !orb_false_r. }
  destruct (push_finish_events pn (data c) cd EmptyString false
              (with_temp_index_tree (temp_index_tree t1) t1) w1)
    as (o & t2 & Hf & _).
  rewrite Hno in Hf. simpl negb in Hf. simpl andb in Hf. cbv iota in Hf.
  eexists o, t2, _, (evs ++ (if changed cd (data c) then [CommitTree cd] else [])).
  rewrite push_patch_phases, (bind_ret _ _ _ _ _ Hm).
  split; [exact Hf|].
  split; [apply new_events_app; cbn [w_trace]; by rewrite Htr, <-!app_assoc|].
  split; [|done].
  rewrite commit_trees_app, (commit_trees_merge_events _ Hev), Hch.
  by destruct (commit_eqb newparent oldparent).
Qed.

End push_no_change.

Lemma push_same_tree_witness :
  let G := sample.conflicting_git in
  ∃ o t2 w2 evs,
    push_patch "p" None (sample.trans "push", sample.the_world) = (o, (t2, w2))
    ∧ new_events sample.the_world w2 = evs ++ [OutInfo "Pushed p (empty)"]
    ∧ commit_trees evs = [mkCommitData sample.Ta [sample.CA] None None "p"].
Proof.
  intros G.
  destruct (push_same_tree (G := G) "p" None (sample.trans "push")
              sample.the_world sample.CP sample.C0 sample.CA)
    as (o & t2 & w2 & evs & Hrun & Hev & Hc & _);
    [vm_compute; reflexivity..|].
  by exists o, t2, w2, evs.
Defined.

(** C8, as the spec has it, fails: pushing [p], whose tree is the tree of the
    applied patch [a], onto [a] creates a commit, because its parent changes
    from the base to [a]. *)
Lemma same_tree_push_may_commit : ¬ same_tree_push_creates_no_commit.
Proof.
  intros Hclaim.
  specialize (Hclaim sample.conflicting_git "p" None (sample.trans "push")
                sample.the_world sample.CP sample.CA eq_refl eq_refl eq_refl).
  vm_compute in Hclaim. discriminate Hclaim.
Qed.

(** ** Running the transaction *)

Section run_phases.
Context `{G : GitProcess}.

(** [run] is its two passes in sequence. *)
Lemma run_phases iw set_head allow_bad_head print_current_patch s :
  run iw set_head allow_bad_head print_current_patch s
  = (run_first_pass iw set_head allow_bad_head
       ≫= run_second_pass print_current_patch) s.
Proof.
  unfold run, run_first_pass.
  repeat (rewrite bind_assoc; apply bind_ext; intros).
  reflexivity.
Qed.

End run_phases.

Section write.
Context `{G : GitProcess}.

Lemma write_unfold msg :
  write msg =
    (ov ← self patches;
     for_each (map_to_list ov) (write_entry msg);;
     a ← self applied;
     u ← self unapplied;
     h ← self hidden;
     in_world (update_stack (with_patchorder a u h));;
     in_world (log_entry msg)).
Proof. reflexivity. Qed.

#[export] Instance same_but_patches_refl : Reflexive same_but_patches.
Proof. intros s. by repeat split. Qed.

#[export] Instance same_but_patches_trans : Transitive same_but_patches.
Proof. intros s1 s2 s3 H1 H2. unfold same_but_patches in *. intuition congruence. Qed.

(** The loop of [write] over entries of distinct names: it writes each
    entry over the patches of the live stack, and it fails only at a
    tombstone of a patch the live stack does not have. *)
Lemma write_entries_spec msg (l : list (string * option Commit)) t w :
  NoDup l.*1 →
  ∃ o w',
    for_each l (write_entry msg) (t, w) = (o, (t, w'))
    ∧ extends same_but_patches (patch_event msg) w w'
    ∧ (o = Ret tt →
       ∀ pn, stack_patches (w_stack w') !! pn
             = written (list_to_map l) (stack_patches (w_stack w)) pn)
    ∧ ((∀ pn, (pn, None) ∈ l → is_Some (stack_patches (w_stack w) !! pn)) →
       o = Ret tt).
Proof.
  revert w. induction l as [|[pn commit] l IH]; intros w Hnd.
  { exists (Ret tt), w. split; [done|]. split; [reflexivity|]. done. }
  apply NoDup_cons in Hnd as [Hpn Hnd]. simpl.
  assert (Hstep : ∀ w1 e f,
    w1 = mkWorld (stack.with_patches f (w_stack w)) (w_trace w ++ [e]) →
    patch_event msg e →
    (∀ q, q ≠ pn → f (stack_patches (w_stack w)) !! q = stack_patches (w_stack w) !! q) →
    f (stack_patches (w_stack w)) !! pn = commit →
    ∃ o w',
      for_each l (write_entry msg) (t, w1) = (o, (t, w'))
      ∧ extends same_but_patches (patch_event msg) w w'
      ∧ (o = Ret tt →
         ∀ q, stack_patches (w_stack w') !! q
              = written (<[pn:=commit]> (list_to_map l)) (stack_patches (w_stack w)) q)
      ∧ ((∀ q, (q, None) ∈ (pn, commit) :: l →
               is_Some (stack_patches (w_stack w) !! q)) → o = Ret tt)).
  { intros w1 e f -> He Hother Hthis.
    destruct (IH (mkWorld (stack.with_patches f (w_stack w)) (w_trace w ++ [e])) Hnd)
      as (o & w' & Hrun & Hext & Hret & Htot).
    exists o, w'. split; [done|]. split.
    - etrans; [|exact Hext]. split; [by repeat split|].
      exists [e]. split; [done|]. by apply Forall_singleton.
    - split.
      + intros Ho q. rewrite (Hret Ho q). unfold written. simpl.
        destruct (decide (q = pn)) as [->|Hne].
        * rewrite lookup_insert_eq.
          by rewrite (proj1 (not_elem_of_list_to_map _ _) Hpn).
        * rewrite lookup_insert_ne by done. by rewrite (Hother q Hne).
      + intros Hlive. apply Htot. intros q Hq. simpl.
        assert (q ≠ pn) as Hne.
        { intros ->. apply Hpn. apply list_elem_of_fmap. by exists (pn, None). }
        rewrite (Hother q Hne). apply Hlive. by right. }
  unfold write_entry at 1, patch_delete, patch_set_commit, patches_new, emit,
    update_stack.
  eff_unfold. cbn [fst snd w_stack w_trace].
  destruct (stack_patches (w_stack w) !! pn) as [old|] eqn:Hlive;
    destruct commit as [c|]; cbn [fst snd w_stack w_trace].
  - eapply (Hstep _ _ (<[pn:=c]>)); [reflexivity|done| |].
    + intros q Hne. by rewrite lookup_insert_ne.
    + by rewrite lookup_insert_eq.
  - eapply (Hstep _ _ (delete pn)); [reflexivity|done| |].
    + intros q Hne. by rewrite lookup_delete_ne.
    + by rewrite lookup_delete_eq.
  - eapply (Hstep _ _ (<[pn:=c]>)); [reflexivity|done| |].
    + intros q Hne. by rewrite lookup_insert_ne.
    + by rewrite lookup_insert_eq.
  - exists (Raise AttributeError), w. split; [done|]. split; [reflexivity|].
    split; [done|]. intros Hall.
    destruct (Hall pn) as [x Hx]; [by left|]. congruence.
Qed.

(** [write]: the transaction is left as it is; when it returns, the
    override map is written over the patches of the live stack, the three
    lists of the transaction are the lists of the live stack, and the last
    event is the log entry of the new stack under the message. *)
Lemma write_spec msg t w :
  ∃ o w',
    write msg (t, w) = (o, (t, w'))
    ∧ (o = Ret tt →
       ∃ evs,
         w_trace w' = w_trace w ++ evs ++ [LogEntry (w_stack w') msg]
         ∧ Forall (patch_event msg) evs
         ∧ patchorder_applied (w_stack w') = applied t
         ∧ patchorder_unapplied (w_stack w') = unapplied t
         ∧ patchorder_hidden (w_stack w') = hidden t
         ∧ stack_base (w_stack w') = stack_base (w_stack w)
         ∧ stack_head (w_stack w') = stack_head (w_stack w)
         ∧ ∀ pn, stack_patches (w_stack w') !! pn
                 = written (patches t) (stack_patches (w_stack w)) pn)
    ∧ (o ≠ Ret tt → extends same_but_patches (patch_event msg) w w')
    ∧ ((∀ pn, patches t !! pn = Some None →
              is_Some (stack_patches (w_stack w) !! pn)) → o = Ret tt).
Proof.
  rewrite write_unfold.
  destruct (write_entries_spec msg (map_to_list (patches t)) t w
              (NoDup_fst_map_to_list _))
    as (o & w1 & Hloop & Hext & Hret & Htot).
  rewrite list_to_map_to_list in Hret.
  erewrite bind_ret by reflexivity. cbv beta. cbn [fst].
  destruct o as [[]|e].
  - rewrite (bind_ret _ _ _ _ _ Hloop).
    unfold update_stack, log_entry, emit. eff_unfold. cbn [fst snd w_stack w_trace].
    eexists (Ret tt), _. split; [reflexivity|].
    destruct Hext as [(Ha & Hu & Hh & Hb & Hhd) (evs & Htr & Hev)].
    split; [|split; [done|done]].
    intros _. exists evs. cbn [w_stack w_trace stack.with_patchorder
      patchorder_applied patchorder_unapplied patchorder_hidden stack_base
      stack_head stack_patches].
    rewrite Htr, <-app_assoc. split_and!; try done. by apply Hret.
  - rewrite (bind_raise _ _ _ _ _ Hloop).
    exists (Raise e), w1. split; [done|]. split; [done|]. split; [done|].
    intros Hlive. apply Htot. intros pn Hin. apply Hlive.
    by apply elem_of_map_to_list.
Qed.

End write.

Section run.
Context `{G : GitProcess}.

Lemma bind_inv {S A B} (m : Eff S A) (f : A → Eff S B) s b s' :
  (m ≫= f) s = (Ret b, s') → ∃ a s1, m s = (Ret a, s1) ∧ f a s1 = (Ret b, s').
Proof.
  unfold mbind, Eff_bind. destruct (m s) as [[a|e] s1]; [eauto|done].
Qed.

(** [run] never touches the error field. *)
Lemma run_preserves_error iw set_head allow_bad_head print_current_patch :
  preserves (both same_error (extends any_stack any_event))
    (run iw set_head allow_bad_head print_current_patch).
Proof. preserves_auto. Qed.

(** The first pass of [run] changes nothing of the transaction but the tree
    it believes checked out. *)
Lemma run_first_pass_preserves iw set_head allow_bad_head :
  preserves (both same_but_current_tree (extends any_stack any_event))
    (run_first_pass iw set_head allow_bad_head).
Proof. preserves_auto. Qed.

Lemma index_Some pn (l : list string) i : index pn l = Some i → l !! i = Some pn.
Proof.
  unfold index. intros ([j y] & Hfind & Hi)%fmap_Some. simpl in Hi. subst j.
  by apply list_find_Some in Hfind as (Hl & -> & _).
Qed.

Lemma index_elem_of pn (l : list string) : pn ∈ l → is_Some (index pn l).
Proof.
  intros Hin. unfold index.
  destruct (list_find_elem_of (λ y, y = pn) l pn Hin eq_refl) as [[i y] ->].
  by eexists.
Qed.

Lemma index_not_elem_of pn (l : list string) : pn ∉ l → index pn l = None.
Proof.
  intros Hnin. destruct (index pn l) as [i|] eqn:E; [|done].
  apply index_Some in E. by apply list_elem_of_lookup_2 in E.
Qed.

(** What [update] does, in one equation. *)
Lemma update_eq pn comm t w :
  update pn comm (t, w) =
    if bool_decide (pn ∈ hidden t) then
      match index pn (hidden t) with
      | Some i =>
          (Ret tt, (with_applied (λ a, a ++ [pn])
                      (with_hidden (delete i) (recorded pn comm t)), w))
      | None => (Raise ValueError, (recorded pn comm t, w))
      end
    else
      match index pn (unapplied t) with
      | Some i =>
          (Ret tt, (with_applied (λ a, a ++ [pn])
                      (with_unapplied (delete i) (recorded pn comm t)), w))
      | None => (Raise ValueError, (recorded pn comm t, w))
      end.
Proof.
  unfold update, recorded. eff_unfold.
  destruct comm; cbn [fst snd hidden unapplied with_patches];
    repeat case_match; simplify_eq/=; done.
Qed.

Lemma check_consistency_preserves :
  preserves (both same_staged (extends any_stack any_event)) __check_consistency.
Proof. preserves_auto. Qed.

Lemma log_external_mods_preserves :
  preserves (both same_staged (extends any_stack any_event))
    (in_world log_external_mods).
Proof. preserves_auto. Qed.

Lemma head_preserves :
  preserves (both same_staged (extends any_stack any_event)) head.
Proof. preserves_auto. Qed.

(** How the first pass of [run] returns: with the message of the
    transaction, at the end of a call of [write] under it. *)
Lemma run_first_pass_ret iw set_head allow_bad_head t w m old t1 w1 :
  run_first_pass iw set_head allow_bad_head (t, w) = (Ret (m, old), (t1, w1)) →
  same_but_current_tree t t1
  ∧ m = msg t
  ∧ ∃ w0 evs, write m (t1, w0) = (Ret tt, (t1, w1))
              ∧ w_trace w0 = w_trace w ++ evs.
Proof.
  intros Hrun.
  destruct (preserves_run _ _ _ _ _ (run_first_pass_preserves _ _ _) Hrun)
    as [Hsame _].
  split; [done|].
  unfold run_first_pass in Hrun.
  apply bind_inv in Hrun as (? & sa & Ha & Hrun).
  apply bind_inv in Hrun as (? & sb & Hb & Hrun).
  apply bind_inv in Hrun as (nh & sc & Hc & Hrun).
  apply bind_inv in Hrun as (m' & sc' & Hm & Hrun).
  apply bind_inv in Hrun as (? & sd & Hd & Hrun).
  apply bind_inv in Hrun as (err & sd' & He & Hrun).
  apply bind_inv in Hrun as (? & se & He' & Hrun).
  apply bind_inv in Hrun as (old' & se' & Ho & Hrun).
  apply bind_inv in Hrun as ([] & sf & Hw & Hrun).
  unfold self, the_stack, gets in Hm, He, Ho.
  injection Hrun as -> -> ->. injection Hm as <- <-. injection He as <- <-.
  injection Ho as _ <-.
  destruct (preserves_run _ _ _ _ _ check_consistency_preserves Ha) as [Ra Wa].
  destruct (preserves_run _ _ _ _ _ log_external_mods_preserves Hb) as [Rb Wb].
  destruct (preserves_run _ _ _ _ _ head_preserves Hc) as [Rc Wc].
  eapply (preserves_run (both same_but_current_tree (extends any_stack any_event)))
    in Hd as [_ Wd]; [|preserves_auto].
  eapply (preserves_run (both same_but_current_tree (extends any_stack any_event)))
    in He' as [_ We]; [|preserves_auto].
  destruct Ra as (_ & _ & _ & _ & _ & _ & Ra & _).
  destruct Rb as (_ & _ & _ & _ & _ & _ & Rb & _).
  destruct Rc as (_ & _ & _ & _ & _ & _ & Rc & _).
  assert (Wall : extends any_stack any_event w se.2)
    by (do 4 (etrans; [eassumption|]); done).
  destruct Wall as [_ (evs & Hevs & _)].
  simpl in *. split; [congruence|].
  destruct se as [te we].
  destruct (write_spec (msg sc.1) te we) as (o & w' & Hw' & _).
  rewrite Hw' in Hw. injection Hw as -> -> ->. by exists we, evs.
Qed.

Lemma print_current_patch_ret old new w :
  ∃ evs,
    _print_current_patch old new w
      = (Ret tt, mkWorld (w_stack w) (w_trace w ++ evs))
    ∧ Forall is_info evs.
Proof.
  assert (Hnone : (Ret tt, w) = (Ret tt, mkWorld (w_stack w) (w_trace w ++ []))).
  { rewrite app_nil_r. by destruct w. }
  unfold _print_current_patch, out_info, emit. eff_unfold.
  destruct (last old), (last new); try case_match;
    first [by exists []
          |eexists [_]; split; [reflexivity|apply Forall_singleton; by eexists]].
Qed.

Lemma truthy_error_ok t :
  error_ok t → truthy (error t) = bool_decide (error t ≠ None).
Proof.
  unfold error_ok, truthy. destruct (error t) as [e|]; [|done].
  intros Hne. destruct (String.eqb_spec e EmptyString) as [->|]; done.
Qed.

(** C1: when [conflicting_push] is set, [run], after the first writeback
    pass (which ends with the log entry under the message of the
    transaction and leaves the conflicted patch out of applied), resets the
    override map, calls the deferred update, which records the new commit
    and moves the patch to the end of applied, and writes and logs a second
    time, under the message followed by " (CONFLICT)".  Whenever [run]
    returns, it returns the conflict code 3 if the error field is set and
    the success code 0 if it is not.  The error field is taken to hold no
    empty message, as it does on every transaction the operations build
    ([init_error_ok], [operations_keep_error_ok]). *)
Theorem run_conflict_continuation iw set_head allow_bad_head print_current_patch
    t w m old t1 w1 pn comm :
  (run_first_pass iw set_head allow_bad_head (t, w) = (Ret (m, old), (t1, w1)) →
   conflicting_push t = Some (pn, comm) →
   pn ∈ hidden t ∨ pn ∈ unapplied t →
   error_ok t →
   ∃ t2 w2 evs printed,
     run iw set_head allow_bad_head print_current_patch (t, w)
       = (Ret (match error t with
               | Some _ => utils.STGIT_CONFLICT
               | None => utils.STGIT_SUCCESS
               end), (t2, w2))
     ∧ m = msg t
     ∧ (∃ pre, w_trace w1 = pre ++ [LogEntry (w_stack w1) m])
     ∧ patchorder_applied (w_stack w1) = applied t
     ∧ patches t2 = match comm with Some c => {[pn := Some c]} | None => ∅ end
     ∧ applied t2 = applied t ++ [pn]
     ∧ hidden t ++ unapplied t ≡ₚ pn :: (hidden t2 ++ unapplied t2)
     ∧ w_trace w2
       = w_trace w1 ++ evs
           ++ [LogEntry (w_stack w2) (m +:+ " (CONFLICT)")] ++ printed
     ∧ Forall (patch_event (m +:+ " (CONFLICT)")) evs
     ∧ Forall is_info printed
     ∧ patchorder_applied (w_stack w2) = applied t2
     ∧ patchorder_unapplied (w_stack w2) = unapplied t2
     ∧ patchorder_hidden (w_stack w2) = hidden t2
     ∧ (∀ c, comm = Some c → stack_patches (w_stack w2) !! pn = Some c)
     ∧ (∀ q, q ≠ pn →
          stack_patches (w_stack w2) !! q = stack_patches (w_stack w1) !! q))
  ∧ (∀ code s',
       run iw set_head allow_bad_head print_current_patch (t, w) = (Ret code, s') →
       error_ok t →
       (error t ≠ None → code = utils.STGIT_CONFLICT)
       ∧ (error t = None → code = utils.STGIT_SUCCESS)).
Proof.
  split.
  - intros Hfirst Hcp Hpn Herr.
    destruct (run_first_pass_ret _ _ _ _ _ _ _ _ _ Hfirst)
      as ([v ->] & -> & w0 & _ & Hw & _).
    destruct (write_spec (msg t) (with_current_tree v t) w0)
      as (o & w' & Hw' & Hret & _).
    rewrite Hw' in Hw. injection Hw as -> ->.
    destruct (Hret eq_refl) as (evs0 & Htr0 & _ & Happ0 & _). clear Hret Hw'.
    set (t1 := with_current_tree v t) in *.
    (* the deferred update *)
    set (t1' := with_patches (λ _, ∅) t1).
    assert (Hup : ∃ t2,
      update pn comm (t1', w1) = (Ret tt, (t2, w1))
      ∧ patches t2 = match comm with Some c => {[pn := Some c]} | None => ∅ end
      ∧ applied t2 = applied t ++ [pn]
      ∧ hidden t ++ unapplied t ≡ₚ pn :: (hidden t2 ++ unapplied t2)
      ∧ error t2 = error t).
    { rewrite update_eq.
      assert (Hrec : patches (recorded pn comm t1')
                = match comm with Some c => {[pn := Some c]} | None => ∅ end).
      { destruct comm; simpl; [|done]. by rewrite insert_empty. }
      assert (Hfld : hidden (recorded pn comm t1') = hidden t
                ∧ unapplied (recorded pn comm t1') = unapplied t
                ∧ applied (recorded pn comm t1') = applied t
                ∧ error (recorded pn comm t1') = error t).
      { by destruct comm. }
      destruct Hfld as (Hh & Hu & Ha & He).
      change (hidden t1') with (hidden t). change (unapplied t1') with (unapplied t).
      case_bool_decide as Hin.
      - destruct (index_elem_of pn _ Hin) as [i Hi]. rewrite Hi.
        apply index_Some in Hi.
        eexists. split; [reflexivity|]. simpl. rewrite Hh, Hu, Ha, He.
        split_and!; try done.
        apply (Permutation_app_tail (l' := pn :: _)), (delete_Permutation _ _ _ Hi).
      - destruct Hpn as [?|Hin']; [done|].
        destruct (index_elem_of pn _ Hin') as [i Hi]. rewrite Hi.
        apply index_Some in Hi.
        eexists. split; [reflexivity|]. simpl. rewrite Hh, Hu, Ha, He.
        split_and!; try done.
        etrans; [apply Permutation_app_head, (delete_Permutation _ _ _ Hi)|].
        symmetry. apply Permutation_middle. }
    destruct Hup as (t2 & Hup & Hp2 & Ha2 & Hperm & He2).
    (* the second pass *)
    destruct (write_spec (msg t +:+ " (CONFLICT)") t2 w1)
      as (o & w2 & Hw2 & Hret & _ & Htot).
    assert (o = Ret tt) as ->.
    { apply Htot. intros q Hq. rewrite Hp2 in Hq.
      destruct comm; [|by rewrite lookup_empty in Hq].
      apply lookup_singleton_Some in Hq as [_ [=]]. }
    destruct (Hret eq_refl) as (evs & Htr & Hev & Happ & Hun & Hhid & _ & _ & Hmap).
    destruct (print_current_patch_ret old (applied t2) w2) as (printed & Hpr & Hprinted).
    exists t2.
    exists (if print_current_patch
            then mkWorld (w_stack w2) (w_trace w2 ++ printed) else w2).
    exists evs, (if print_current_patch then printed else []).
    split.
    { rewrite run_phases, (bind_ret _ _ _ _ _ Hfirst).
      unfold run_second_pass.
      eff_ret ltac:(unfold self, gets; cbn [fst]; change (conflicting_push t1)
                    with (conflicting_push t); rewrite Hcp; reflexivity).
      eff_ret ltac:(
        eff_pure; eff_ret ltac:(exact Hup); exact Hw2).
      destruct print_current_patch.
      - eff_ret ltac:(eff_pure; unfold in_world; cbn [fst snd]; rewrite Hpr;
                      reflexivity).
        eff_pure. cbn [fst]. rewrite He2, (truthy_error_ok _ Herr).
        by destruct (error t).
      - eff_pure. eff_pure. cbn [fst]. rewrite He2, (truthy_error_ok _ Herr).
        by destruct (error t). }
    split; [done|]. split; [by eexists (_ ++ _); rewrite Htr0, app_assoc|].
    split; [done|]. split; [done|]. split; [done|]. split; [done|].
    split.
    { destruct print_current_patch; cbn [w_trace w_stack].
      - by rewrite Htr, <-!app_assoc.
      - by rewrite Htr, app_nil_r. }
    split; [done|].
    split; [by destruct print_current_patch|].
    assert (Hst : w_stack (if print_current_patch
                           then mkWorld (w_stack w2) (w_trace w2 ++ printed)
                           else w2) = w_stack w2) by by destruct print_current_patch.
    rewrite Hst. split_and!; try done.
    + intros c ->. rewrite Hmap. unfold written. by rewrite Hp2, lookup_singleton_eq.
    + intros q Hq. rewrite Hmap. unfold written. rewrite Hp2.
      destruct comm; [by rewrite lookup_singleton_ne|by rewrite lookup_empty].
  - intros code [t' w'] Hrun Herr.
    destruct (preserves_run _ _ _ _ _ (run_preserves_error _ _ _ _) Hrun) as [He _].
    unfold same_error in He. simpl in He.
    rewrite run_phases in Hrun.
    apply bind_inv in Hrun as ([m' old'] & s1 & _ & Hrun).
    unfold run_second_pass in Hrun.
    apply bind_inv in Hrun as (cp & s2 & _ & Hrun).
    apply bind_inv in Hrun as (? & s3 & _ & Hrun).
    apply bind_inv in Hrun as (? & s4 & _ & Hrun).
    apply bind_inv in Hrun as (err & s5 & Herr' & Hrun).
    unfold self, gets in Herr'. injection Herr' as <- <-.
    injection Hrun as <- ->. simpl in *. rewrite He, (truthy_error_ok _ Herr).
    split; intros Hx; [by rewrite bool_decide_true|by rewrite bool_decide_false by tauto].
Qed.

End run.

Lemma run_conflict_continuation_witness :
  let G := sample.conflicting_git in
  ∃ t2 w2 evs printed,
    run (Some sample.iw) true false true sample.conflicted
      = (Ret utils.STGIT_CONFLICT, (t2, w2))
    ∧ patches t2
      = {["b" := Some (mkCommit "new-b"
                         (mkCommitData sample.Ta [sample.CA] None None "b"))]}
    ∧ applied t2 = ["a"; "b"]
    ∧ (∃ pre, w_trace w2
         = pre ++ [LogEntry (with_head sample.CA sample.the_stack) "push"] ++ evs
             ++ [LogEntry (w_stack w2) "push (CONFLICT)"] ++ printed)
    ∧ Forall (patch_event "push (CONFLICT)") evs
    ∧ patchorder_applied (w_stack w2) = ["a"; "b"].
Proof.
  intros G.
  epose proof (run_conflict_continuation (G := G) (Some sample.iw) true false
                 true sample.conflicted.1 sample.conflicted.2 _ _ _ _ _ _)
    as [Hpass _].
  edestruct Hpass
    as (t2 & w2 & evs & printed & Hrun & _ & (pre & Hpre) & _ & Hp & Ha & _ & Htr
          & Hev & _ & Hpo & _);
    [vm_compute; reflexivity
    |vm_compute; reflexivity
    |right; vm_compute; apply list_elem_of_further, list_elem_of_here
    |discriminate|].
  exists t2, w2, evs, printed.
  split; [exact Hrun|]. split; [exact Hp|]. split; [exact Ha|].
  split; [|split; [exact Hev|by rewrite Hpo, Ha]].
  exists (w_trace sample.conflicted.2 ++ [LogExternalMods sample.the_stack;
            SetHead sample.CA "push"; OutError ["Merge conflict"]]).
  rewrite Htr. vm_compute. reflexivity.
Defined.

(** ** Running without setting the branch head *)

Section run_keeping_head.
Context `{G : GitProcess}.

(** With [set_head] false, [run] checks nothing out and leaves the branch
    head where it is, however it ends. *)
Lemma run_no_set_head_preserves iw allow_bad_head print_current_patch :
  preserves (both same_error (extends same_head no_checkout))
    (run iw false allow_bad_head print_current_patch).
Proof. preserves_auto. Qed.

(** How [run] returns: the last thing it did to the live stack is a call of
    [write] on the transaction it leaves. *)
Lemma run_ret_written iw set_head allow_bad_head print_current_patch t w code t' w' :
  run iw set_head allow_bad_head print_current_patch (t, w) = (Ret code, (t', w')) →
  patchorder_applied (w_stack w') = applied t'
  ∧ patchorder_unapplied (w_stack w') = unapplied t'
  ∧ patchorder_hidden (w_stack w') = hidden t'
  ∧ (∀ pn c, patches t' !! pn = Some c → stack_patches (w_stack w') !! pn = c)
  ∧ ∃ pre m' printed,
      new_events w w' = pre ++ [LogEntry (w_stack w') m'] ++ printed
      ∧ (m' = msg t ∨ m' = msg t +:+ " (CONFLICT)")
      ∧ Forall is_info printed.
Proof.
  intros Hrun. rewrite run_phases in Hrun.
  apply bind_inv in Hrun as ([m old] & [t1 w1] & Hfirst & Hrun).
  destruct (run_first_pass_ret _ _ _ _ _ _ _ _ _ Hfirst)
    as (_ & -> & w0 & evs0 & Hw1 & Htr0).
  destruct (preserves_run _ _ _ _ _ (run_first_pass_preserves _ _ _) Hfirst)
    as [_ [_ (evs1 & Htr1 & _)]].
  unfold run_second_pass in Hrun.
  apply bind_inv in Hrun as (cp & s1 & Hcp & Hrun).
  unfold self, gets in Hcp. injection Hcp as <- <-.
  apply bind_inv in Hrun as ([] & [t3 w3] & Hpass & Hrun).
  apply bind_inv in Hrun as ([] & [t4 w4] & Hprint & Hrun).
  apply bind_inv in Hrun as (err & s5 & Herr & Hrun).
  unfold self, gets in Herr. injection Herr as <- <-. injection Hrun as _ -> ->.
  (* the last call of [write] *)
  assert (Hlast : ∃ t2 w2 m' evs,
    write m' (t2, w2) = (Ret tt, (t3, w3))
    ∧ (m' = msg t ∨ m' = msg t +:+ " (CONFLICT)")
    ∧ w_trace w2 = w_trace w ++ evs).
  { cbn [fst snd] in Hpass, Htr1. destruct (conflicting_push t1) as [[pn comm]|].
    - apply bind_inv in Hpass as ([] & s2 & Hset & Hpass).
      apply bind_inv in Hpass as ([] & [t2 w2] & Hup & Hpass).
      unfold set_self, modify in Hset. injection Hset as <-.
      pose proof (update_world pn comm (with_patches (λ _, ∅) t1) w1) as Hw.
      cbn [fst snd] in Hup. rewrite Hup in Hw. simpl in Hw. subst w2.
      eexists _, _, _, _. split; [exact Hpass|]. split; [by right|exact Htr1].
    - injection Hpass as <- <-.
      eexists _, _, _, _. split; [exact Hw1|]. split; [by left|exact Htr0]. }
  destruct Hlast as (t2 & w2 & m' & evs2 & Hw & Hm' & Htr2).
  destruct (write_spec m' t2 w2) as (o & w3' & Hw' & Hret & _).
  rewrite Hw' in Hw. injection Hw as -> -> ->.
  destruct (Hret eq_refl) as (evs & Htr & _ & Ha & Hu & Hh & _ & _ & Hmap).
  (* the report *)
  assert (Hpr : t' = t3 ∧ w_stack w' = w_stack w3
                ∧ ∃ printed, w_trace w' = w_trace w3 ++ printed
                             ∧ Forall is_info printed).
  { destruct print_current_patch.
    - apply bind_inv in Hprint as (a & s' & Ha' & Hprint).
      unfold self, gets in Ha'. injection Ha' as <- <-.
      unfold in_world in Hprint. cbn [fst snd] in Hprint.
      destruct (print_current_patch_ret old (applied t3) w3) as (printed & Hp & ?).
      rewrite Hp in Hprint. injection Hprint as <- <-. eauto.
    - injection Hprint as <- <-. split; [done|]. split; [done|].
      exists []. by rewrite app_nil_r. }
  destruct Hpr as (-> & Hst & printed & Htr4 & Hprinted).
  rewrite Hst. split_and!; try done.
  - intros pn c Hc. rewrite Hmap. unfold written. by rewrite Hc.
  - exists (evs2 ++ evs), m', printed. split; [|done].
    apply new_events_app. by rewrite Htr4, Htr, Htr2, <-!app_assoc.
Qed.

Lemma for_each_ret_id {S A} (l : list A) (f : A → Eff S unit) s :
  (∀ x, x ∈ l → f x s = (Ret tt, s)) → for_each l f s = (Ret tt, s).
Proof.
  induction l as [|x l IH]; intros Hf; [done|]. simpl.
  rewrite (bind_ret _ _ _ _ _ (Hf x (list_elem_of_here _ _))).
  apply IH. intros y Hy. apply Hf. by right.
Qed.

Lemma check_consistency_ret t w :
  consistent t (w_stack w) → __check_consistency (t, w) = (Ret tt, (t, w)).
Proof.
  intros Hc. unfold __check_consistency.
  eff_pure. eff_pure. cbn [fst].
  apply for_each_ret_id. intros [pn c] Hin%elem_of_map_to_list.
  specialize (Hc pn c Hin). destruct c as [c|].
  - unfold assert. by rewrite bool_decide_true.
  - eff_pure. cbn [snd]. unfold assert. by rewrite bool_decide_true.
Qed.

Lemma head_ret t w :
  head_resolves t (w_stack w) → ∃ nh, head (t, w) = (Ret nh, (t, w)).
Proof.
  unfold head_resolves, head, top, patches_getitem. eff_unfold.
  cbv beta iota delta [fst snd].
  intros [[c Hc]|Htop].
  - rewrite Hc. eauto.
  - destruct (bad_head t); [eauto|].
    destruct (last (applied t)) as [pn|]; [|eauto].
    destruct Htop as [[c Hc]|[c Hc]].
    + rewrite Hc. eauto.
    + destruct (patches t !! pn); [eauto|]. rewrite Hc. eauto.
Qed.

(** [run] with [set_head] false and no conflicting push returns, when the
    overrides are consistent and the head can be read. *)
Lemma run_no_set_head_returns iw allow_bad_head print_current_patch t w :
  consistent t (w_stack w) →
  head_resolves t (w_stack w) →
  conflicting_push t = None →
  ∃ code w', run iw false allow_bad_head print_current_patch (t, w)
             = (Ret code, (t, w')).
Proof.
  intros Hcons Hhead Hcp. unfold run.
  eff_ret ltac:(by apply check_consistency_ret).
  eff_ret ltac:(unfold in_world, log_external_mods, emit; eff_unfold; reflexivity).
  cbn [fst snd w_stack].
  edestruct (head_ret t) as [nh Hnh]; [|eff_ret ltac:(exact Hnh)]; [done|].
  eff_pure. eff_pure. eff_pure. cbn [fst].
  match goal with |- context [(?m ≫= _) (t, ?w0)] =>
    assert (Herr : ∃ w1, m (t, w0) = (Ret tt, (t, w1))
                         ∧ w_stack w1 = w_stack w)
  end.
  { unfold out_error, emit. eff_unfold.
    destruct (error t); [|eauto]. destruct (truthy _); eauto. }
  destruct Herr as (w1 & Herr & Hst).
  eff_ret ltac:(exact Herr).
  eff_pure.
  destruct (write_spec (msg t) t w1) as (o & w2 & Hw & _ & _ & Htot).
  assert (o = Ret tt) as ->.
  { apply Htot. intros pn Hpn. rewrite Hst. exact (Hcons pn None Hpn). }
  eff_ret ltac:(exact Hw). eff_pure. cbn [fst]. rewrite Hcp. eff_pure.
  destruct print_current_patch.
  - destruct (print_current_patch_ret (patchorder_applied (w_stack w1))
                (applied t) w2) as (printed & Hpr & _).
    eff_ret ltac:(eff_pure; unfold in_world; cbn [fst snd]; rewrite Hpr;
                  reflexivity).
    eff_pure. eauto.
  - eff_pure. eff_pure. eauto.
Qed.

(** C10: [run] with [set_head] false checks nothing out and does not move
    the branch head, however it ends; when it returns it has written the
    overrides to the patches of the stack, the three lists to the stack, and
    a log entry; and it does return when the overrides are consistent, the
    head can be read and no conflicting push is pending. *)
Theorem run_without_set_head iw allow_bad_head print_current_patch t w :
  (∀ o t' w',
     run iw false allow_bad_head print_current_patch (t, w) = (o, (t', w')) →
     stack_head (w_stack w') = stack_head (w_stack w)
     ∧ Forall no_checkout (new_events w w'))
  ∧ (∀ code t' w',
       run iw false allow_bad_head print_current_patch (t, w)
         = (Ret code, (t', w')) →
       patchorder_applied (w_stack w') = applied t'
       ∧ patchorder_unapplied (w_stack w') = unapplied t'
       ∧ patchorder_hidden (w_stack w') = hidden t'
       ∧ (∀ pn c, patches t' !! pn = Some c → stack_patches (w_stack w') !! pn = c)
       ∧ ∃ pre m' printed,
           new_events w w' = pre ++ [LogEntry (w_stack w') m'] ++ printed
           ∧ (m' = msg t ∨ m' = msg t +:+ " (CONFLICT)")
           ∧ Forall is_info printed)
  ∧ (consistent t (w_stack w) →
     head_resolves t (w_stack w) →
     conflicting_push t = None →
     ∃ code w', run iw false allow_bad_head print_current_patch (t, w)
                = (Ret code, (t, w'))).
Proof.
  split_and!.
  - intros o t' w' Hrun.
    destruct (preserves_run _ _ _ _ _ (run_no_set_head_preserves _ _ _) Hrun)
      as [_ [Hhead (evs & Htr & Hev)]].
    simpl in *. split; [done|]. by rewrite (new_events_app _ _ _ Htr).
  - intros code t' w' Hrun. exact (run_ret_written _ _ _ _ _ _ _ _ _ Hrun).
  - apply run_no_set_head_returns.
Qed.

End run_keeping_head.

Lemma run_without_set_head_witness :
  let G := sample.conflicting_git in
  ∃ code t' w',
    run None false false true sample.pushed = (Ret code, (t', w'))
    ∧ stack_head (w_stack w') = sample.CA
    ∧ Forall no_checkout (new_events sample.pushed.2 w')
    ∧ patchorder_applied (w_stack w') = ["a"; "p"]
    ∧ patchorder_unapplied (w_stack w') = ["b"]
    ∧ stack_patches (w_stack w') !! "p"
      = Some (mkCommit "new-p" (mkCommitData sample.Ta [sample.CA] None None "p"))
    ∧ ∃ pre m' printed,
        new_events sample.pushed.2 w' = pre ++ [LogEntry (w_stack w') m'] ++ printed.
Proof.
  intros G.
  pose proof (run_without_set_head (G := G) None false true
                sample.pushed.1 sample.pushed.2) as (Hframe & Hwritten & Hret).
  destruct Hret as (code & w' & Hrun).
  { intros pn c.
    assert (patches sample.pushed.1
            = {["p" := Some (mkCommit "new-p"
                               (mkCommitData sample.Ta [sample.CA] None None "p"))]})
      as -> by (vm_compute; reflexivity).
    intros [<- <-]%lookup_singleton_Some.
    apply list_elem_of_further, list_elem_of_here. }
  { right. vm_compute. left. by eexists. }
  { reflexivity. }
  change (sample.pushed.1, sample.pushed.2) with sample.pushed in *.
  destruct (Hframe _ _ _ Hrun) as [Hhead Hev].
  destruct (Hwritten _ _ _ Hrun) as (Ha & Hu & _ & Hp & pre & m' & printed & Hlog & _).
  exists code, sample.pushed.1, w'. split; [exact Hrun|].
  split; [exact Hhead|]. split; [exact Hev|].
  split; [exact Ha|]. split; [exact Hu|].
  split; [apply Hp; vm_compute; reflexivity|].
  by exists pre, m', printed.
Defined.

(** ** The invariant of the staged lists *)

#[export] Instance keeps_refl {S} (P : S → Prop) : Reflexive (keeps P).
Proof. by intros s ?. Qed.

#[export] Instance keeps_trans {S} (P : S → Prop) : Transitive (keeps P).
Proof. intros s1 s2 s3 H1 H2 ?. auto. Qed.

Section invariant.
Context `{G : GitProcess}.

(** The invariant is about the names in the lists, the override map and the
    patches of the live stack. *)
Lemma invariant_perm t w t' w' :
  all_patches t' ≡ₚ all_patches t →
  (∀ pn, live t' (w_stack w') pn ↔ live t (w_stack w) pn) →
  invariant (t, w) → invariant (t', w').
Proof.
  intros Hperm Hlive [Hnd Hin]. split; simpl in *.
  - by rewrite Hperm.
  - intros pn. by rewrite Hperm, Hin, Hlive.
Qed.

Lemma invariant_same_staged s s' :
  both same_staged (extends eq merge_event) s s' → invariant s → invariant s'.
Proof.
  destruct s as [t w], s' as [t' w'].
  intros [(Ha & Hu & Hh & Hp & _) [Hs _]]. simpl in *.
  apply invariant_perm.
  - unfold all_patches. by rewrite Ha, Hu, Hh.
  - intros pn. unfold live. by rewrite Hp, Hs.
Qed.

(** The invariant the code keeps gives the one of the spec. *)
Lemma invariant_disjoint s : invariant s → disjoint_lists s.
Proof.
  intros [Hnd Hin]. unfold all_patches in Hnd.
  apply NoDup_app in Hnd as (_ & Ha & Hnd).
  apply NoDup_app in Hnd as (_ & Hu & _).
  split_and!; [| |done|done].
  - intros pn Hpn ?. apply (Ha pn Hpn), elem_of_app. by left.
  - intros pn Hpn ?. apply (Ha pn Hpn), elem_of_app. by right.
Qed.

Lemma filter_popped p (l : list string) :
  filter (λ pn, Is_true (negb (p pn))) l ++ filter (λ pn, Is_true (p pn)) l ≡ₚ l.
Proof.
  induction l as [|x l IH]; [done|].
  rewrite !filter_cons. destruct (p x); simpl.
  - rewrite <-Permutation_middle. by f_equiv.
  - by f_equiv.
Qed.

Lemma pop_patches_keeps p : preserves (keeps invariant) (pop_patches p).
Proof.
  intros [t w].
  pose proof (pop_patches_eq p t w) as Heq.
  pose proof (cut_at_first_app p (applied t)) as Happ.
  destruct (cut_at_first p (applied t)) as [kept popped].
  destruct Heq as [evs ->]. unfold keeps. simpl.
  apply invariant_perm; [|done].
  unfold all_patches. simpl in *. rewrite <-Happ, <-!app_assoc.
  f_equiv. rewrite (app_assoc (filter _ popped)). f_equiv. apply filter_popped.
Qed.

Lemma getitem_live pn t w c :
  patches_getitem pn (t, w) = (Ret (Some c), (t, w)) → live t (w_stack w) pn.
Proof.
  unfold patches_getitem, live. eff_unfold. cbv beta iota delta [fst snd].
  destruct (patches t !! pn) as [[c'|]|]; [done|by intros [=]|].
  destruct (stack_patches (w_stack w) !! pn); [by eexists|by intros [=]].
Qed.

Lemma live_recorded pn comm t s q :
  live t s pn → live (recorded pn comm t) s q ↔ live t s q.
Proof.
  intros Hpn. destruct comm as [c|]; [|done]. unfold live. simpl.
  destruct (decide (q = pn)) as [->|Hne].
  - rewrite lookup_insert_eq. unfold live in Hpn. tauto.
  - by rewrite lookup_insert_ne.
Qed.

Lemma update_keeps pn comm t w :
  live t (w_stack w) pn → invariant (t, w) → invariant (update pn comm (t, w)).2.
Proof.
  intros Hpn. rewrite update_eq.
  assert (Hfld : hidden (recorded pn comm t) = hidden t
            ∧ unapplied (recorded pn comm t) = unapplied t
            ∧ applied (recorded pn comm t) = applied t) by by destruct comm.
  destruct Hfld as (Hh & Hu & Ha).
  case_bool_decide.
  - destruct (index pn (hidden t)) as [i|] eqn:Hi; simpl.
    + apply index_Some in Hi. apply invariant_perm.
      * unfold all_patches. simpl. rewrite Hh, Hu, Ha.
        rewrite (delete_Permutation _ _ _ Hi) at 2.
        rewrite <-!app_assoc. f_equiv. simpl.
        rewrite (Permutation_middle (unapplied t)). done.
      * intros q. by apply live_recorded.
    + apply invariant_perm.
      * unfold all_patches. by rewrite Hh, Hu, Ha.
      * intros q. by apply live_recorded.
  - destruct (index pn (unapplied t)) as [i|] eqn:Hi; simpl.
    + apply index_Some in Hi. apply invariant_perm.
      * unfold all_patches. simpl. rewrite Hh, Hu, Ha.
        rewrite (delete_Permutation _ _ _ Hi) at 2.
        rewrite <-!app_assoc. f_equiv. simpl. done.
      * intros q. by apply live_recorded.
    + apply invariant_perm.
      * unfold all_patches. by rewrite Hh, Hu, Ha.
      * intros q. by apply live_recorded.
Qed.

Lemma push_finish_keeps pn x t1 w1 :
  live t1 (w_stack w1) pn →
  invariant (t1, w1) → invariant (push_finish pn x (t1, w1)).2.
Proof.
  intros Hpn Hinv. destruct x as [[[orig_cd cd] s] conflict].
  unfold push_finish, Repository.commit, out_info, emit, history, __halt.
  destruct (changed cd orig_cd); eff_unfold; cbv beta iota delta [fst snd];
    destruct conflict; cbv beta iota delta [fst snd].
  - revert Hinv. by apply invariant_perm.
  - apply update_keeps; [done|]. revert Hinv. by apply invariant_perm.
  - revert Hinv. by apply invariant_perm.
  - apply update_keeps; [done|]. revert Hinv. by apply invariant_perm.
Qed.

Lemma push_patch_keeps pn iw : preserves (keeps invariant) (push_patch pn iw).
Proof.
  intros [t w] Hinv. rewrite push_patch_phases. unfold mbind, Eff_bind.
  destruct (push_merge pn iw (t, w)) as [[x|e] [t1 w1]] eqn:Hm.
  - pose proof (preserves_run _ _ _ _ _ (push_merge_preserves pn iw) Hm) as Hfr.
    destruct x as [[[orig_cd cd] s] conflict].
    destruct (push_merge_ret _ _ _ _ _ _ _ _ _ Hm) as (c & _ & Hget & _).
    apply getitem_live in Hget.
    apply push_finish_keeps; [|by apply (invariant_same_staged _ _ Hfr)].
    destruct Hfr as [(_ & _ & _ & Hp & _) [Hs _]]. simpl in *.
    unfold live. by rewrite Hp, <-Hs.
  - pose proof (preserves_run _ _ _ _ _ (push_merge_preserves pn iw) Hm) as Hfr.
    by apply (invariant_same_staged _ _ Hfr).
Qed.

Lemma live_getitem pn t w :
  live t (w_stack w) pn → ∃ c, patches_getitem pn (t, w) = (Ret (Some c), (t, w)).
Proof.
  unfold patches_getitem, live. eff_unfold. cbv beta iota delta [fst snd].
  destruct (patches t !! pn) as [[c'|]|]; [eauto|done|].
  intros [c ->]. eauto.
Qed.

Lemma delete_entry_true p quiet pn t w c :
  p pn = true →
  patches_getitem pn (t, w) = (Ret (Some c), (t, w)) →
  ∃ evs,
    delete_entry p quiet pn (t, w)
    = (Ret tt, (transaction.with_patches (<[pn := None]>) t,
                mkWorld (w_stack w) (w_trace w ++ evs))).
Proof.
  intros Hp Hget. unfold delete_entry. rewrite Hp.
  eff_ret ltac:(exact Hget). eff_pure. eff_pure.
  destruct quiet.
  - exists []. rewrite app_nil_r. by destruct w.
  - by eexists [_].
Qed.

(** The loop of [delete_patches] over distinct names whose matching patches
    are live: it tombstones the matching ones. *)
Lemma delete_entries_spec p quiet (l : list string) t w :
  NoDup l →
  (∀ pn, pn ∈ l → p pn = true → live t (w_stack w) pn) →
  ∃ t' w',
    for_each l (delete_entry p quiet) (t, w) = (Ret tt, (t', w'))
    ∧ applied t' = applied t ∧ unapplied t' = unapplied t ∧ hidden t' = hidden t
    ∧ w_stack w' = w_stack w
    ∧ ∀ q, patches t' !! q
           = if decide (q ∈ l ∧ p q = true) then Some None else patches t !! q.
Proof.
  revert t w. induction l as [|x l IH]; intros t w Hnd Hlive.
  { by exists t, w. }
  apply NoDup_cons in Hnd as [Hx Hnd]. cbn [for_each].
  destruct (p x) eqn:Hpx.
  - destruct (live_getitem x t w) as [c Hget]; [apply Hlive; [by left|done]|].
    destruct (delete_entry_true p quiet x t w c Hpx Hget) as [evs Hstep].
    eff_ret ltac:(exact Hstep).
    edestruct (IH (transaction.with_patches (<[x := None]>) t)
                 (mkWorld (w_stack w) (w_trace w ++ evs))) as
      (t' & w' & Hrun & Ha & Hu & Hh & Hs & Hp); [done| |].
    { intros pn Hpn Hp. unfold live. simpl.
      rewrite lookup_insert_ne by (intros ->; done).
      apply Hlive; [by right|done]. }
    exists t', w'. split; [exact Hrun|]. split_and!; try done.
    intros q. rewrite Hp. simpl.
    destruct (decide (q = x)) as [->|Hne].
    + rewrite lookup_insert_eq.
      rewrite (decide_True (P := x ∈ x :: l ∧ _)) by (split; [by left|done]).
      by case_decide.
    + rewrite lookup_insert_ne by done.
      apply decide_ext. rewrite elem_of_cons.
      split; [intros [? ?]; split; [by right|done]|by intros [[?|?] ?]].
  - eff_ret ltac:(unfold delete_entry; rewrite Hpx; reflexivity).
    destruct (IH t w Hnd) as (t' & w' & Hrun & Ha & Hu & Hh & Hs & Hp).
    { intros pn Hpn. apply Hlive. by right. }
    exists t', w'. split; [exact Hrun|]. split_and!; try done.
    intros q. rewrite Hp. apply decide_ext. rewrite elem_of_cons.
    split; [intros [? ?]; split; [by right|done]|].
    intros [[->|?] ?]; [congruence|done].
Qed.

Lemma delete_patches_unfold p quiet :
  delete_patches p quiet =
    (all ← self all_patches;
     a ← self applied;
     let '(kept, popped) := cut_at_first p a in
     set_self (with_applied (λ _, kept));;
     let popped := filter (λ pn, Is_true (negb (p pn))) popped in
     set_self (with_unapplied
                 (λ u, popped ++ filter (λ pn, Is_true (negb (p pn))) u));;
     set_self (with_hidden (filter (λ pn, Is_true (negb (p pn)))));;
     in_world (__print_popped popped);;
     for_each all (delete_entry p quiet);;
     mret popped).
Proof. reflexivity. Qed.

Lemma filter_all {A} (P : A → Prop) `{!∀ x, Decision (P x)} (l : list A) :
  (∀ x, x ∈ l → P x) → filter P l = l.
Proof.
  induction l as [|x l IH]; intros Hall; [done|].
  rewrite filter_cons_True by (apply Hall; by left).
  f_equal. apply IH. intros y Hy. apply Hall. by right.
Qed.

Lemma delete_patches_keeps p quiet :
  preserves (keeps invariant) (delete_patches p quiet).
Proof.
  intros [t w] [Hnd Hin]. simpl in Hnd, Hin.
  rewrite delete_patches_unfold.
  eff_pure. eff_pure. cbn [fst].
  pose proof (cut_at_first_app p (applied t)) as Happ.
  pose proof (cut_at_first_kept p (applied t)) as Hkept.
  destruct (cut_at_first p (applied t)) as [kept popped]. simpl in Happ, Hkept.
  set (np := λ pn, Is_true (negb (p pn))).
  eff_pure. eff_pure. eff_pure.
  destruct (print_popped_ret (filter np popped) w) as [evs Hpr].
  eff_ret ltac:(unfold in_world; cbn [fst snd]; rewrite Hpr; reflexivity).
  match goal with |- context [(_ ≫= _) (?t1, ?w1)] =>
    destruct (delete_entries_spec p quiet (all_patches t) t1 w1 Hnd)
      as (t' & w' & Hrun & Ha & Hu & Hh & Hs & Hp)
  end.
  { intros pn Hpn _. by apply Hin. }
  eff_ret ltac:(exact Hrun). simpl in *.
  assert (Hall : all_patches t' = filter np (all_patches t)).
  { unfold all_patches. rewrite Ha, Hu, Hh, <-Happ, !filter_app.
    rewrite (filter_all np kept).
    - by rewrite <-!app_assoc.
    - intros x Hx. unfold np. by rewrite (Hkept x Hx). }
  split; simpl.
  - rewrite Hall. by apply NoDup_filter.
  - intros q. rewrite Hall, list_elem_of_filter. unfold live. rewrite Hp, Hs.
    unfold np. specialize (Hin q). unfold live in Hin.
    destruct (p q); simpl.
    + case_decide as Hq.
      * tauto.
      * split; [tauto|]. intros Hl. exfalso. apply Hq. split; [|done]. by apply Hin.
    + rewrite decide_False by (intros [_ ?]; done). rewrite <-Hin. tauto.
Qed.

(** The end of [reorder_patches]: the two assertions and the installation
    of the requested lists. *)
Lemma reorder_install_keeps applied' unapplied' hidden' :
  NoDup (unapplied' ++ hidden') →
  preserves (keeps invariant)
    (a ← self applied;
     assert (list_eqb a applied');;
     u ← self unapplied;
     h ← self hidden;
     assert (set_eqb (u ++ h) (unapplied' ++ hidden'));;
     set_self (with_unapplied (λ _, unapplied'));;
     set_self (with_hidden (λ _, hidden'))).
Proof.
  intros Hnd' [t w] [Hnd Hin]. simpl in Hnd, Hin.
  eff_pure. cbn [fst]. unfold list_eqb, set_eqb.
  case_bool_decide as Ha;
    [eff_pure|by erewrite bind_raise by reflexivity].
  eff_pure. eff_pure. cbn [fst].
  case_bool_decide as Hset;
    [eff_pure|by erewrite bind_raise by reflexivity].
  eff_pure.
  assert (Hmem : ∀ pn, pn ∈ unapplied' ++ hidden' ↔ pn ∈ unapplied t ++ hidden t).
  { intros pn.
    rewrite <-(elem_of_list_to_set (C := gset string) pn (unapplied' ++ hidden')).
    rewrite <-Hset. apply elem_of_list_to_set. }
  unfold all_patches in *.
  apply NoDup_app in Hnd as (Hnda & Hdisj & _).
  split; simpl.
  - change (all_patches _) with (applied t ++ unapplied' ++ hidden').
    apply NoDup_app. split_and!; [done| |done].
    intros pn Hpn. rewrite Hmem. by apply Hdisj.
  - intros pn. change (live _ _ pn) with (live t (w_stack w) pn).
    change (all_patches _) with (applied t ++ unapplied' ++ hidden').
    rewrite <-Hin, 2!(elem_of_app (applied t)). by rewrite Hmem.
Qed.

Lemma reorder_patches_keeps applied' unapplied' hidden' iw :
  NoDup (unapplied' ++ hidden') →
  preserves (keeps invariant) (reorder_patches applied' unapplied' hidden' iw).
Proof.
  intros Hnd'. unfold reorder_patches.
  apply preserves_bind; [tc_solve|apply preserves_gets; tc_solve|intros a].
  apply preserves_bind; [tc_solve|apply pop_patches_keeps|intros _].
  apply preserves_bind; [tc_solve| |intros _].
  - apply preserves_for_each; [tc_solve..|]. intros pn. apply push_patch_keeps.
  - by apply reorder_install_keeps.
Qed.

(** C9, as the code has it: the staged lists applied, unapplied and hidden
    name no patch twice, are pairwise disjoint, and their union is the set
    of live patch names (the patches of the stack and the names the
    transaction introduced, without the tombstoned ones);  [pop_patches],
    [delete_patches] and [push_patch] keep this invariant, however they end,
    and so does [reorder_patches] when the requested unapplied and hidden
    lists name no patch twice. *)
Theorem operations_keep_invariant s :
  invariant s →
  disjoint_lists s
  ∧ (∀ p, invariant (pop_patches p s).2)
  ∧ (∀ p quiet, invariant (delete_patches p quiet s).2)
  ∧ (∀ pn iw, invariant (push_patch pn iw s).2)
  ∧ (∀ applied' unapplied' hidden' iw,
       NoDup (unapplied' ++ hidden') →
       invariant (reorder_patches applied' unapplied' hidden' iw s).2).
Proof.
  intros Hinv. split_and!.
  - by apply invariant_disjoint.
  - intros p. by apply pop_patches_keeps.
  - intros p quiet. by apply delete_patches_keeps.
  - intros pn iw. by apply push_patch_keeps.
  - intros a u h iw Hnd. by apply reorder_patches_keeps.
Qed.

End invariant.

(** The live names of the sample stack, for a transaction without
    overrides. *)
Lemma sample_live t pn :
  patches t = ∅ → live t sample.the_stack pn ↔ pn ∈ ["a"; "p"; "b"].
Proof.
  intros Hp. unfold live. rewrite Hp, lookup_empty.
  unfold sample.the_stack. cbn [stack_patches].
  rewrite !elem_of_cons, elem_of_nil. split.
  - intros [c Hc].
    apply lookup_insert_Some in Hc as [[<- _]|[_ Hc]]; [tauto|].
    apply lookup_insert_Some in Hc as [[<- _]|[_ Hc]]; [tauto|].
    apply lookup_insert_Some in Hc as [[<- _]|[_ Hc]]; [tauto|].
    by rewrite lookup_empty in Hc.
  - intros [->|[->|[->|[]]]]; by eexists.
Qed.

Lemma sample_invariant m : invariant (sample.trans m, sample.the_world).
Proof.
  split.
  - apply (bool_decide_unpack _). by vm_compute.
  - intros pn. cbn [fst snd w_stack sample.the_world].
    rewrite (sample_live (sample.trans m) pn eq_refl).
    change (all_patches _) with ["a"; "p"; "b"]. done.
Qed.

Lemma operations_keep_invariant_witness :
  let G := sample.conflicting_git in
  let s := (sample.trans "sink", sample.the_world) in
  disjoint_lists s
  ∧ invariant (pop_patches (λ pn, String.eqb pn "a") s).2
  ∧ invariant (delete_patches (λ pn, String.eqb pn "p") false s).2
  ∧ invariant (push_patch "b" (Some sample.iw) s).2
  ∧ invariant (reorder_patches ["p"; "a"] ["b"] [] None s).2.
Proof.
  intros G s.
  destruct (operations_keep_invariant (G := G) s (sample_invariant _))
    as (Hd & Hpop & Hdel & Hpush & Hre).
  split_and!; [done|apply Hpop|apply Hdel|apply Hpush|apply Hre].
  apply (bool_decide_unpack _). by vm_compute.
Defined.

(** C9, as the spec has it, fails twice.  Pairwise disjoint lists may name a
    patch twice, and then [pop_patches] leaves the patch both applied and
    unapplied.  And [reorder_patches] installs the requested unapplied and
    hidden lists after comparing them as sets only, so a request that names
    a patch in both is installed as it is. *)
Lemma disjoint_lists_not_kept :
  ¬ operations_keep_disjoint_lists
  ∧ (disjoint_lists sample.twice_applied
     ∧ ¬ disjoint_lists
           (pop_patches (λ pn, String.eqb pn "b") sample.twice_applied).2)
  ∧ (invariant (sample.trans "sink", sample.the_world)
     ∧ ¬ disjoint_lists
           (reorder_patches (G := sample.conflicting_git) ["a"] ["p"; "b"] ["p"]
              None (sample.trans "sink", sample.the_world)).2).
Proof.
  assert (Hpop : disjoint_lists sample.twice_applied
     ∧ ¬ disjoint_lists
           (pop_patches (λ pn, String.eqb pn "b") sample.twice_applied).2).
  { split.
    - split_and!.
      + intros pn Hin Hun. cbn in Hin, Hun.
        apply list_elem_of_singleton in Hun as ->.
        apply (bool_decide_pack _) in Hin. by vm_compute in Hin.
      + intros pn _ []%elem_of_nil.
      + intros pn _ []%elem_of_nil.
      + intros pn. change (w_stack sample.twice_applied.2) with sample.the_stack.
        rewrite (sample_live sample.twice_applied.1 pn eq_refl).
        change (all_patches _) with ["a"; "b"; "a"; "p"].
        rewrite !elem_of_cons, !elem_of_nil. tauto.
    - intros (Hau & _). apply (Hau "a").
      + apply (bool_decide_unpack _). by vm_compute.
      + apply (bool_decide_unpack _). by vm_compute. }
  assert (Hre : ¬ disjoint_lists
           (reorder_patches (G := sample.conflicting_git) ["a"] ["p"; "b"] ["p"]
              None (sample.trans "sink", sample.the_world)).2).
  { intros (_ & _ & Huh & _). apply (Huh "p").
    - apply (bool_decide_unpack _). by vm_compute.
    - apply (bool_decide_unpack _). by vm_compute. }
  split; [|split; [exact Hpop|split; [apply sample_invariant|exact Hre]]].
  intros Hclaim.
  destruct (Hclaim sample.conflicting_git _ (proj1 Hpop)) as (Hp & _).
  exact (proj2 Hpop (Hp _)).
Qed.

(** ** The error field holds a message *)

Section error_ok.
Context `{G : GitProcess}.

Lemma append_nonempty (a b : string) : b ≠ EmptyString → a +:+ b ≠ EmptyString.
Proof. destruct a; [done|]. simpl. discriminate. Qed.

Lemma halt_error_ok {A} m w t :
  m ≠ EmptyString →
  both (keeps error_ok) (extends any_stack any_event) (t, w) (__halt (A := A) m (t, w)).2.
Proof.
  intros Hm. unfold __halt. eff_unfold. cbn [fst snd]. split; [|reflexivity].
  intros _. unfold error_ok. simpl. congruence.
Qed.

(** The merge in the index and worktree, as [push_patch] wraps it: when it
    halts the transaction, it does so with a message. *)
Lemma worktree_merge_error_ok iw' base ours theirs :
  preserves (both (keeps error_ok) (extends any_stack any_event))
    (try_except
       (in_world (IndexAndWorktree.merge iw' base ours theirs);;
        tree ← in_world (Index.write_tree (iw_index iw'));
        set_self (with_current_tree tree);;
        mret (tree, " (modified)", false))
       (λ e, match e with
             | MergeConflictException _ => Some (mret (ours, " (conflict)", true))
             | MergeException m => Some (__halt m)
             | _ => None
             end)).
Proof.
  intros [t w].
  unfold try_except, IndexAndWorktree.merge, Index.write_tree, __halt, emit, history.
  eff_unfold. cbn [fst snd w_stack w_trace].
  destruct (git_merge_recursive _ _ _ _ _) as [exitcode output].
  destruct (exitcode =? 0); [|destruct (exitcode =? 1)];
    cbn [fst snd w_stack w_trace];
    [destruct (git_write_tree _ _); cbn [fst snd w_stack w_trace]|..].
  all: split; cbn [fst snd];
    [first [by intros ?|by intros _ [=]]
    |split; [done|eexists; split; [by rewrite <-?app_assoc|by repeat constructor]]].
Qed.

Ltac error_ok_leaf :=
  first [by intros ?
        |by intros _ [=]
        |intros _ [= E]; by apply append_nonempty in E].

Ltac error_ok_auto :=
  repeat preserves_step_with ltac:(error_ok_leaf)
    ltac:(apply worktree_merge_error_ok).

Lemma push_patch_error_ok pn iw :
  preserves (both (keeps error_ok) (extends any_stack any_event))
    (push_patch pn iw).
Proof. unfold push_patch. error_ok_auto. Qed.

(** The error field, once free of the empty message, stays so: it is written
    by [__halt] only, and every message [__halt] is called with is a
    non-empty one.  So on the transactions the code builds the error field
    is set exactly when it is true in Python's sense, which is what [run]
    tests. *)
Lemma operations_keep_error_ok s :
  error_ok s.1 →
  (∀ p, error_ok (pop_patches p s).2.1)
  ∧ (∀ p quiet, error_ok (delete_patches p quiet s).2.1)
  ∧ (∀ pn iw, error_ok (push_patch pn iw s).2.1)
  ∧ (∀ applied' unapplied' hidden' iw,
       error_ok (reorder_patches applied' unapplied' hidden' iw s).2.1)
  ∧ (∀ iw set_head allow_bad_head print_current_patch,
       error_ok (run iw set_head allow_bad_head print_current_patch s).2.1).
Proof.
  intros Hok.
  assert (Hpop : ∀ p, preserves (both (keeps error_ok) (extends any_stack any_event))
                        (pop_patches p)).
  { intros p. unfold pop_patches. error_ok_auto. }
  split_and!.
  - intros p. by apply Hpop.
  - intros p quiet.
    assert (Hd : preserves (both (keeps error_ok) (extends any_stack any_event))
                   (delete_patches p quiet)).
    { unfold delete_patches. error_ok_auto. }
    by apply Hd.
  - intros pn iw. by apply push_patch_error_ok.
  - intros a u h iw.
    assert (Hr : preserves (both (keeps error_ok) (extends any_stack any_event))
                   (reorder_patches a u h iw)).
    { unfold reorder_patches.
      repeat preserves_step_with ltac:(error_ok_leaf)
        ltac:(first [apply Hpop|apply push_patch_error_ok]). }
    by apply Hr.
  - intros iw sh abh pcp.
    destruct (run_preserves_error iw sh abh pcp s) as [He _].
    unfold error_ok, same_error in *. by rewrite He.
Qed.

Lemma init_error_ok m discard ac allow_bad_head w t w' :
  __init__ m discard ac allow_bad_head w = (Ret t, w') → error_ok t.
Proof.
  unfold __init__. intros Hrun.
  apply bind_inv in Hrun as (s & w1 & _ & Hrun).
  apply bind_inv in Hrun as ([] & w2 & _ & Hrun).
  by injection Hrun as <- _.
Qed.

End error_ok.

(** ** What the operations leave alone *)

#[export] Instance any_trans_refl : Reflexive any_trans.
Proof. by intros ?. Qed.
#[export] Instance any_trans_trans : Transitive any_trans.
Proof. by intros ? ? ?. Qed.

Section frame.
Context `{G : GitProcess}.

Lemma pop_patches_unwritten p :
  preserves (both any_trans (extends eq no_write)) (pop_patches p).
Proof. unfold pop_patches. preserves_auto. Qed.

Lemma push_patch_unwritten pn iw :
  preserves (both any_trans (extends eq no_write)) (push_patch pn iw).
Proof. unfold push_patch. preserves_auto. Qed.

Lemma delete_patches_unwritten p quiet :
  preserves (both any_trans (extends eq no_write)) (delete_patches p quiet).
Proof. unfold delete_patches. preserves_auto. Qed.

Lemma reorder_patches_unwritten a u h iw :
  preserves (both any_trans (extends eq no_write)) (reorder_patches a u h iw).
Proof.
  unfold reorder_patches.
  repeat preserves_step_with ltac:(done)
    ltac:(first [apply pop_patches_unwritten|apply push_patch_unwritten]).
Qed.

(** X1: the operations that stage changes write nothing: however
    [pop_patches], [delete_patches], [push_patch] and [reorder_patches]
    end, the live stack (head, patches, lists) is as it was, and no ref, no
    patch metadata and no log entry was written; all they may leave behind
    are messages, Git objects and changes of index and worktree. *)
Theorem operations_write_nothing s :
  let unwritten s' :=
    w_stack s'.2 = w_stack s.2 ∧ Forall no_write (new_events s.2 s'.2) in
  (∀ p, unwritten (pop_patches p s).2)
  ∧ (∀ p quiet, unwritten (delete_patches p quiet s).2)
  ∧ (∀ pn iw, unwritten (push_patch pn iw s).2)
  ∧ (∀ applied' unapplied' hidden' iw,
       unwritten (reorder_patches applied' unapplied' hidden' iw s).2).
Proof.
  assert (Hun : ∀ s', both any_trans (extends eq no_write) s s' →
    w_stack s'.2 = w_stack s.2 ∧ Forall no_write (new_events s.2 s'.2)).
  { intros s' [_ [Hst (evs & Htr & Hev)]]. split; [done|].
    by rewrite (new_events_app _ _ _ Htr). }
  intros unwritten. split_and!; intros; apply Hun.
  - apply pop_patches_unwritten.
  - apply delete_patches_unwritten.
  - apply push_patch_unwritten.
  - apply reorder_patches_unwritten.
Qed.

End frame.

(** ** Exceptions *)

Section raises.
Context {S : Type} (Q : Exn → S → Prop).

Lemma raises_ret {A} (a : A) : raises Q (mret a).
Proof. by intros s e s'. Qed.

Lemma raises_raise {A} e : (∀ s, Q e s) → raises Q (raise (A := A) e).
Proof. intros HQ s e' s' [= <- <-]. apply HQ. Qed.

Lemma raises_gets {A} (f : S → A) : raises Q (gets f).
Proof. by intros s e s'. Qed.

Lemma raises_modify (f : S → S) : raises Q (modify f).
Proof. by intros s e s'. Qed.

Lemma raises_assert b : (∀ s, Q AssertionError s) → raises Q (assert b).
Proof. intros HQ. destruct b; [apply raises_ret|by apply raises_raise]. Qed.

Lemma raises_deref {A} (o : option A) : (∀ s, Q AttributeError s) → raises Q (deref o).
Proof. intros HQ. destruct o; [apply raises_ret|by apply raises_raise]. Qed.

Lemma raises_bind {A B} (m : Eff S A) (f : A → Eff S B) :
  raises Q m → (∀ a, raises Q (f a)) → raises Q (m ≫= f).
Proof.
  intros Hm Hf s e s'. unfold mbind, Eff_bind.
  destruct (m s) as [[a|e1] s1] eqn:E.
  - apply Hf.
  - intros [= <- <-]. by apply (Hm s).
Qed.

Lemma raises_try {A} (m : Eff S A) h :
  raises (λ e s, h e = None → Q e s) m →
  (∀ e k, h e = Some k → raises Q k) →
  raises Q (try_except m h).
Proof.
  intros Hm Hh s e s'. unfold try_except.
  destruct (m s) as [[a|e1] s1] eqn:E; [done|].
  destruct (h e1) as [k|] eqn:Ek.
  - by apply (Hh e1).
  - intros [= <- <-]. by apply (Hm s).
Qed.

Lemma raises_for_each {A} (l : list A) (f : A → Eff S unit) :
  (∀ x, raises Q (f x)) → raises Q (for_each l f).
Proof.
  intros Hf. induction l as [|x l IH]; simpl.
  - apply raises_ret.
  - apply raises_bind; [apply Hf|done].
Qed.

Lemma raises_weaken {A} (Q' : Exn → S → Prop) (m : Eff S A) :
  (∀ e s, Q' e s → Q e s) → raises Q' m → raises Q m.
Proof. intros HQ Hm s e s' E. apply HQ. by apply (Hm s). Qed.

End raises.

Lemma raises_in_world {A} (Q : Exn → TW → Prop) (m : Eff World A) :
  raises (λ e w, ∀ t, Q e (t, w)) m → raises Q (in_world m).
Proof.
  intros Hm [t w] e [t' w']. unfold in_world. simpl.
  destruct (m w) as [o w1] eqn:E. intros [= -> <- <-]. by apply (Hm w).
Qed.

(** Walk through a computation as [preserves_step_with] does: [leaf] shows
    that an exception raised on the spot is allowed in every state,
    [special] is tried first. *)
Ltac raises_step_with leaf special :=
  first [special|
  match goal with
  | |- raises _ (mret _) => apply raises_ret
  | |- raises _ (raise _) => apply raises_raise; intros ?; leaf
  | |- raises _ (_ ≫= _) => apply raises_bind; [|intros ?]
  | |- raises _ (try_except _ _) =>
      apply raises_try; [|intros [] ? ?; simplify_eq/=]
  | |- raises _ (for_each _ _) => apply raises_for_each; intros ?; cbv beta
  | |- raises _ (gets _) => apply raises_gets
  | |- raises _ (self _) => apply raises_gets
  | |- raises _ (the_stack _) => apply raises_gets
  | |- raises _ history => apply raises_gets
  | |- raises _ (modify _) => apply raises_modify
  | |- raises _ (set_self _) => apply raises_modify
  | |- raises _ (emit _) => apply raises_modify
  | |- raises _ (update_stack _) => apply raises_modify
  | |- raises _ (assert _) => apply raises_assert; intros ?; leaf
  | |- raises _ (deref _) => apply raises_deref; intros ?; leaf
  | |- raises _ (in_world _) => apply raises_in_world
  | |- raises _ (match ?x with _ => _ end) =>
      lazymatch x with
      | true => cbv iota
      | false => cbv iota
      | _ => destruct x
      end
  | |- raises _ _ => progress autounfold with eff
  end].

Section halted.
Context `{G : GitProcess}.

Lemma halt_raises {A} m :
  m ≠ EmptyString → raises halted_with_error (__halt (A := A) m).
Proof.
  intros Hm [t w] e s'. unfold __halt. eff_unfold. cbn [fst snd].
  intros [= <- <-] m' [= <-]. done.
Qed.

(** The merge in the index and worktree, as [push_patch] wraps it. *)
Lemma worktree_merge_raises iw' base ours theirs :
  raises halted_with_error
    (try_except
       (in_world (IndexAndWorktree.merge iw' base ours theirs);;
        tree ← in_world (Index.write_tree (iw_index iw'));
        set_self (with_current_tree tree);;
        mret (tree, " (modified)", false))
       (λ e, match e with
             | MergeConflictException _ => Some (mret (ours, " (conflict)", true))
             | MergeException m => Some (__halt m)
             | _ => None
             end)).
Proof.
  intros [t w] e s'.
  unfold try_except, IndexAndWorktree.merge, Index.write_tree, __halt, emit, history.
  eff_unfold. cbn [fst snd w_stack w_trace].
  destruct (git_merge_recursive _ _ _ _ _) as [exitcode output].
  destruct (exitcode =? 0); [|destruct (exitcode =? 1)];
    cbn [fst snd w_stack w_trace];
    [destruct (git_write_tree _ _); cbn [fst snd w_stack w_trace]|..];
    intros [= <- <-] m [= <-]; done.
Qed.

Ltac halted_leaf := first [by intros ? [=]|by intros ? ? [=]|by intros ? ? ? [=]].

Ltac halted_auto special :=
  repeat raises_step_with ltac:(halted_leaf)
    ltac:(first [special
                |apply worktree_merge_raises
                |apply halt_raises; first [done|by apply append_nonempty]]).

Lemma push_patch_raises pn iw : raises halted_with_error (push_patch pn iw).
Proof. unfold push_patch. halted_auto ltac:(fail). Qed.

Lemma reorder_patches_raises a u h iw :
  raises halted_with_error (reorder_patches a u h iw).
Proof.
  unfold reorder_patches, pop_patches.
  halted_auto ltac:(apply push_patch_raises).
Qed.

Lemma push_finish_halted pn x t1 w1 m t' w' :
  push_finish pn x (t1, w1) = (Raise (TransactionHalted m), (t', w')) →
  applied t' = applied t1 ∧ unapplied t' = unapplied t1 ∧ hidden t' = hidden t1.
Proof.
  destruct x as [[[orig_cd cd] s] conflict].
  unfold push_finish, Repository.commit, out_info, emit, history, __halt.
  destruct (changed cd orig_cd); eff_unfold; cbv beta iota delta [fst snd];
    destruct conflict; cbv beta iota delta [fst snd];
    rewrite ?update_eq; repeat case_match; by intros [= <- <-].
Qed.

(** X2: every way [push_patch] and [reorder_patches] halt the transaction
    leaves the (non-empty) message of the exception in the error field, which
    is what makes [run] return the conflict code afterwards; a halted
    [push_patch] has not moved the patch. *)
Theorem halt_sets_error pn iw applied' unapplied' hidden' t w m t' w' :
  (push_patch pn iw (t, w) = (Raise (TransactionHalted m), (t', w')) →
   error t' = Some m ∧ m ≠ EmptyString
   ∧ applied t' = applied t ∧ unapplied t' = unapplied t ∧ hidden t' = hidden t)
  ∧ (reorder_patches applied' unapplied' hidden' iw (t, w)
       = (Raise (TransactionHalted m), (t', w')) →
     error t' = Some m ∧ m ≠ EmptyString).
Proof.
  split.
  - intros Hrun.
    destruct (push_patch_raises pn iw _ _ _ Hrun m eq_refl) as [He Hm].
    split; [done|]. split; [done|].
    rewrite push_patch_phases in Hrun. unfold mbind, Eff_bind in Hrun.
    destruct (push_merge pn iw (t, w)) as [[x|e] [t1 w1]] eqn:Hmerge.
    + destruct (preserves_run _ _ _ _ _ (push_merge_preserves pn iw) Hmerge)
        as [(Ha & Hu & Hh & _) _].
      destruct (push_finish_halted _ _ _ _ _ _ _ Hrun) as (Ha' & Hu' & Hh').
      simpl in *. split_and!; congruence.
    + destruct (preserves_run _ _ _ _ _ (push_merge_preserves pn iw) Hmerge)
        as [(Ha & Hu & Hh & _) _].
      injection Hrun as -> -> ->. done.
  - intros Hrun.
    exact (reorder_patches_raises _ _ _ _ _ _ _ Hrun m eq_refl).
Qed.

End halted.

Lemma halt_sets_error_witness :
  let G := sample.conflicting_git in
  let s := (sample.trans "push", sample.the_world) in
  let m := "b does not apply cleanly" in
  (∃ t' w', push_patch "b" None s = (Raise (TransactionHalted m), (t', w'))
            ∧ error t' = Some m ∧ applied t' = ["a"] ∧ unapplied t' = ["p"; "b"])
  ∧ (∃ t' w', reorder_patches ["a"; "b"] ["p"] [] None s
                = (Raise (TransactionHalted m), (t', w'))
              ∧ error t' = Some m).
Proof.
  intros G s m. split.
  - pose (r := push_patch "b" None s).
    assert (Hr : r = (Raise (TransactionHalted m), (r.2.1, r.2.2)))
      by (vm_compute; reflexivity).
    destruct (proj1 (halt_sets_error "b" None [] [] [] _ _ _ _ _) Hr)
      as (He & _ & Ha & Hu & _).
    exists r.2.1, r.2.2. split; [exact Hr|]. split; [exact He|].
    split; [exact Ha|exact Hu].
  - pose (r := reorder_patches ["a"; "b"] ["p"] [] None s).
    assert (Hr : r = (Raise (TransactionHalted m), (r.2.1, r.2.2)))
      by (vm_compute; reflexivity).
    destruct (proj2 (halt_sets_error "b" None _ _ _ _ _ _ _ _) Hr) as (He & _).
    exists r.2.1, r.2.2. split; [exact Hr|exact He].
Defined.

Section push_returns.
Context `{G : GitProcess}.

Lemma push_finish_ret pn x t1 w1 t' w' :
  push_finish pn x (t1, w1) = (Ret tt, (t', w')) →
  applied t' = applied t1 ++ [pn]
  ∧ ((∃ i, index pn (hidden t1) = Some i
           ∧ hidden t' = delete i (hidden t1) ∧ unapplied t' = unapplied t1)
     ∨ ((pn ∉ hidden t1)
        ∧ ∃ i, index pn (unapplied t1) = Some i
               ∧ unapplied t' = delete i (unapplied t1) ∧ hidden t' = hidden t1)).
Proof.
  destruct x as [[[orig_cd cd] s] conflict].
  unfold push_finish, Repository.commit, out_info, emit, history, __halt.
  destruct (changed cd orig_cd); eff_unfold; cbv beta iota delta [fst snd];
    destruct conflict; cbv beta iota delta [fst snd]; try done;
    rewrite update_eq; cbn [hidden unapplied recorded with_patches];
    case_bool_decide; case_match; try done; intros [= <- <-]; simpl;
    (split; [done|]); eauto 10.
Qed.

(** X3: when [push_patch pn] returns, the patch is the new topmost applied
    patch, and it was taken out of hidden (at its first occurrence) if it was
    there and out of unapplied otherwise; so a patch that is in neither list
    is never pushed. *)
Theorem push_patch_moves_patch pn iw t w t' w' :
  push_patch pn iw (t, w) = (Ret tt, (t', w')) →
  applied t' = applied t ++ [pn]
  ∧ ((∃ i, index pn (hidden t) = Some i
           ∧ hidden t' = delete i (hidden t) ∧ unapplied t' = unapplied t)
     ∨ ((pn ∉ hidden t)
        ∧ ∃ i, index pn (unapplied t) = Some i
               ∧ unapplied t' = delete i (unapplied t) ∧ hidden t' = hidden t))
  ∧ (pn ∈ hidden t ∨ pn ∈ unapplied t).
Proof.
  intros Hrun. rewrite push_patch_phases in Hrun.
  apply bind_inv in Hrun as (x & [t1 w1] & Hmerge & Hfin).
  destruct (preserves_run _ _ _ _ _ (push_merge_preserves pn iw) Hmerge)
    as [(Ha & Hu & Hh & _) _]. simpl in Ha, Hu, Hh.
  destruct (push_finish_ret _ _ _ _ _ _ Hfin) as [Happ Hmove].
  rewrite Ha, Hu, Hh in *. split; [done|]. split; [done|].
  destruct Hmove as [(i & Hi & _)|(_ & i & Hi & _)];
    apply index_Some, list_elem_of_lookup_2 in Hi; auto.
Qed.

End push_returns.

Lemma push_patch_moves_patch_witness :
  let G := sample.conflicting_git in
  ∃ t' w',
    push_patch "p" None (sample.trans "push", sample.the_world) = (Ret tt, (t', w'))
    ∧ applied t' = ["a"; "p"] ∧ "p" ∈ unapplied (sample.trans "push").
Proof.
  intros G.
  pose (r := push_patch "p" None (sample.trans "push", sample.the_world)).
  assert (Hr : r = (Ret tt, (r.2.1, r.2.2))) by (vm_compute; reflexivity).
  destruct (push_patch_moves_patch "p" None _ _ _ _ Hr) as (Ha & _ & [Hin|Hin]).
  - exfalso. by apply elem_of_nil in Hin.
  - exists r.2.1, r.2.2. split; [exact Hr|]. split; [exact Ha|exact Hin].
Defined.

(** ** How the operations compose *)

#[export] Instance same_names_refl : Reflexive same_names.
Proof. intros s. unfold same_names. reflexivity. Qed.

#[export] Instance same_names_trans : Transitive same_names.
Proof. intros s1 s2 s3 H1 H2. unfold same_names in *. by rewrite H2, H1. Qed.

Section round_trip.
Context `{G : GitProcess}.

(** A lookup in the patch map reads the override map and the patches of the
    live stack only. *)
Lemma patches_getitem_frame pn t w t1 w1 v :
  patches t1 = patches t → w_stack w1 = w_stack w →
  patches_getitem pn (t, w) = (Ret v, (t, w)) →
  patches_getitem pn (t1, w1) = (Ret v, (t1, w1)).
Proof.
  intros Hp Hs. unfold patches_getitem. eff_unfold. cbv beta iota delta [fst snd].
  rewrite Hp. destruct (patches t !! pn); cbv beta iota delta [fst snd];
    [|rewrite Hs; case_match]; intros [=]; by subst.
Qed.

(** What the [temp_index] property does, in one equation. *)
Lemma get_temp_index_eq t w :
  ∃ ix evs,
    get_temp_index (t, w)
    = (Ret ix, (match temp_index t with
                | Some _ => t
                | None => with_temp_index (Some ix) t
                end, mkWorld (w_stack w) (w_trace w ++ evs)))
    ∧ Forall (λ e, ∃ ix, e = TempIndex ix) evs.
Proof.
  unfold get_temp_index, Repository.temp_index, emit, history. eff_unfold.
  cbn [fst snd]. destruct (temp_index t) as [ix|].
  - exists ix, []. rewrite app_nil_r. by destruct w.
  - eexists _, [_]. split; [reflexivity|]. apply Forall_singleton. by eexists.
Qed.

(** What [__print_popped] prints. *)
Lemma print_popped_info popped w :
  ∃ evs,
    __print_popped popped w = (Ret tt, mkWorld (w_stack w) (w_trace w ++ evs))
    ∧ Forall is_info evs
    ∧ (popped = [] → evs = []).
Proof.
  destruct popped as [|a [|b l]]; simpl.
  - exists []. rewrite app_nil_r. by destruct w.
  - eexists [_]. split; [reflexivity|]. split; [|done].
    apply Forall_singleton. by eexists.
  - eexists [_]. split; [reflexivity|]. split; [|done].
    apply Forall_singleton. by eexists.
Qed.

Lemma filter_none {A} (P : A → Prop) `{!∀ x, Decision (P x)} (l : list A) :
  (∀ x, x ∈ l → ¬ P x) → filter P l = [].
Proof.
  induction l as [|x l IH]; intros Hall; [done|].
  rewrite filter_cons_False by (apply Hall; by left).
  apply IH. intros y Hy. apply Hall. by right.
Qed.

Lemma index_head pn (l : list string) : index pn (pn :: l) = Some 0%nat.
Proof. unfold index. simpl. by rewrite decide_True. Qed.

(** X4: popping the topmost applied patch and pushing it back restores
    the staged stack: when the commit of the patch has the patch below it
    (or the base) as its only parent, the pop followed by the push returns,
    the three lists and the override map are what they were, no commit
    object is created and nothing is run but, at most, the creation of
    the temporary index; the push reports the patch as unmodified, or as
    empty if its tree is the tree of its parent. *)
Theorem pop_push_round_trip pn iw t w a c par :
  applied t = a ++ [pn] →
  pn ∉ a →
  pn ∉ hidden t →
  patches_getitem pn (t, w) = (Ret (Some c), (t, w)) →
  parents (data c) = [par] →
  (a = [] ∧ base t = par)
  ∨ (∃ q, last a = Some q
          ∧ patches_getitem q (t, w) = (Ret (Some par), (t, w))) →
  ∃ t' w' evs,
    (pop_patches (λ x, bool_decide (x = pn));; push_patch pn iw) (t, w)
      = (Ret tt, (t', w'))
    ∧ applied t' = applied t ∧ unapplied t' = unapplied t
    ∧ hidden t' = hidden t ∧ patches t' = patches t
    ∧ w_stack w' = w_stack w
    ∧ new_events w w'
      = [OutInfo ("Popped " +:+ pn)] ++ evs
        ++ [OutInfo ("Pushed " +:+ pn +:+
              (if is_nochange (data c) then " (empty)" else " (unmodified)"))]
    ∧ Forall (λ e, ∃ ix, e = TempIndex ix) evs.
Proof.
  intros Happ Hna Hnh Hget Hpar Htop.
  set (p := λ x : string, bool_decide (x = pn)).
  (* the pop *)
  assert (Hcut : cut_at_first p (applied t) = (a, [pn])).
  { rewrite (cut_at_first_Some p _ (length a) pn).
    - rewrite Happ. by rewrite take_app_length, drop_app_length.
    - rewrite Happ. by rewrite list_lookup_middle.
    - unfold p. by rewrite bool_decide_true.
    - intros j y Hj Hlt. rewrite Happ, lookup_app_l in Hj by done.
      unfold p. apply bool_decide_false. intros ->.
      by apply list_elem_of_lookup_2 in Hj. }
  set (t1 := with_unapplied (λ u, pn :: u) (with_applied (λ _, a) t)).
  set (w1 := mkWorld (w_stack w) (w_trace w ++ [OutInfo ("Popped " +:+ pn)])).
  assert (Hpop : pop_patches p (t, w) = (Ret [], (t1, w1))).
  { unfold pop_patches. eff_pure. cbn [fst]. rewrite Hcut.
    eff_pure. eff_pure.
    assert (filter (λ x, Is_true (negb (p x))) [pn] = []) as ->.
    { rewrite filter_cons_False; [done|]. unfold p.
      rewrite bool_decide_true by done. simpl. tauto. }
    assert (filter (λ x, Is_true (p x)) [pn] = [pn]) as ->.
    { rewrite filter_cons_True; [done|]. unfold p.
      by rewrite bool_decide_true by done. }
    reflexivity. }
  rewrite (bind_ret _ _ _ _ _ Hpop). cbv beta.
  (* the push *)
  assert (Hget1 : patches_getitem pn (t1, w1) = (Ret (Some c), (t1, w1))).
  { by apply (patches_getitem_frame pn t w). }
  assert (Htop1 : top (t1, w1) = (Ret (Some par), (t1, w1))).
  { unfold top. eff_pure. cbn [fst applied t1 with_unapplied with_applied].
    destruct Htop as [[-> <-]|(q & Hq & Hgq)].
    - simpl. by eff_pure.
    - rewrite Hq. by apply (patches_getitem_frame q t w). }
  destruct (get_temp_index_eq t1 w1) as (ix & evs & Hix & Hevs).
  set (t2 := match temp_index t1 with
             | Some _ => t1
             | None => with_temp_index (Some ix) t1
             end) in Hix.
  set (w2 := mkWorld (w_stack w1) (w_trace w1 ++ evs)) in Hix.
  assert (Hfld : applied t2 = a ∧ unapplied t2 = pn :: unapplied t
                 ∧ hidden t2 = hidden t ∧ patches t2 = patches t).
  { unfold t2. by destruct (temp_index t1). }
  destruct Hfld as (Ha2 & Hu2 & Hh2 & Hp2).
  set (cd := set_parent (set_committer (data c) None) par).
  assert (Hcd : set_tree cd (tree (data c)) = cd) by done.
  assert (Hm : push_merge pn iw (t1, w1)
    = (Ret (data c, cd, EmptyString, false),
       (with_temp_index_tree (temp_index_tree t2) t2, w2))).
  { unfold push_merge.
    eff_ret ltac:(exact Hget1). eff_pure.
    rewrite (parent_set_committer _ _ _ Hpar). eff_pure.
    eff_ret ltac:(exact Htop1). eff_pure.
    eff_ret ltac:(exact Hix). eff_pure.
    eff_ret ltac:(unfold in_world; cbn [fst snd];
                  unfold Index.merge; rewrite tree_eqb_refl; reflexivity).
    eff_pure. cbn [fst snd]. eff_pure. done. }
  assert (Hno : is_nochange cd = is_nochange (data c)).
  { unfold is_nochange, cd. simpl. by rewrite Hpar. }
  assert (Hch : changed cd (data c) = false).
  { unfold changed, the_parent, cd. simpl. rewrite Hpar. simpl.
    unfold commit_eqb. rewrite String.eqb_refl, tree_eqb_refl.
    assert (operson_eqb (author (data c)) (author (data c)) = true) as ->
      by by apply operson_eqb_eq.
    by rewrite String.eqb_refl. }
  rewrite push_patch_phases, (bind_ret _ _ _ _ _ Hm). cbv beta.
  unfold push_finish. rewrite Hch, Hno. eff_pure. cbn [negb andb].
  eff_ret ltac:(unfold in_world, out_info, emit; eff_unfold; reflexivity).
  cbv iota. cbn [fst snd w_stack w_trace].
  rewrite update_eq. cbn [hidden unapplied recorded with_temp_index_tree].
  rewrite Hh2, Hu2. cbn [t1 hidden unapplied with_unapplied with_applied].
  rewrite bool_decide_false by done. rewrite index_head.
  eexists _, _, evs. split; [reflexivity|].
  cbn. rewrite Ha2, Hp2, Hh2, Hu2. cbn.
  split_and!; try done.
  apply new_events_app. cbn. rewrite <-!app_assoc.
  by destruct (is_nochange (data c)).
Qed.

End round_trip.

Lemma pop_push_round_trip_witness :
  let G := sample.conflicting_git in
  ∃ t' w' evs,
    (pop_patches (λ x, bool_decide (x = "a"));; push_patch "a" None)
      (sample.trans "float", sample.the_world) = (Ret tt, (t', w'))
    ∧ applied t' = ["a"] ∧ unapplied t' = ["p"; "b"] ∧ patches t' = ∅
    ∧ new_events sample.the_world w'
      = [OutInfo "Popped a"] ++ evs ++ [OutInfo "Pushed a (unmodified)"].
Proof.
  intros G.
  destruct (pop_push_round_trip "a" None (sample.trans "float") sample.the_world
              [] sample.CA sample.C0)
    as (t' & w' & evs & Hrun & Ha & Hu & _ & Hp & _ & Hev & _).
  - reflexivity.
  - apply not_elem_of_nil.
  - apply not_elem_of_nil.
  - vm_compute; reflexivity.
  - reflexivity.
  - left. split; reflexivity.
  - exists t', w', evs. split; [exact Hrun|]. split; [exact Ha|].
    split; [exact Hu|]. split; [exact Hp|exact Hev].
Defined.

Section reorder.
Context `{G : GitProcess}.

Lemma pop_patches_same_names p : preserves same_names (pop_patches p).
Proof.
  intros [t w].
  pose proof (pop_patches_eq p t w) as Heq.
  pose proof (cut_at_first_app p (applied t)) as Happ.
  destruct (cut_at_first p (applied t)) as [kept popped].
  destruct Heq as [evs ->]. unfold same_names, all_patches. simpl in *.
  rewrite <-Happ, <-!app_assoc.
  f_equiv. rewrite (app_assoc (filter _ popped)). f_equiv. apply filter_popped.
Qed.

Lemma update_same_names pn comm : preserves same_names (update pn comm).
Proof.
  intros [t w]. rewrite update_eq. unfold same_names, all_patches.
  assert (Hfld : hidden (recorded pn comm t) = hidden t
            ∧ unapplied (recorded pn comm t) = unapplied t
            ∧ applied (recorded pn comm t) = applied t) by by destruct comm.
  destruct Hfld as (Hh & Hu & Ha).
  case_bool_decide.
  - destruct (index pn (hidden t)) as [i|] eqn:Hi; simpl.
    + apply index_Some in Hi. rewrite Hh, Hu, Ha.
      rewrite (delete_Permutation _ _ _ Hi) at 2.
      rewrite <-!app_assoc. f_equiv. simpl.
      by rewrite (Permutation_middle (unapplied t)).
    + by rewrite Hh, Hu, Ha.
  - destruct (index pn (unapplied t)) as [i|] eqn:Hi; simpl.
    + apply index_Some in Hi. rewrite Hh, Hu, Ha.
      rewrite (delete_Permutation _ _ _ Hi) at 2.
      rewrite <-!app_assoc. by f_equiv.
    + by rewrite Hh, Hu, Ha.
Qed.

Lemma push_patch_same_names pn iw : preserves same_names (push_patch pn iw).
Proof.
  intros [t w]. rewrite push_patch_phases. unfold mbind, Eff_bind.
  destruct (push_merge pn iw (t, w)) as [[x|e] [t1 w1]] eqn:Hm;
    destruct (preserves_run _ _ _ _ _ (push_merge_preserves pn iw) Hm)
      as [(Ha & Hu & Hh & _) _]; simpl in Ha, Hu, Hh.
  - assert (Hfin : same_names (t1, w1) (push_finish pn x (t1, w1)).2).
    { destruct x as [[[orig_cd cd] s] conflict].
      unfold push_finish, Repository.commit, out_info, emit, history, __halt.
      destruct (changed cd orig_cd); eff_unfold; cbv beta iota delta [fst snd];
        destruct conflict; cbv beta iota delta [fst snd];
        first [by unfold same_names
              |match goal with |- context [update pn ?c (?t, ?w)] =>
                 exact (update_same_names pn c (t, w))
               end]. }
    unfold same_names, all_patches in *. simpl in *. by rewrite Hfin, Ha, Hu, Hh.
  - unfold same_names, all_patches. simpl. by rewrite Ha, Hu, Hh.
Qed.

(** X5: when [reorder_patches] returns, the three lists of the transaction
    are exactly the requested ones; they name the patches the lists named
    before, no more and no fewer; and the live stack is as it was. *)
Theorem reorder_patches_installs applied' unapplied' hidden' iw t w t' w' :
  reorder_patches applied' unapplied' hidden' iw (t, w) = (Ret tt, (t', w')) →
  applied t' = applied' ∧ unapplied t' = unapplied' ∧ hidden t' = hidden'
  ∧ list_to_set (C := gset string) (all_patches t') = list_to_set (all_patches t)
  ∧ w_stack w' = w_stack w.
Proof.
  intros Hrun.
  destruct (preserves_run _ _ _ _ _ (reorder_patches_unwritten _ _ _ _) Hrun)
    as [_ [Hs _]]. simpl in Hs.
  unfold reorder_patches in Hrun.
  apply bind_inv in Hrun as (a & s1 & Hself & Hrun).
  unfold self, gets in Hself. injection Hself as _ <-.
  apply bind_inv in Hrun as (? & s2 & Hpop & Hrun).
  apply bind_inv in Hrun as ([] & [t3 w3] & Hpush & Hrun).
  assert (Hnames : all_patches t3 ≡ₚ all_patches t).
  { transitivity (all_patches s2.1).
    - change (same_names s2 (t3, w3)).
      eapply (preserves_run same_names); [|exact Hpush].
      apply preserves_for_each; [tc_solve..|]. intros pn.
      apply push_patch_same_names.
    - exact (preserves_run _ _ _ _ _ (pop_patches_same_names _) Hpop). }
  revert Hrun. eff_pure. cbn [fst]. unfold list_eqb, set_eqb.
  case_bool_decide as Ha; [eff_pure|by erewrite bind_raise by reflexivity].
  eff_pure. eff_pure. cbn [fst].
  case_bool_decide as Hset; [eff_pure|by erewrite bind_raise by reflexivity].
  eff_pure. intros [= <- <-]. split_and!; try done.
  rewrite <-Hnames. unfold all_patches. cbn.
  by rewrite !(list_to_set_app_L (applied t3)), Hset.
Qed.

Lemma common_prefix_app (a rest : list string) :
  common_prefix (a ++ rest) a = length a.
Proof.
  induction a as [|x a IH]; simpl; [by destruct rest|].
  by rewrite String.eqb_refl, IH.
Qed.

(** X6: a request that keeps a prefix of the applied patches and pushes
    nothing is carried out without Git: [reorder_patches] pops the rest to
    the front of unapplied, checks the request, and installs it; the only
    output is the line of the pop.  In particular a request for the lists
    the transaction already has changes nothing. *)
Theorem reorder_patches_pop_only applied' rest unapplied' hidden' iw t w :
  applied t = applied' ++ rest →
  NoDup (applied t) →
  list_to_set (C := gset string) (rest ++ unapplied t ++ hidden t)
    = list_to_set (unapplied' ++ hidden') →
  ∃ evs,
    reorder_patches applied' unapplied' hidden' iw (t, w)
    = (Ret tt,
       (with_hidden (λ _, hidden')
          (with_unapplied (λ _, unapplied') (with_applied (λ _, applied') t)),
        mkWorld (w_stack w) (w_trace w ++ evs)))
    ∧ Forall is_info evs
    ∧ (rest = [] → evs = []).
Proof.
  intros Happ Hnd Hset.
  set (p := λ pn : string, bool_decide (pn ∈ rest)).
  assert (Hcut : cut_at_first p (applied t) = (applied', rest)).
  { rewrite Happ in Hnd |- *. apply NoDup_app in Hnd as (_ & Hdisj & _).
    destruct rest as [|x rest'].
    - rewrite app_nil_r. apply cut_at_first_None. intros pn _. unfold p.
      apply bool_decide_false, not_elem_of_nil.
    - rewrite (cut_at_first_Some p _ (length applied') x).
      + by rewrite take_app_length, drop_app_length.
      + by rewrite list_lookup_middle.
      + unfold p. apply bool_decide_true. by left.
      + intros j y Hj Hlt. rewrite lookup_app_l in Hj by done.
        unfold p. apply bool_decide_false.
        by apply list_elem_of_lookup_2, Hdisj in Hj. }
  assert (Hno : filter (λ pn, Is_true (negb (p pn))) rest = []).
  { apply filter_none. intros x Hx. unfold p.
    rewrite bool_decide_true by done. simpl. tauto. }
  assert (Hyes : filter (λ pn, Is_true (p pn)) rest = rest).
  { apply filter_all. intros x Hx. unfold p. by rewrite bool_decide_true. }
  destruct (print_popped_info rest w) as (evs & Hpr & Hinfo & Hnil).
  exists evs. split; [|done].
  unfold reorder_patches.
  eff_pure. cbn [fst].
  assert (common_prefix (applied t) applied' = length applied') as ->
    by (rewrite Happ; apply common_prefix_app).
  assert (drop (length applied') (applied t) = rest) as ->
    by (rewrite Happ; apply drop_app_length).
  fold p.
  assert (Hpop : pop_patches p (t, w)
    = (Ret [], (with_unapplied (λ u, rest ++ u) (with_applied (λ _, applied') t),
                mkWorld (w_stack w) (w_trace w ++ evs)))).
  { unfold pop_patches. eff_pure. cbn [fst]. rewrite Hcut.
    eff_pure. eff_pure. rewrite Hno, Hyes.
    eff_ret ltac:(unfold in_world; cbn [fst snd]; rewrite Hpr; reflexivity).
    reflexivity. }
  eff_ret ltac:(exact Hpop).
  rewrite drop_ge by done. cbn [for_each]. eff_pure.
  eff_pure. cbn [fst applied with_unapplied with_applied].
  unfold list_eqb, set_eqb. rewrite bool_decide_true by done. eff_pure.
  eff_pure. eff_pure. cbn [fst hidden unapplied with_unapplied with_applied].
  rewrite <-app_assoc. rewrite bool_decide_true by done. eff_pure. eff_pure.
  reflexivity.
Qed.

End reorder.

Lemma reorder_patches_installs_witness :
  let G := sample.conflicting_git in
  ∃ t' w',
    reorder_patches ["a"; "p"] ["b"] [] None (sample.trans "push", sample.the_world)
      = (Ret tt, (t', w'))
    ∧ applied t' = ["a"; "p"] ∧ unapplied t' = ["b"] ∧ hidden t' = []
    ∧ w_stack w' = sample.the_stack.
Proof.
  intros G.
  pose (r := reorder_patches ["a"; "p"] ["b"] [] None
               (sample.trans "push", sample.the_world)).
  assert (Hr : r = (Ret tt, (r.2.1, r.2.2))) by (vm_compute; reflexivity).
  destruct (reorder_patches_installs _ _ _ _ _ _ _ _ Hr)
    as (Ha & Hu & Hh & _ & Hs).
  exists r.2.1, r.2.2. split; [exact Hr|]. split; [exact Ha|].
  split; [exact Hu|]. split; [exact Hh|exact Hs].
Defined.

Lemma reorder_patches_pop_only_witness :
  let G := sample.conflicting_git in
  ∃ evs,
    reorder_patches [] ["b"; "a"; "p"] [] None (sample.trans "sink", sample.the_world)
    = (Ret tt,
       (with_hidden (λ _, [])
          (with_unapplied (λ _, ["b"; "a"; "p"])
             (with_applied (λ _, []) (sample.trans "sink"))),
        mkWorld sample.the_stack evs))
    ∧ Forall is_info evs.
Proof.
  intros G.
  destruct (reorder_patches_pop_only [] ["a"] ["b"; "a"; "p"] [] None
              (sample.trans "sink") sample.the_world)
    as (evs & Hrun & Hinfo & _).
  - reflexivity.
  - apply NoDup_singleton.
  - apply (bool_decide_unpack _). vm_compute. reflexivity.
  - exists evs. split; [exact Hrun|exact Hinfo].
Defined.

(** ** Deleting patches *)

Section delete.
Context `{G : GitProcess}.

(** X7: [delete_patches p], on lists that name no patch twice and whose
    patches that satisfy [p] are live, returns; it cuts applied at the first
    patch that satisfies [p], returns the popped patches that do not satisfy
    [p] and puts them in front of unapplied, drops every patch that
    satisfies [p] from the three lists, and records a tombstone for each of
    them in the override map, leaving the other overrides and the live stack
    as they were. *)
Theorem delete_patches_spec p quiet t w :
  NoDup (all_patches t) →
  (∀ pn, pn ∈ all_patches t → p pn = true → live t (w_stack w) pn) →
  let keep := λ pn, p pn = false in
  let popped := filter keep (cut_at_first p (applied t)).2 in
  ∃ t' w',
    delete_patches p quiet (t, w) = (Ret popped, (t', w'))
    ∧ applied t' = (cut_at_first p (applied t)).1
    ∧ unapplied t' = popped ++ filter keep (unapplied t)
    ∧ hidden t' = filter keep (hidden t)
    ∧ (∀ pn, pn ∈ all_patches t' → p pn = false)
    ∧ (∀ pn, patches t' !! pn
             = if decide (pn ∈ all_patches t ∧ p pn = true) then Some None
               else patches t !! pn)
    ∧ w_stack w' = w_stack w.
Proof.
  intros Hnd Hlive keep popped.
  assert (Hfilter : ∀ l : list string, filter (λ pn, Is_true (negb (p pn))) l = filter keep l).
  { intros l. apply list_filter_iff. intros x. unfold keep. by destruct (p x). }
  rewrite delete_patches_unfold.
  eff_pure. eff_pure. cbn [fst].
  pose proof (cut_at_first_kept p (applied t)) as Hkept.
  subst popped.
  destruct (cut_at_first p (applied t)) as [kept cut]. simpl in Hkept |- *.
  eff_pure. eff_pure. eff_pure. rewrite !Hfilter.
  destruct (print_popped_ret (filter keep cut) w) as [evs Hpr].
  eff_ret ltac:(unfold in_world; cbn [fst snd]; rewrite Hpr; reflexivity).
  match goal with |- context [(_ ≫= _) (?t1, ?w1)] =>
    destruct (delete_entries_spec p quiet (all_patches t) t1 w1 Hnd)
      as (t' & w' & Hrun & Ha & Hu & Hh & Hs & Hp)
  end.
  { intros pn Hpn Hp. by apply Hlive. }
  eff_ret ltac:(exact Hrun). simpl in *. rewrite ?Hfilter in Hu, Hh.
  exists t', w'. split; [done|]. rewrite Ha, Hu, Hh.
  split_and!; try done.
  intros pn. unfold all_patches. rewrite Ha, Hu, Hh.
  rewrite !elem_of_app, !list_elem_of_filter. unfold keep.
  intros [?|[[[? _]|[? _]]|[? _]]]; auto.
Qed.


End delete.

Lemma delete_patches_spec_witness :
  let G := sample.conflicting_git in
  let p := λ pn, String.eqb pn "p" in
  ∃ t' w',
    delete_patches p false (sample.trans "delete", sample.the_world)
      = (Ret [], (t', w'))
    ∧ applied t' = ["a"] ∧ unapplied t' = ["b"] ∧ hidden t' = []
    ∧ patches t' !! "p" = Some None
    ∧ w_stack w' = sample.the_stack.
Proof.
  intros G p.
  destruct (delete_patches_spec p false (sample.trans "delete") sample.the_world)
    as (t' & w' & Hrun & Ha & Hu & Hh & _ & Hp & Hs).
  - apply (bool_decide_unpack _). vm_compute. reflexivity.
  - intros pn _ Hpn. apply String.eqb_eq in Hpn as ->.
    apply sample_live; [reflexivity|].
    apply (bool_decide_unpack _). vm_compute. reflexivity.
  - exists t', w'. split; [exact Hrun|]. split; [exact Ha|]. split; [exact Hu|].
    split; [exact Hh|]. split; [|exact Hs].
    rewrite Hp. apply decide_True. split; [|reflexivity].
    apply (bool_decide_unpack _). vm_compute. reflexivity.
Defined.


(** ** Checking a tree out *)

Section checkout.
Context `{G : GitProcess}.

(** What [__checkout] does, in one equation. *)
Lemma checkout_eq tree iw allow_bad_head t w :
  __checkout tree iw allow_bad_head (t, w) =
    if negb allow_bad_head && negb (head_top_equal (w_stack w)) then
      (aborted, (t, after w [divergence_error]))
    else if tree_eqb (current_tree t) tree && negb (discard_changes t) then
      if allow_conflicts t (w_stack w) (view t) then (Ret tt, (t, w))
      else match iw with
           | None => (Ret tt, (t, w))
           | Some iw' =>
               match git_ls_files_unmerged (w_trace w) (iw_index iw') with
               | [] => (Ret tt, (t, after w [LsFilesUnmerged (iw_index iw')]))
               | _ :: _ =>
                   (aborted,
                    (t, after w [LsFilesUnmerged (iw_index iw');
                                 OutError ["Need to resolve conflicts first"]]))
               end
           end
    else match iw with
         | None => (Raise AssertionError, (t, w))
         | Some iw' =>
             if discard_changes t then
               (Ret tt, (with_current_tree tree t, after w [CheckoutHard iw' tree]))
             else if git_read_tree_merge (w_trace w) iw' (current_tree t) tree then
               (Ret tt, (with_current_tree tree t,
                         after w [Checkout iw' (current_tree t) tree]))
             else
               (Raise (CheckoutException "Index/workdir dirty"),
                (t, after w [Checkout iw' (current_tree t) tree]))
         end.
Proof.
  unfold __checkout, __assert_head_top_equal, __abort, out_error,
    Index.conflicts, IndexAndWorktree.checkout_hard, IndexAndWorktree.checkout,
    emit, history, after, aborted, divergence_error.
  eff_unfold. unfold id.
  destruct allow_bad_head; cbn [negb andb];
    cbv beta iota delta [fst snd]; cbn [w_stack w_trace];
    [|destruct (head_top_equal (w_stack w)); cbn [negb andb];
      cbv beta iota delta [fst snd]; cbn [w_stack w_trace]; [|done]].
  all: destruct (tree_eqb (current_tree t) tree), (discard_changes t);
    cbn [negb andb]; cbv beta iota delta [fst snd]; cbn [w_stack w_trace].
  all: try destruct (allow_conflicts t (w_stack w) (view t));
    cbv beta iota delta [fst snd]; cbn [w_stack w_trace].
  all: destruct iw as [iw'|]; cbv beta iota delta [fst snd]; cbn [w_stack w_trace].
  all: try destruct (git_ls_files_unmerged _ _);
    try destruct (git_read_tree_merge _ _ _ _);
    cbv beta iota delta [fst snd]; cbn [w_stack w_trace]; rewrite <-?app_assoc;
    try done; try by destruct w.
Qed.

Lemma tree_eqb_false_ne a b : tree_eqb a b = false → a ≠ b.
Proof. by intros ?%tree_eqb_neq. Qed.

(** What [__checkout] leaves of the transaction and the live stack. *)
Lemma checkout_outcome tree iw allow_bad_head t w o t' w' :
  __checkout tree iw allow_bad_head (t, w) = (o, (t', w')) →
  w_stack w' = w_stack w
  ∧ match o with
    | Ret _ => t' = with_current_tree tree t
    | Raise _ => t' = t
    end.
Proof.
  rewrite checkout_eq. unfold after, aborted.
  destruct (negb allow_bad_head && negb (head_top_equal (w_stack w)));
    [by intros [= <- <- <-]|].
  destruct (tree_eqb (current_tree t) tree) eqn:Etree.
  - apply tree_eqb_eq in Etree as <-.
    assert (Hsame : with_current_tree (current_tree t) t = t) by by destruct t.
    rewrite Hsame. repeat case_match; by intros [= <- <- <-].
  - cbn [andb]. repeat case_match; by intros [= <- <- <-].
Qed.

(** X9: [__checkout] never touches the live stack; when it returns, the tree
    the transaction believes checked out is the requested tree and nothing
    else of the transaction has changed, and when it raises the transaction
    is as it was.  It runs a checkout only if the requested tree is not the
    current one or changes are to be discarded, and then exactly one: a hard
    one when changes are to be discarded, a merging one otherwise. *)
Theorem checkout_sets_current_tree tree iw allow_bad_head t w o t' w' :
  __checkout tree iw allow_bad_head (t, w) = (o, (t', w')) →
  w_stack w' = w_stack w
  ∧ match o with
    | Ret _ => t' = with_current_tree tree t
    | Raise _ => t' = t
    end
  ∧ (current_tree t = tree → discard_changes t = false →
     Forall (λ e, ¬ is_checkout e) (new_events w w'))
  ∧ (o = Ret tt → current_tree t ≠ tree ∨ discard_changes t = true →
     ∃ iw', iw = Some iw'
       ∧ new_events w w'
         = [if discard_changes t then CheckoutHard iw' tree
            else Checkout iw' (current_tree t) tree]).
Proof.
  rewrite checkout_eq. unfold after, aborted.
  assert (Hnil : new_events w w = []) by (unfold new_events; by rewrite drop_all).
  assert (Hev : ∀ evs, new_events w (mkWorld (w_stack w) (w_trace w ++ evs)) = evs).
  { intros evs. by apply new_events_app. }
  destruct (negb allow_bad_head && negb (head_top_equal (w_stack w))).
  { intros [= <- <- <-]. rewrite Hev. split_and!; try done.
    intros _ _. apply Forall_singleton. by intros []. }
  destruct (tree_eqb (current_tree t) tree) eqn:Etree.
  - apply tree_eqb_eq in Etree as <-.
    assert (Hsame : with_current_tree (current_tree t) t = t) by by destruct t.
    destruct (discard_changes t) eqn:Ediscard; cbn [negb andb].
    + destruct iw as [iw'|]; intros [= <- <- <-]; rewrite ?Hev, ?Hnil;
        split_and!; try done. intros _ _. by exists iw'.
    + destruct (allow_conflicts t (w_stack w) (view t));
        [|destruct iw as [iw'|];
          [destruct (git_ls_files_unmerged _ _)|]];
        intros [= <- <- <-]; rewrite ?Hev, ?Hnil, ?Hsame;
        split_and!; try done; try (by intros _ [|]);
        intros _ _; repeat constructor; by intros [].
  - apply tree_eqb_false_ne in Etree. cbn [andb].
    destruct iw as [iw'|]; [|intros [= <- <- <-]; rewrite Hnil; by split_and!].
    destruct (discard_changes t) eqn:Ediscard;
      [|destruct (git_read_tree_merge _ _ _ _)];
      intros [= <- <- <-]; rewrite Hev; split_and!; try done;
      intros _ _; by exists iw'.
Qed.


(** X11: [abort] restores the index and worktree only: it leaves the live
    stack and the staged lists alone, never checks that head and top are
    equal, and does nothing without an index and worktree; with one, when
    it returns the tree checked out is the tree of the branch head. *)
Theorem abort_restores_worktree iw t w o t' w' :
  abort iw (t, w) = (o, (t', w')) →
  w_stack w' = w_stack w
  ∧ (divergence_error ∉ new_events w w')
  ∧ (iw = None → o = Ret tt ∧ t' = t ∧ w' = w)
  ∧ match o with
    | Ret _ =>
        is_Some iw →
        t' = with_current_tree (tree (data (stack_head (w_stack w)))) t
    | Raise _ => t' = t
    end.
Proof.
  unfold abort. destruct iw as [iw'|].
  - eff_pure. cbn [snd]. intros Hrun.
    destruct (checkout_outcome _ _ _ _ _ _ _ _ Hrun) as (Hs & Ht).
    split; [done|]. split; [|split; [done|by destruct o]].
    revert Hrun. rewrite checkout_eq. unfold after, aborted. cbn [negb andb].
    assert (Hnil : new_events w w = []) by (unfold new_events; by rewrite drop_all).
    assert (Hev : ∀ evs, new_events w (mkWorld (w_stack w) (w_trace w ++ evs)) = evs).
    { intros evs. by apply new_events_app. }
    repeat case_match; intros [= <- <- <-]; rewrite ?Hev, ?Hnil;
      rewrite ?elem_of_cons, elem_of_nil; unfold divergence_error;
      intros H'; by intuition.
  - intros [= <- <- <-]. split_and!; try done.
    unfold new_events. rewrite drop_all. apply not_elem_of_nil.
Qed.

End checkout.

Lemma checkout_sets_current_tree_witness :
  let G := sample.conflicting_git in
  ∃ t' w',
    __checkout sample.T0 (Some sample.iw) false (sample.trans "pop", sample.the_world)
      = (Ret tt, (t', w'))
    ∧ w_stack w' = sample.the_stack
    ∧ t' = with_current_tree sample.T0 (sample.trans "pop")
    ∧ new_events sample.the_world w' = [Checkout sample.iw sample.Ta sample.T0].
Proof.
  intros G.
  pose (r := __checkout sample.T0 (Some sample.iw) false
               (sample.trans "pop", sample.the_world)).
  assert (Hr : r = (Ret tt, (r.2.1, r.2.2))) by (vm_compute; reflexivity).
  destruct (checkout_sets_current_tree sample.T0 (Some sample.iw) false
              _ _ _ _ _ Hr) as (Hs & Ht & _ & Hev).
  destruct (Hev eq_refl) as (iw' & Hiw & Hev'); [by left|].
  injection Hiw as <-.
  exists r.2.1, r.2.2. split; [exact Hr|]. split; [exact Hs|].
  split; [exact Ht|exact Hev'].
Defined.


Lemma abort_restores_worktree_witness :
  let G := sample.conflicting_git in
  let t := with_current_tree sample.T0 (sample.trans "pop") in
  ∃ w',
    abort (Some sample.iw) (t, sample.the_world) = (Ret tt, (sample.trans "pop", w'))
    ∧ w_stack w' = sample.the_stack.
Proof.
  intros G t.
  pose (r := abort (Some sample.iw) (t, sample.the_world)).
  assert (Hr : r = (Ret tt, (r.2.1, r.2.2))) by (vm_compute; reflexivity).
  destruct (abort_restores_worktree (Some sample.iw) _ _ _ _ _ Hr)
    as (Hs & _ & _ & Ht).
  exists r.2.2. split; [|exact Hs].
  rewrite Hr. rewrite (Ht (mk_is_Some _ _ eq_refl)). reflexivity.
Defined.

(** ** What [run] writes, and when *)

#[export] Instance same_current_tree_refl : Reflexive same_current_tree.
Proof. by intros t. Qed.

#[export] Instance same_current_tree_trans : Transitive same_current_tree.
Proof. intros t1 t2 t3 H1 H2. unfold same_current_tree in *. congruence. Qed.

Section run_split.
Context `{G : GitProcess}.

Lemma run_split iw set_head allow_bad_head print_current_patch s :
  run iw set_head allow_bad_head print_current_patch s
  = (run_checkout iw set_head allow_bad_head
       ≫= run_write set_head print_current_patch) s.
Proof.
  unfold run, run_checkout, run_write.
  do 4 (rewrite bind_assoc; apply bind_ext; intros).
  destruct set_head.
  - rewrite !bind_assoc. apply bind_ext. intros [] s1. reflexivity.
  - reflexivity.
Qed.

Lemma run_checkout_preserves iw set_head allow_bad_head :
  preserves (both same_but_current_tree (extends eq no_update))
    (run_checkout iw set_head allow_bad_head).
Proof. unfold run_checkout. preserves_auto. Qed.


Lemma run_write_preserves set_head print_current_patch x :
  preserves (both same_current_tree (extends any_stack any_event))
    (run_write set_head print_current_patch x).
Proof. unfold run_write. destruct x as [new_head m]. preserves_auto. Qed.


End run_split.


Section run_head.
Context `{G : GitProcess}.

Lemma check_consistency_same_state : preserves eq __check_consistency.
Proof. preserves_auto. Qed.

(** The [head] property reads the transaction and the live stack, and
    changes nothing. *)
Lemma head_frame t w w1 :
  w_stack w1 = w_stack w →
  ∃ o, head (t, w) = (o, (t, w)) ∧ head (t, w1) = (o, (t, w1)).
Proof.
  intros Hs. unfold head, top, patches_getitem. eff_unfold.
  cbv beta iota delta [fst snd].
  destruct (bad_head t); [eauto|].
  destruct (last (applied t)); [|eauto].
  destruct (patches t !! _); [eauto|].
  cbv beta iota delta [fst snd]. rewrite Hs.
  destruct (stack_patches (w_stack w) !! _); eauto.
Qed.

(** How the first part of [run] returns. *)
Lemma run_checkout_ret iw set_head allow_bad_head t w nh m t1 w1 :
  run_checkout iw set_head allow_bad_head (t, w) = (Ret (nh, m), (t1, w1)) →
  m = msg t
  ∧ head (t, w) = (Ret nh, (t, w))
  ∧ w_stack w1 = w_stack w
  ∧ (∃ evs, w_trace w1 = w_trace w ++ evs)
  ∧ (set_head = true → is_Some iw →
     ∃ c, nh = Some c ∧ t1 = with_current_tree (tree (data c)) t).
Proof.
  intros Hrun.
  destruct (preserves_run _ _ _ _ _ (run_checkout_preserves _ _ _) Hrun)
    as [_ [Hs (evs & Htr & _)]]. simpl in Hs, Htr.
  unfold run_checkout in Hrun.
  apply bind_inv in Hrun as ([] & sa & Ha & Hrun).
  pose proof (preserves_run _ _ _ _ _ check_consistency_same_state Ha) as <-.
  apply bind_inv in Hrun as ([] & sb & Hb & Hrun).
  unfold in_world, log_external_mods, emit, mbind, Eff_bind, gets, modify in Hb.
  cbn [fst snd] in Hb. injection Hb as <-.
  apply bind_inv in Hrun as (nh' & sc & Hc & Hrun).
  match type of Hc with head (t, ?w0) = _ =>
    destruct (head_frame t w w0 eq_refl) as (o & Hh & Hh0)
  end.
  rewrite Hh0 in Hc. injection Hc as Ho Hsc. subst o sc.
  apply bind_inv in Hrun as (m' & sd & Hm & Hrun).
  unfold self, gets in Hm. injection Hm as <- <-.
  apply bind_inv in Hrun as ([] & se & He & Hrun).
  injection Hrun as Hnh Hm' Hse. subst nh' m se.
  split; [done|]. split; [done|]. split; [done|]. split; [by exists evs|].
  intros -> [iw' ->].
  unfold try_except in He. cbn [fst] in He.
  destruct nh as [c|].
  - erewrite bind_ret in He by reflexivity. cbv beta in He.
    destruct (__checkout _ _ _ _) as [[[]|e] [t2 w2]] eqn:Hco.
    + destruct (checkout_outcome _ _ _ _ _ _ _ _ Hco) as (_ & ->).
      injection He as <- <-. by exists c.
    + destruct e; cbn [except_CheckoutException] in He; try done.
      by apply bind_inv in He as (? & ? & _ & He).
  - by erewrite bind_raise in He by reflexivity.
Qed.

Lemma run_write_keeps_head print_current_patch x :
  preserves (both same_current_tree (extends same_head any_event))
    (run_write false print_current_patch x).
Proof. unfold run_write. destruct x as [new_head m]. preserves_auto. Qed.

(** X13: when [run] with [set_head] returns, the branch head is the commit
    the [head] property gave before anything was written (the bad head if
    one was set, the top of the staged stack otherwise), set under the
    message of the transaction; and with an index and worktree the tree the
    transaction believes checked out is the tree of that commit. *)
Theorem run_sets_head iw allow_bad_head print_current_patch t w code t' w' :
  run iw true allow_bad_head print_current_patch (t, w) = (Ret code, (t', w')) →
  ∃ c,
    head (t, w) = (Ret (Some c), (t, w))
    ∧ stack_head (w_stack w') = c
    ∧ SetHead c (msg t) ∈ new_events w w'
    ∧ (is_Some iw → current_tree t' = tree (data c)).
Proof.
  intros Hrun. rewrite run_split in Hrun.
  apply bind_inv in Hrun as ([nh m] & [t1 w1] & Hco & Hwr).
  destruct (run_checkout_ret _ _ _ _ _ _ _ _ _ Hco)
    as (-> & Hhead & Hs1 & (evs1 & Htr1) & Htree).
  change (run_write true print_current_patch (nh, msg t))
    with (in_world (world.set_head nh (msg t));;
          run_write false print_current_patch (nh, msg t)) in Hwr.
  apply bind_inv in Hwr as ([] & [t2 w2] & Hset & Hwr).
  destruct nh as [c|]; [|done].
  revert Hset. unfold in_world, world.set_head, emit, update_stack. eff_unfold.
  cbn [fst snd w_stack w_trace]. intros [= <- <-].
  destruct (preserves_run _ _ _ _ _ (run_write_keeps_head _ _) Hwr)
    as [Ht [Hh (evs2 & Htr2 & _)]]. simpl in Ht, Hh, Htr2.
  exists c. split; [done|]. split; [done|]. split.
  - erewrite new_events_app; [|rewrite Htr2, Htr1, <-!app_assoc; reflexivity].
    rewrite !elem_of_app, list_elem_of_singleton. auto.
  - intros Hiw. destruct (Htree eq_refl Hiw) as (c' & [= <-] & ->).
    by rewrite Ht.
Qed.

End run_head.

Lemma run_sets_head_witness :
  let G := sample.conflicting_git in
  let t := with_applied (λ _, []) (sample.trans "pop") in
  ∃ code t' w',
    run (Some sample.iw) true true true (t, sample.the_world) = (Ret code, (t', w'))
    ∧ stack_head (w_stack w') = sample.C0
    ∧ SetHead sample.C0 "pop" ∈ new_events sample.the_world w'
    ∧ current_tree t' = sample.T0.
Proof.
  intros G t.
  pose (r := run (Some sample.iw) true true true (t, sample.the_world)).
  assert (Hr : r = (Ret 0, (r.2.1, r.2.2))) by (vm_compute; reflexivity).
  destruct (run_sets_head (Some sample.iw) true true t sample.the_world
              _ _ _ Hr) as (c & Hhead & Hs & Hev & Htree).
  injection Hhead as <-.
  exists 0, r.2.1, r.2.2. split; [exact Hr|]. split; [exact Hs|].
  split; [exact Hev|]. exact (Htree (mk_is_Some _ _ eq_refl)).
Defined.

(** ** The checks and the report of [run] *)

Section consistency.
Context `{G : GitProcess}.

(** A loop of assertions that leave the state alone passes if all of them
    hold and raises [AssertionError] if one does not. *)
Lemma for_each_asserts {S A} (l : list A) (f : A → Eff S unit) (ok : A → Prop) s :
  (∀ x, (ok x ∧ f x s = (Ret tt, s)) ∨ (¬ ok x ∧ f x s = (Raise AssertionError, s))) →
  (Forall ok l ∧ for_each l f s = (Ret tt, s))
  ∨ (¬ Forall ok l ∧ for_each l f s = (Raise AssertionError, s)).
Proof.
  intros Hf. induction l as [|x l IH]; [by left|]. simpl.
  destruct (Hf x) as [[Hx Hfx]|[Hx Hfx]].
  - rewrite (bind_ret _ _ _ _ _ Hfx).
    destruct IH as [[Hl ->]|[Hl ->]]; [left|right]; (split; [|done]).
    + by constructor.
    + by intros [_ ?]%Forall_cons.
  - rewrite (bind_raise _ _ _ _ _ Hfx). right. split; [|done].
    by intros [? _]%Forall_cons.
Qed.

(** X14: [__check_consistency] passes exactly when every tombstone of the
    override map is of a patch of the live stack and every other override
    is of a patch in one of the three lists; otherwise it raises
    [AssertionError]; it changes nothing. *)
Theorem check_consistency_iff t w :
  (consistent t (w_stack w) ∧ __check_consistency (t, w) = (Ret tt, (t, w)))
  ∨ (¬ consistent t (w_stack w)
     ∧ __check_consistency (t, w) = (Raise AssertionError, (t, w))).
Proof.
  unfold __check_consistency. eff_pure. eff_pure. cbn [fst].
  set (ok := λ e : string * option Commit,
    match e.2 with
    | None => is_Some (stack_patches (w_stack w) !! e.1)
    | Some _ => e.1 ∈ all_patches t
    end).
  assert (Hcons : consistent t (w_stack w) ↔ Forall ok (map_to_list (patches t))).
  { rewrite Forall_forall. unfold consistent, ok. split.
    - intros Hc [pn c] Hin%elem_of_map_to_list. exact (Hc pn c Hin).
    - intros Hall pn c Hin%elem_of_map_to_list. exact (Hall _ Hin). }
  rewrite Hcons. apply for_each_asserts.
  intros [pn [c|]]; unfold ok; cbn [fst snd].
  - unfold assert. case_bool_decide; [by left|by right].
  - eff_unfold. cbn [fst snd]. case_bool_decide; [by left|by right].
Qed.

End consistency.

(** X15: [_print_current_patch] prints nothing when the topmost applied patch
    is the same before and after (or there is none before and after), and
    otherwise one line: the new topmost patch, or that no patch is
    applied. *)
Theorem print_current_patch_spec old_applied new_applied w :
  _print_current_patch old_applied new_applied w
  = (Ret tt,
     after w
       (if decide (last old_applied = last new_applied) then []
        else [OutInfo
                match last new_applied with
                | Some pn => "Now at patch " +:+ dquote +:+ pn +:+ dquote
                | None => "No patch applied"
                end])).
Proof.
  unfold _print_current_patch, out_info, emit, after. eff_unfold.
  assert (Hnone : (Ret tt, w) = (Ret tt, mkWorld (w_stack w) (w_trace w ++ []))).
  { rewrite app_nil_r. by destruct w. }
  destruct (last old_applied) as [o|], (last new_applied) as [n|];
    try (by rewrite decide_False by done).
  - destruct (String.eqb_spec o n) as [->|Hne].
    + by rewrite decide_True by done.
    + by rewrite decide_False by congruence.
  - by rewrite decide_True by done.
Qed.

(** ** More on the merge in the index *)

Section index_merge_more.
Context `{G : GitProcess}.

Lemma otree_eqb_eq a b : otree_eqb a b = true ↔ a = Some b.
Proof.
  destruct a as [a|]; simpl; [|done].
  rewrite tree_eqb_eq. split; [by intros ->|by intros [= ->]].
Qed.

Lemma otree_eqb_neq a b : otree_eqb a b = false ↔ a ≠ Some b.
Proof. rewrite <-otree_eqb_eq. by destruct (otree_eqb a b). Qed.




End index_merge_more.


(** ** The string helpers of [stgit/utils.py] *)

Section strings.

Lemma substring_all s : String.substring 0 (String.length s) s = s.
Proof. induction s as [|a s IH]; simpl; [done|by rewrite IH]. Qed.

Lemma substring_app_drop p s :
  String.substring (String.length p) (String.length s) (p +:+ s) = s.
Proof. induction p as [|a p IH]; simpl; [apply substring_all|done]. Qed.

Lemma substring_app_take s p :
  String.substring 0 (String.length s) (s +:+ p) = s.
Proof.
  induction s as [|a s IH]; simpl; [by destruct p|by rewrite IH].
Qed.

Lemma string_length_app (s1 s2 : string) :
  String.length (s1 +:+ s2) = (String.length s1 + String.length s2)%nat.
Proof. induction s1 as [|a s1 IH]; simpl; [done|by rewrite IH]. Qed.

Lemma string_app_nil_r (s : string) : s +:+ EmptyString = s.
Proof.
  induction s as [|a s IH]; [done|].
  change (String a (s +:+ EmptyString) = String a s). by rewrite IH.
Qed.

Lemma string_prefix_app p s : String.prefix p (p +:+ s) = true.
Proof.
  induction p as [|a p IH]; simpl; [by destruct s|].
  destruct (Ascii.ascii_dec a a); [done|congruence].
Qed.

Lemma string_prefix_split p s :
  String.prefix p s = true →
  s = p +:+ String.substring (String.length p) (String.length s - String.length p) s.
Proof.
  revert s. induction p as [|a p IH]; intros s; simpl.
  - intros _. by rewrite Nat.sub_0_r, substring_all.
  - destruct s as [|b s]; [done|]. simpl.
    destruct (Ascii.ascii_dec a b) as [->|]; [|done].
    intros Hp. change (String b s = String b (p +:+
      String.substring (String.length p) (String.length s - String.length p) s)).
    f_equal. by apply IH.
Qed.

End strings.

Section strip.
Import utils.
Context {S : Type}.

Lemma slice_from_app p rest :
  slice (p +:+ rest) (Some (len p)) None = rest.
Proof.
  unfold slice, len. rewrite string_length_app.
  assert (clamp (Z.of_nat (String.length p + String.length rest))
            (Z.of_nat (String.length p)) = Z.of_nat (String.length p)) as ->.
  { unfold clamp. rewrite (proj2 (Z.ltb_ge _ _)) by lia. lia. }
  rewrite Nat2Z.id.
  replace (Z.to_nat _) with (String.length rest) by lia.
  apply substring_app_drop.
Qed.

Lemma slice_until_app rest suffix :
  suffix ≠ EmptyString →
  slice (rest +:+ suffix) None (Some (- len suffix)) = rest.
Proof.
  intros Hne. unfold slice, len. rewrite string_length_app.
  assert (0 < String.length suffix)%nat by (destruct suffix; [done|simpl; lia]).
  assert (clamp (Z.of_nat (String.length rest + String.length suffix))
            (- Z.of_nat (String.length suffix)) = Z.of_nat (String.length rest)) as ->.
  { unfold clamp. rewrite (proj2 (Z.ltb_lt _ _)) by lia. lia. }
  rewrite Z.sub_0_r, Nat2Z.id. apply substring_app_take.
Qed.

Lemma substring_split n s :
  (n ≤ String.length s)%nat →
  String.substring 0 n s +:+ String.substring n (String.length s - n) s = s.
Proof.
  revert s. induction n as [|n IH]; intros s Hn; simpl.
  - destruct s; simpl; [done|]. by rewrite substring_all.
  - destruct s as [|a s]; simpl in *; [lia|].
    change (String a (String.substring 0 n s +:+
              String.substring n (String.length s - n) s) = String a s).
    f_equal. apply IH. lia.
Qed.

Lemma endswith_iff s suffix :
  endswith s suffix = true ↔ ∃ rest, s = rest +:+ suffix.
Proof.
  unfold endswith. rewrite andb_true_iff, Z.leb_le, String.eqb_eq. split.
  - intros [Hle Hsuf]. unfold slice, len in *.
    set (n := (String.length s - String.length suffix)%nat).
    assert (clamp (Z.of_nat (String.length s))
              (Z.of_nat (String.length s) - Z.of_nat (String.length suffix))
            = Z.of_nat n) as Hc.
    { unfold clamp. rewrite (proj2 (Z.ltb_ge _ _)) by lia. lia. }
    rewrite Hc, Nat2Z.id in Hsuf.
    replace (Z.to_nat _) with (String.length s - n)%nat in Hsuf by lia.
    exists (String.substring 0 n s). rewrite <-Hsuf.
    symmetry. apply substring_split. lia.
  - intros [rest ->]. unfold len. rewrite string_length_app. split; [lia|].
    replace (_ - _) with (len rest) by (unfold len; lia).
    apply slice_from_app.
Qed.

(** X18: [strip_prefix] undoes the prefixing: it returns the rest of a string
    that starts with the prefix, whatever it returns put behind the prefix
    is the string, and on any other string it raises [AssertionError]. *)
Theorem strip_prefix_spec (prefix s : string) (st : S) :
  (∀ rest, s = prefix +:+ rest → strip_prefix prefix s st = (Ret rest, st))
  ∧ (∀ r st', strip_prefix prefix s st = (Ret r, st') → s = prefix +:+ r ∧ st' = st)
  ∧ ((∀ rest, s ≠ prefix +:+ rest) →
     strip_prefix prefix s st = (Raise AssertionError, st)).
Proof.
  assert (Hyes : ∀ rest, s = prefix +:+ rest →
            strip_prefix prefix s st = (Ret rest, st)).
  { intros rest ->. unfold strip_prefix, startswith. rewrite string_prefix_app.
    eff_unfold. by rewrite slice_from_app. }
  split; [done|].
  destruct (String.prefix prefix s) eqn:Hp.
  - pose proof (string_prefix_split _ _ Hp) as Hs. specialize (Hyes _ Hs).
    split.
    + intros r st'. rewrite Hyes. intros [= <- <-]. done.
    + intros Hno. by destruct (Hno _ Hs).
  - unfold strip_prefix, startswith. rewrite Hp. eff_unfold. split; [done|done].
Qed.

(** X19: [strip_suffix] returns the string without a non-empty suffix it ends
    with, and raises [AssertionError] on a string that does not end with
    the suffix; for the empty suffix it returns the empty string, not the
    string. *)
Theorem strip_suffix_spec (suffix s : string) (st : S) :
  (∀ rest, suffix ≠ EmptyString → s = rest +:+ suffix →
     strip_suffix suffix s st = (Ret rest, st))
  ∧ strip_suffix EmptyString s st = (Ret EmptyString, st)
  ∧ ((∀ rest, s ≠ rest +:+ suffix) →
     strip_suffix suffix s st = (Raise AssertionError, st)).
Proof.
  split_and!.
  - intros rest Hne ->. unfold strip_suffix.
    rewrite (proj2 (endswith_iff _ _)) by eauto.
    eff_unfold. by rewrite slice_until_app.
  - unfold strip_suffix. rewrite (proj2 (endswith_iff s EmptyString)).
    + eff_unfold. unfold slice, clamp, len. simpl. by destruct s.
    + exists s. by rewrite string_app_nil_r.
  - intros Hno. unfold strip_suffix.
    destruct (endswith s suffix) eqn:He; [|by eff_unfold].
    apply endswith_iff in He as [rest ->]. by destruct (Hno rest).
Qed.

End strip.

Lemma strip_prefix_spec_witness :
  utils.strip_prefix "refs/heads/" "refs/heads/master" tt = (Ret "master", tt)
  ∧ utils.strip_prefix "refs/heads/" "refs/tags/v1" tt = (Raise AssertionError, tt).
Proof.
  split.
  - exact (proj1 (strip_prefix_spec "refs/heads/" "refs/heads/master" tt)
             "master" eq_refl).
  - apply (proj2 (proj2 (strip_prefix_spec "refs/heads/" "refs/tags/v1" tt))).
    intros rest. discriminate.
Defined.

Lemma strip_suffix_spec_witness :
  utils.strip_suffix ".patch" "fix.patch" tt = (Ret "fix", tt)
  ∧ utils.strip_suffix EmptyString "fix.patch" tt = (Ret EmptyString, tt).
Proof.
  split.
  - apply (proj1 (strip_suffix_spec ".patch" "fix.patch" tt) "fix");
      [discriminate|reflexivity].
  - exact (proj1 (proj2 (strip_suffix_spec ".patch" "fix.patch" tt))).
Defined.

Section find_patch_name.
Import utils.

Lemma numbered_inj pn : Inj (=) (=) (numbered pn).
Proof.
  intros j k Hjk. unfold numbered in Hjk.
  apply (inj (String.append pn)), (inj (String.append "-")) in Hjk.
  by apply (inj pretty) in Hjk.
Qed.

(** What the loop finds, and what it has tried when it runs out of fuel. *)
Lemma find_suffix_spec fuel unacceptable pn k :
  match find_suffix fuel unacceptable pn k with
  | Some n =>
      (k ≤ n < k + fuel)%nat
      ∧ unacceptable (numbered pn n) = false
      ∧ ∀ j, (k ≤ j < n)%nat → unacceptable (numbered pn j) = true
  | None => ∀ j, (k ≤ j < k + fuel)%nat → unacceptable (numbered pn j) = true
  end.
Proof.
  revert k. induction fuel as [|fuel IH]; intros k; simpl; [intros j; lia|].
  destruct (unacceptable (numbered pn k)) eqn:Hk.
  - specialize (IH (S k)). destruct (find_suffix fuel unacceptable pn (S k)) as [n|].
    + destruct IH as (Hn & Hacc & Hlow). split; [lia|]. split; [done|].
      intros j Hj. destruct (decide (j = k)) as [->|]; [done|]. apply Hlow. lia.
    + intros j Hj. destruct (decide (j = k)) as [->|]; [done|]. apply IH. lia.
  - split; [lia|]. split; [done|]. intros j Hj. lia.
Qed.

(** X20: when only the names of a finite set are unacceptable, the search
    of [find_patch_name] ends:
    a fuel above the size of the set is enough.  The name found is not in
    the set; it is the given name if that is acceptable, and otherwise the
    given name with the least number behind it that makes it so. *)
Theorem find_patch_name_finite (taken : gset string) (patchname : string) :
  let unacceptable := λ name, bool_decide (name ∈ taken) in
  ∃ name,
    (∀ fuel, (size taken < fuel)%nat →
       find_patch_name fuel patchname unacceptable = Some name)
    ∧ (name ∉ taken)
    ∧ (patchname ∉ taken → name = patchname)
    ∧ (patchname ∈ taken →
       ∃ k, name = numbered patchname k
            ∧ ∀ j, (j < k)%nat → numbered patchname j ∈ taken).
Proof.
  intros unacceptable. unfold find_patch_name.
  destruct (unacceptable patchname) eqn:Hpn; unfold unacceptable in Hpn.
  2: { apply bool_decide_eq_false in Hpn. exists patchname. by split_and!. }
  apply bool_decide_eq_true in Hpn.
  (* the least acceptable number *)
  assert (Hfound : ∃ k, find_suffix (S (size taken)) unacceptable patchname 0 = Some k).
  { pose proof (find_suffix_spec (S (size taken)) unacceptable patchname 0) as Hs.
    destruct (find_suffix _ _ _ _) as [k|]; [by eexists|]. exfalso.
    set (l := numbered patchname <$> seq 0 (S (size taken))).
    assert (Hnd : NoDup l).
    { apply (NoDup_fmap_2 _). apply NoDup_seq. }
    assert (Hsub : list_to_set (C := gset string) l ⊆ taken).
    { intros x (y & -> & Hy%elem_of_seq)%elem_of_list_to_set%list_elem_of_fmap.
      specialize (Hs y Hy). unfold unacceptable in Hs.
      by apply bool_decide_eq_true in Hs. }
    apply subseteq_size in Hsub. rewrite size_list_to_set in Hsub by done.
    unfold l in Hsub. rewrite length_fmap, length_seq in Hsub. lia. }
  destruct Hfound as [k Hk].
  pose proof (find_suffix_spec (S (size taken)) unacceptable patchname 0) as Hs.
  rewrite Hk in Hs. destruct Hs as (Hrange & Hacc & Hlow).
  apply bool_decide_eq_false in Hacc.
  exists (numbered patchname k). split_and!; [|done|done|].
  - intros fuel Hfuel.
    pose proof (find_suffix_spec fuel unacceptable patchname 0) as Hs.
    destruct (find_suffix fuel _ _ _) as [k'|]; simpl.
    + destruct Hs as (Hr' & Hacc' & Hlow'). f_equal. f_equal.
      destruct (Nat.lt_trichotomy k k') as [Hlt|[->|Hlt]]; [|done|].
      * specialize (Hlow' k ltac:(lia)). unfold unacceptable in Hlow'.
        by apply bool_decide_eq_true in Hlow'.
      * specialize (Hlow k' ltac:(lia)). congruence.
    + specialize (Hs k ltac:(lia)). unfold unacceptable in Hs.
      by apply bool_decide_eq_true in Hs.
  - intros _. exists k. split; [done|]. intros j Hj.
    specialize (Hlow j ltac:(lia)). by apply bool_decide_eq_true in Hlow.
Qed.

End find_patch_name.

(** ** The editor *)

Section editor.
Import utils.

(** X21: [get_editor] always gives a non-empty editor: the first that is set
    and not empty of GIT_EDITOR, stgit.editor, core.editor, VISUAL and
    EDITOR, in this order, and [vi] if none is. *)
Theorem get_editor_spec git_editor stgit_editor core_editor visual editor :
  let candidates := [git_editor; stgit_editor; core_editor; visual; editor] in
  ∃ e,
    get_editor git_editor stgit_editor core_editor visual editor = Some e
    ∧ e ≠ EmptyString
    ∧ ((∃ i, candidates !! i = Some (Some e)
             ∧ ∀ j c, (j < i)%nat → candidates !! j = Some c → truthy c = false)
       ∨ (e = "vi" ∧ ∀ c, c ∈ candidates → truthy c = false)).
Proof.
  cbv zeta. unfold get_editor.
  set (candidates := [git_editor; stgit_editor; core_editor; visual; editor]).
  change [git_editor; stgit_editor; core_editor; visual; editor; Some "vi"]
    with (candidates ++ [Some "vi"]).
  assert (Hlen : length candidates = 5%nat) by done.
  destruct (list_find _ _) as [[i [e|]]|] eqn:Hfind.
  - apply list_find_Some in Hfind as (Hi & Htrue & Hlow).
    exists e. split; [done|]. split.
    { intros ->. done. }
    destruct (decide (i < 5)%nat) as [Hlt|Hge].
    + left. exists i. rewrite lookup_app_l in Hi by lia. split; [done|].
      intros j c Hj Hc. specialize (Hlow j c).
      rewrite lookup_app_l in Hlow by lia.
      specialize (Hlow Hc Hj). by destruct (truthy c).
    + right. rewrite lookup_app_r in Hi by lia.
      apply list_lookup_singleton_Some in Hi as [_ [= <-]]. split; [done|].
      intros c (j & Hj)%list_elem_of_lookup_1.
      assert (j < 5)%nat by (apply lookup_lt_Some in Hj; lia).
      specialize (Hlow j c). rewrite lookup_app_l in Hlow by lia.
      specialize (Hlow Hj ltac:(lia)). by destruct (truthy c).
  - apply list_find_Some in Hfind as (_ & Htrue & _). done.
  - apply list_find_None in Hfind.
    rewrite Forall_app, Forall_singleton in Hfind. destruct Hfind as [_ Hvi].
    exfalso. apply Hvi. by vm_compute.
Qed.

End editor.

(** ** The comment under an edited text *)

Section comments.
Import utils.

Lemma string_app_assoc (a b c : string) : (a +:+ b) +:+ c = a +:+ (b +:+ c).
Proof.
  induction a as [|x a IH]; [done|].
  change (String x ((a +:+ b) +:+ c) = String x (a +:+ (b +:+ c))).
  by rewrite IH.
Qed.

Lemma substring_app_within p n (b t : string) :
  (p + n ≤ String.length b)%nat →
  String.substring p n (b +:+ t) = String.substring p n b.
Proof.
  revert p n. induction b as [|x b IH]; intros p n Hle; simpl in Hle.
  - assert (p = 0%nat ∧ n = 0%nat) as [-> ->] by lia. by destruct t.
  - destruct p as [|p].
    + destruct n as [|n]; [done|].
      change (String x (String.substring 0 n (b +:+ t))
              = String x (String.substring 0 n b)).
      rewrite IH by lia. done.
    + change (String.substring p n (b +:+ t) = String.substring p n b).
      apply IH. lia.
Qed.

Lemma index_first (s mk rest : string) :
  mk ≠ EmptyString →
  (∀ p, (p < String.length s)%nat →
     String.substring p (String.length mk) (s +:+ mk +:+ rest) ≠ mk) →
  String.index 0 mk (s +:+ mk +:+ rest) = Some (String.length s).
Proof.
  intros Hne Hno.
  assert (Hat : String.substring (String.length s) (String.length mk)
                  (s +:+ mk +:+ rest) = mk).
  { clear. induction s as [|x s IH]; [exact (substring_app_take mk rest)|exact IH]. }
  destruct (String.index 0 mk (s +:+ mk +:+ rest)) as [m|] eqn:E.
  - f_equal. destruct (Nat.lt_trichotomy m (String.length s)) as [Hlt|[->|Hgt]].
    + destruct (Hno m Hlt). by apply (String.index_correct1 0).
    + done.
    + by destruct (String.index_correct2 _ _ _ _ E (String.length s)); [lia|..].
  - by destruct (String.index_correct3 0 (String.length s) _ _ E Hne); [lia|].
Qed.

(** X22: [strip_comment] gives back what [append_comment] was given, with
    one newline behind it, when the separator line occurs nowhere in the
    text followed by an empty line and the separator. *)
Theorem comment_round_trip (s comment separator : string) :
  String.index 0 (nl +:+ separator +:+ nl) (s +:+ nl +:+ nl +:+ separator) = None →
  strip_comment (append_comment s comment separator) separator = s +:+ nl.
Proof.
  intros Hnone. unfold strip_comment, append_comment.
  set (mk := nl +:+ separator +:+ nl).
  set (rest := "Everything following the line with " +:+ quote +:+ separator
                 +:+ quote +:+ " will be ignored" +:+ nl +:+ nl +:+ comment).
  assert (Heq : s +:+ nl +:+ nl +:+ separator +:+ nl +:+ rest
                = (s +:+ nl) +:+ mk +:+ rest).
  { unfold mk. by rewrite !string_app_assoc. }
  rewrite Heq.
  assert (Hmk : mk ≠ EmptyString) by done.
  rewrite index_first; [|done|].
  - unfold slice, clamp, len.
    rewrite (proj2 (Z.ltb_ge _ _)) by lia.
    rewrite Z.min_l by (rewrite !string_length_app; lia).
    rewrite Z.sub_0_r, Nat2Z.id. apply substring_app_take.
  - intros p Hp Hsub.
    apply (String.index_correct3 0 p _ _ Hnone Hmk); [lia|].
    rewrite <- (substring_app_within p _ _ (nl +:+ rest)).
    + fold mk. rewrite <- Hsub at 2. f_equal. unfold mk.
      by rewrite !string_app_assoc.
    + rewrite string_length_app in Hp. unfold mk.
      rewrite !string_length_app. simpl in *. lia.
Qed.

Lemma substring_length i n (s : string) :
  (i + n ≤ String.length s)%nat → String.length (String.substring i n s) = n.
Proof.
  revert i n. induction s as [|x s IH]; intros i n Hle; simpl in Hle.
  - by assert (i = 0%nat ∧ n = 0%nat) as [-> ->] by lia.
  - destruct i as [|i]; [destruct n as [|n]; [done|]|]; simpl.
    + f_equal. apply IH. lia.
    + apply IH. lia.
Qed.

Lemma substring_length_le i n (s : string) :
  (0 < n)%nat → String.length (String.substring i n s) = n →
  (i + n ≤ String.length s)%nat.
Proof.
  revert i n. induction s as [|x s IH]; intros i n Hn Hlen.
  - destruct i, n; simpl in Hlen; lia.
  - destruct i as [|i]; simpl in *.
    + destruct n as [|n]; [lia|]. simpl in Hlen.
      destruct n as [|n]; [lia|]. specialize (IH 0%nat (S n)). lia.
    + specialize (IH i n). lia.
Qed.

Lemma substring_app_shift p n (t r : string) :
  String.substring (String.length t + p) n (t +:+ r) = String.substring p n r.
Proof. induction t as [|x t IH]; [done|exact IH]. Qed.

(** X23: [strip_comment] cuts the text at the first separator line: what
    it returns is the start of the text and holds no separator line, and
    what it leaves out, if anything, starts with one. *)
Theorem strip_comment_spec (s separator : string) :
  let marker := nl +:+ separator +:+ nl in
  ∃ rest,
    s = strip_comment s separator +:+ rest ∧
    (rest = EmptyString ∨ String.prefix marker rest = true) ∧
    String.index 0 marker (strip_comment s separator) = None.
Proof.
  intros mk. unfold strip_comment. fold mk.
  assert (Hmk : mk ≠ EmptyString) by done.
  assert (HL : (0 < String.length mk)%nat) by (unfold mk; simpl; lia).
  destruct (String.index 0 mk s) as [i|] eqn:E.
  - pose proof (String.index_correct1 _ _ _ _ E) as Hat.
    assert (Hi : (i + String.length mk ≤ String.length s)%nat).
    { apply substring_length_le; [done|]. by rewrite Hat. }
    assert (Ht : slice s None (Some (Z.of_nat i)) = String.substring 0 i s).
    { unfold slice, clamp, len. rewrite (proj2 (Z.ltb_ge _ _)) by lia.
      rewrite Z.min_l by lia. by rewrite Z.sub_0_r, Nat2Z.id. }
    rewrite Ht. set (t := String.substring 0 i s).
    set (rest := String.substring i (String.length s - i) s).
    assert (Hs : s = t +:+ rest)
      by (symmetry; apply substring_split; lia).
    assert (Hlt : String.length t = i) by (apply substring_length; lia).
    exists rest. split_and!; [done| |].
    + right. apply String.prefix_correct.
      rewrite <- (substring_app_shift 0 _ t rest), Nat.add_0_r, Hlt, <- Hs.
      exact Hat.
    + destruct (String.index 0 mk t) as [m|] eqn:Et; [exfalso|done].
      pose proof (String.index_correct1 _ _ _ _ Et) as Hm.
      assert (Hle : (m + String.length mk ≤ String.length t)%nat).
      { apply substring_length_le; [done|]. by rewrite Hm. }
      apply (String.index_correct2 _ _ _ _ E m); [lia|lia|].
      rewrite Hs. by rewrite substring_app_within.
  - exists EmptyString. split_and!; [by rewrite string_app_nil_r|by left|done].
Qed.

End comments.

Lemma comment_round_trip_witness :
  utils.strip_comment (utils.append_comment "fix bug" "# help" "---") "---"
  = "fix bug" +:+ utils.nl.
Proof. apply comment_round_trip. by vm_compute. Defined.

(** ** The environment of the Git commands *)

(** X24: the author settings of [CommitData.env] are those of the author,
    field by field, and so for the committer; nothing else is set.  So the
    commit data [push_patch] commits, whose committer it has set to [None],
    leaves the committer to Git, and keeps the author. *)
Theorem commit_env_spec cd :
  let var who what := CommitData_env cd !! ("GIT_" +:+ who +:+ "_" +:+ what) in
  var "AUTHOR" "NAME" = author cd ≫= person_name
  ∧ var "AUTHOR" "EMAIL" = author cd ≫= person_email
  ∧ var "AUTHOR" "DATE" = author cd ≫= person_date
  ∧ var "COMMITTER" "NAME" = committer cd ≫= person_name
  ∧ var "COMMITTER" "EMAIL" = committer cd ≫= person_email
  ∧ var "COMMITTER" "DATE" = committer cd ≫= person_date
  ∧ (∀ k, k ∉ ["GIT_AUTHOR_NAME"; "GIT_AUTHOR_EMAIL"; "GIT_AUTHOR_DATE";
               "GIT_COMMITTER_NAME"; "GIT_COMMITTER_EMAIL"; "GIT_COMMITTER_DATE"] →
          CommitData_env cd !! k = None)
  ∧ (∀ k, CommitData_env (set_committer cd None) !! k
          = if String.prefix "GIT_COMMITTER_" k then None else CommitData_env cd !! k).
Proof.
  assert (Hlookup : ∀ cd k,
    CommitData_env cd !! k =
      if decide (k = "GIT_COMMITTER_DATE") then committer cd ≫= person_date
      else if decide (k = "GIT_COMMITTER_EMAIL") then committer cd ≫= person_email
      else if decide (k = "GIT_COMMITTER_NAME") then committer cd ≫= person_name
      else if decide (k = "GIT_AUTHOR_DATE") then author cd ≫= person_date
      else if decide (k = "GIT_AUTHOR_EMAIL") then author cd ≫= person_email
      else if decide (k = "GIT_AUTHOR_NAME") then author cd ≫= person_name
      else None).
  { clear cd. intros cd k. unfold CommitData_env. cbn [foldl].
    destruct (author cd) as [[[an|] [ae|] [ad|]]|],
      (committer cd) as [[[cn|] [ce|] [cd'|]]|];
      cbn [foldl person_name person_email person_date mbind option_bind];
      change ("GIT_" +:+ "AUTHOR" +:+ "_" +:+ "NAME") with "GIT_AUTHOR_NAME";
      change ("GIT_" +:+ "AUTHOR" +:+ "_" +:+ "EMAIL") with "GIT_AUTHOR_EMAIL";
      change ("GIT_" +:+ "AUTHOR" +:+ "_" +:+ "DATE") with "GIT_AUTHOR_DATE";
      change ("GIT_" +:+ "COMMITTER" +:+ "_" +:+ "NAME") with "GIT_COMMITTER_NAME";
      change ("GIT_" +:+ "COMMITTER" +:+ "_" +:+ "EMAIL") with "GIT_COMMITTER_EMAIL";
      change ("GIT_" +:+ "COMMITTER" +:+ "_" +:+ "DATE") with "GIT_COMMITTER_DATE";
      repeat (case_decide; [subst k;
        rewrite ?lookup_insert_eq, ?lookup_insert_ne, ?lookup_empty by done; done|]);
      by rewrite ?lookup_insert_ne, ?lookup_empty by done. }
  cbv zeta. split_and!; try (rewrite Hlookup; reflexivity).
  - intros k Hk. rewrite Hlookup.
    rewrite !not_elem_of_cons in Hk. destruct Hk as (?&?&?&?&?&?&_).
    by repeat (case_decide; [done|]).
  - intros k. rewrite !Hlookup. cbn [committer set_committer mbind option_bind].
    repeat (case_decide; [by subst k|]).
    destruct (String.prefix "GIT_COMMITTER_" k); reflexivity.
Qed.

(** A label of a tree is none of the three settings. *)
Lemma githead_ne (sha : string) :
  "GITHEAD_" +:+ sha ≠ "GIT_DIR"
  ∧ "GITHEAD_" +:+ sha ≠ "GIT_INDEX_FILE"
  ∧ "GITHEAD_" +:+ sha ≠ "GIT_WORK_TREE".
Proof. split_and!; intros H; cbv [String.append] in H; discriminate H. Qed.

(** X25: whatever the three trees are, the labels [IndexAndWorktree.merge]
    passes for them never displace the settings of the repository, the
    index and the worktree: the command runs with the Git directory of the
    repository, the file of the index and the worktree [.]; theirs is
    labelled patched, ours current unless it is theirs, and base ancestor
    unless it is ours or theirs. *)
Theorem merge_environment git_dir iw base ours theirs :
  let e := run_env (IndexAndWorktree_env git_dir iw) (merge_env base ours theirs) in
  e !! "GIT_DIR" = Some git_dir
  ∧ e !! "GIT_INDEX_FILE" = Some (index_filename (iw_index iw))
  ∧ e !! "GIT_WORK_TREE" = Some "."
  ∧ e !! ("GITHEAD_" +:+ tree_sha1 theirs) = Some "patched"
  ∧ (ours ≠ theirs → e !! ("GITHEAD_" +:+ tree_sha1 ours) = Some "current")
  ∧ (base ≠ ours → base ≠ theirs →
     e !! ("GITHEAD_" +:+ tree_sha1 base) = Some "ancestor").
Proof.
  assert (Hne : ∀ a b : Tree, a ≠ b →
            "GITHEAD_" +:+ tree_sha1 a ≠ "GITHEAD_" +:+ tree_sha1 b).
  { intros [a] [b] Hab Heq. apply Hab. f_equal.
    by apply (inj (String.append "GITHEAD_")) in Heq. }
  cbv zeta. unfold run_env, IndexAndWorktree_env, Index_env, Repository_env,
    Worktree_env, merge_env, utils.add_dict.
  split_and!.
  - rewrite lookup_union_r by
      (rewrite !lookup_insert_ne by apply githead_ne; apply lookup_empty).
    rewrite lookup_union_r by done. rewrite lookup_union_r by done.
    apply lookup_singleton_eq.
  - rewrite lookup_union_r by
      (rewrite !lookup_insert_ne by apply githead_ne; apply lookup_empty).
    rewrite lookup_union_r by done.
    rewrite (lookup_union_Some_l _ _ _ (index_filename (iw_index iw))); [done|].
    apply lookup_singleton_eq.
  - rewrite lookup_union_r by
      (rewrite !lookup_insert_ne by apply githead_ne; apply lookup_empty).
    by rewrite (lookup_union_Some_l _ _ _ ".").
  - by rewrite (lookup_union_Some_l _ _ _ "patched") by apply lookup_insert_eq.
  - intros Hot. rewrite (lookup_union_Some_l _ _ _ "current"); [done|].
    rewrite lookup_insert_ne by (apply Hne; congruence). apply lookup_insert_eq.
  - intros Hbo Hbt. rewrite (lookup_union_Some_l _ _ _ "ancestor"); [done|].
    rewrite !lookup_insert_ne by (apply Hne; congruence). apply lookup_insert_eq.
Qed.

(** ** The object cache *)

Section object_cache.
Context {S A : Type} (create : string → Eff S A).
Import ObjectCache.

Lemma getitem_eq name (c : Cache) :
  __getitem__ create name c =
    match c.1 !! name with
    | Some val => (Ret val, c)
    | None =>
        match create name c.2 with
        | (Ret val, s) => (Ret val, (<[name := val]> c.1, s))
        | (Raise e, s) => (Raise e, (c.1, s))
        end
    end.
Proof.
  unfold __getitem__, call_create. eff_unfold. destruct c as [objects s].
  cbn [fst snd]. destruct (objects !! name) as [val|] eqn:Hc.
  - rewrite bool_decide_true by by eexists. cbv beta iota delta [fst snd].
    by rewrite Hc.
  - rewrite bool_decide_false by by intros [? ?].
    destruct (create name s) as [[val|e] s'] eqn:E;
      cbv beta iota delta [fst snd]; rewrite E; [|done].
    by rewrite lookup_insert_eq.
Qed.

(** X26: the [ObjectCache] holds one object per name: whatever is looked up or put in
    afterwards, an object that is in the cache stays the object of its
    name, and a lookup of the name gives this object without a call of
    [create].  A lookup that returns has the object in the cache; putting
    an object in under a name that has one raises [AssertionError] and
    changes nothing. *)
Theorem object_cache_interns name (val : A) :
  (∀ n, preserves (keeps (cached name val)) (__getitem__ create n))
  ∧ (∀ n v, preserves (keeps (cached name val)) (__setitem__ (S := S) n v))
  ∧ (∀ c, cached name val c → __getitem__ create name c = (Ret val, c))
  ∧ (∀ c c', __getitem__ create name c = (Ret val, c') → cached name val c')
  ∧ (∀ (c : Cache (S := S) (A := A)) v, is_Some (c.1 !! name) →
       __setitem__ name v c = (Raise AssertionError, c))
  ∧ (∀ c, c.1 !! name = None →
       (__setitem__ name val;; __getitem__ create name) c
       = (Ret val, (<[name := val]> c.1, c.2))).
Proof.
  split_and!.
  - intros n [objects s] Hc. rewrite getitem_eq. unfold cached in *. simpl in *.
    destruct (objects !! n) as [v|] eqn:Hn; [done|].
    destruct (create n s) as [[v|e] s']; simpl; [|done].
    rewrite lookup_insert_ne; [done|]. intros ->. congruence.
  - intros n v [objects s] Hc. unfold __setitem__, cached in *. eff_unfold.
    simpl in *. case_bool_decide as Hn; simpl; [done|].
    rewrite lookup_insert_ne; [done|]. intros ->. apply Hn. by eexists.
  - intros c Hc. rewrite getitem_eq. unfold cached in Hc. by rewrite Hc.
  - intros [objects s] c'. rewrite getitem_eq. unfold cached. simpl.
    destruct (objects !! name) as [v|] eqn:Hn.
    + by intros [= -> <-].
    + destruct (create name s) as [[v|e] s']; [|done].
      intros [= -> <-]. simpl. apply lookup_insert_eq.
  - intros [objects s] v Hn. unfold __setitem__. eff_unfold. simpl in *.
    by rewrite bool_decide_true.
  - intros [objects s] Hn. simpl in Hn.
    assert (Hset : __setitem__ name val (objects, s)
                   = (Ret tt, (<[name := val]> objects, s))).
    { unfold __setitem__. eff_unfold. cbv beta iota delta [fst snd].
      by rewrite bool_decide_false by (rewrite Hn; by intros [? ?]). }
    rewrite (bind_ret _ _ _ _ _ Hset), getitem_eq.
    cbv beta iota delta [fst snd]. by rewrite lookup_insert_eq.
Qed.

End object_cache.

(** ** Refs and branches *)

Section refs_facts.
Import Refs Branch.
Context `{R : GitRepository}.

Lemma M_bind_inr {A B} (m : M A) (f : A → M B) r a r1 :
  m r = (inr a, r1) → (m ≫= f) r = f a r1.
Proof. intros H. unfold mbind, M_bind. by rewrite H. Qed.

Lemma M_bind_inl {A B} (m : M A) (f : A → M B) r e r1 :
  m r = (inl e, r1) → (m ≫= f) r = (inl e, r1).
Proof. intros H. unfold mbind, M_bind. by rewrite H. Qed.

Lemma M_bind_inv {A B} (m : M A) (f : A → M B) r x r' :
  (m ≫= f) r = (x, r') →
  (∃ a r1, m r = (inr a, r1) ∧ f a r1 = (x, r')) ∨
  (∃ e, m r = (inl e, r') ∧ x = inl e).
Proof.
  unfold mbind, M_bind. destruct (m r) as [[e|a] r1]; intros H.
  - right. exists e. by injection H as <- <-.
  - left. by exists a, r1.
Qed.

Lemma cache_lines_spec lines refs r x r' :
  cache_lines lines refs r = (x, r') →
  commands r' = commands r ∧
  (cache r = Some refs → ∃ refs', cache r' = Some refs') ∧
  (∀ e, x = inl e → e = AttributeError).
Proof.
  revert refs r. induction lines as [|[[s ref]|] lines IH]; intros refs r H.
  - injection H as <- <-. split_and!; [done|by exists refs|done].
  - cbn [cache_lines] in H.
    rewrite (M_bind_inr _ _ _ tt (mkRepo (Some (<[ref:=s]> refs)) (commands r))) in H
      by done.
    apply IH in H as (Hc & Hs & He). split_and!; [done| |done].
    intros _. by apply Hs.
  - injection H as <- <-. split_and!; [done|by exists refs|].
    by intros e [= <-].
Qed.

Lemma cache_refs_spec r x r' :
  __cache_refs r = (x, r') →
  commands r' = commands r ++ [ShowRef] ∧
  (∃ refs', cache r' = Some refs') ∧
  (∀ e, x = inl e → e = AttributeError).
Proof.
  unfold __cache_refs, mbind, M_bind, set_cache, gets, log.
  cbn [commands cache].
  destruct (git_show_ref (commands r)) as [lines|]; intros H.
  - apply cache_lines_spec in H as (Hc & Hs & He). cbn [commands cache] in *.
    split_and!; [done|by apply Hs|done].
  - injection H as <- <-. split_and!; [done|by exists ∅|done].
Qed.

Lemma the_refs_cached r refs :
  cache r = Some refs → the_refs r = (inr refs, r).
Proof. intros H. unfold the_refs, mbind, M_bind, gets. by rewrite H. Qed.

Lemma the_refs_spec r x r' :
  the_refs r = (x, r') →
  (∀ refs, x = inr refs → cache r' = Some refs) ∧
  (∀ e, x = inl e → e = AttributeError) ∧
  (commands r' = commands r ∨ commands r' = commands r ++ [ShowRef]).
Proof.
  destruct (cache r) as [refs|] eqn:Hc.
  - rewrite (the_refs_cached _ _ Hc). intros [= <- <-].
    split_and!; [by intros ? [= <-]|done|by left].
  - unfold the_refs. rewrite (M_bind_inr _ _ _ None r)
      by (unfold gets; by rewrite Hc).
    intros H. apply M_bind_inv in H as [([] & r1 & H1 & H2)|(e & H1 & ->)].
    + apply cache_refs_spec in H1 as (Hcmd & [refs' Hs] & _).
      unfold gets in H2. injection H2 as <- <-. rewrite Hs.
      split_and!; [by intros ? [= <-]|done|by right].
    + apply cache_refs_spec in H1 as (Hcmd & [refs' Hs] & He).
      split_and!; [done|intros ? [= <-]; by apply He|by right].
Qed.

Lemma get_cached r refs ref :
  cache r = Some refs →
  get ref r = (match refs !! ref with
               | Some s => inr (get_commit s)
               | None => inl (KeyError ref)
               end, r).
Proof.
  intros H. unfold get. rewrite (M_bind_inr _ _ _ _ _ (the_refs_cached _ _ H)).
  by destruct (refs !! ref).
Qed.

Lemma exists_cached r refs ref :
  cache r = Some refs →
  exists_ ref r = (inr (bool_decide (is_Some (refs !! ref))), r).
Proof.
  intros H. unfold exists_, try_except, mbind, M_bind.
  rewrite (get_cached _ _ _ H). by destruct (refs !! ref) as [s|].
Qed.

Lemma get_spec ref r x r1 :
  the_refs r = (x, r1) →
  get ref r = (match x with
               | inl e => inl e
               | inr refs => match refs !! ref with
                             | Some s => inr (get_commit s)
                             | None => inl (KeyError ref)
                             end
               end, r1).
Proof.
  intros H. unfold get, mbind, M_bind. rewrite H.
  destruct x as [e|refs]; [done|]. by destruct (refs !! ref).
Qed.

Lemma exists_spec ref r x r1 :
  the_refs r = (x, r1) →
  exists_ ref r = (match x with
                   | inl e => inl e
                   | inr refs => inr (bool_decide (is_Some (refs !! ref)))
                   end, r1).
Proof.
  intros H. unfold exists_, try_except, mbind, M_bind.
  rewrite (get_spec _ _ _ _ H). destruct x as [e|refs].
  - by rewrite (proj1 (proj2 (the_refs_spec _ _ _ H)) e eq_refl).
  - by destruct (refs !! ref).
Qed.

Lemma init_spec name r x r1 :
  the_refs r = (x, r1) →
  __init__ name r =
    (match x with
     | inl e => inl e
     | inr refs => match refs !! __ref name with
                   | Some _ => inr name
                   | None => inl (BranchException (name +:+ ": no such branch"))
                   end
     end, r1).
Proof.
  intros H. unfold __init__, head, try_except, mbind, M_bind.
  rewrite (get_spec _ _ _ _ H). destruct x as [e|refs].
  - by rewrite (proj1 (proj2 (the_refs_spec _ _ _ H)) e eq_refl).
  - by destruct (refs !! __ref name).
Qed.

Lemma run_spec c r :
  run c r = (if git_succeeds (commands r) c then inr tt else inl RunException,
             mkRepo (cache r) (commands r ++ [c])).
Proof.
  unfold run, mbind, M_bind, gets, log. cbn.
  by destruct (git_succeeds (commands r) c).
Qed.

Lemma the_refs_once r x r1 :
  the_refs r = (x, r1) →
  is_Some (cache r1) ∧
  commands r1 = commands r ++ match cache r with Some _ => [] | None => [ShowRef] end.
Proof.
  destruct (cache r) as [refs|] eqn:Hc.
  - rewrite (the_refs_cached _ _ Hc). intros [= <- <-].
    rewrite Hc, app_nil_r. by split.
  - unfold the_refs. rewrite (M_bind_inr _ _ _ None r)
      by (unfold gets; by rewrite Hc).
    intros H. apply M_bind_inv in H as [([] & r2 & H1 & H2)|(e & H1 & ->)].
    + apply cache_refs_spec in H1 as (Hcmd & [refs' Hs] & _).
      unfold gets in H2. injection H2 as <- <-. by rewrite Hs.
    + apply cache_refs_spec in H1 as (Hcmd & [refs' Hs] & He). by rewrite Hs.
Qed.

Lemma set_eq ref c msg r x r1 :
  the_refs r = (x, r1) →
  set ref c msg r =
    match x with
    | inl e => (inl e, r1)
    | inr refs =>
        if String.eqb (default zeros (refs !! ref)) (sha1 c) then (inr tt, r1)
        else
          let cmd := UpdateRef msg ref (sha1 c) (default zeros (refs !! ref)) in
          if git_succeeds (commands r1) cmd
          then (inr tt, mkRepo (Some (<[ref := sha1 c]> refs)) (commands r1 ++ [cmd]))
          else (inl RunException, mkRepo (cache r1) (commands r1 ++ [cmd]))
    end.
Proof.
  intros H. unfold set. destruct x as [e|refs].
  - by rewrite (M_bind_inl _ _ _ _ _ H).
  - rewrite (M_bind_inr _ _ _ _ _ H).
    destruct (String.eqb _ _); cbn [negb]; [done|]. cbv zeta.
    unfold mbind, M_bind. rewrite run_spec.
    by destruct (git_succeeds _ _).
Qed.

Lemma delete_eq ref r x r1 :
  the_refs r = (x, r1) →
  delete ref r =
    match x with
    | inl e => (inl e, r1)
    | inr refs =>
        match refs !! ref with
        | None => (inl (KeyError ref), r1)
        | Some old =>
            let cmd := UpdateRefDelete ref old in
            if git_succeeds (commands r1) cmd
            then (inr tt, mkRepo (Some (base.delete ref refs)) (commands r1 ++ [cmd]))
            else (inl RunException, mkRepo (cache r1) (commands r1 ++ [cmd]))
        end
    end.
Proof.
  intros H. unfold delete. destruct x as [e|refs].
  - by rewrite (M_bind_inl _ _ _ _ _ H).
  - rewrite (M_bind_inr _ _ _ _ _ H).
    destruct (refs !! ref) as [old|]; [|done]. cbv zeta.
    unfold mbind, M_bind. rewrite run_spec.
    by destruct (git_succeeds _ _).
Qed.

Lemma create_eq name create_at r x r1 :
  the_refs r = (x, r1) →
  create name create_at r =
    match x with
    | inl e => (inl e, r1)
    | inr refs =>
        match refs !! __ref name with
        | Some _ => (inl (BranchException (name +:+ ": branch already exists")), r1)
        | None =>
            match create_at with
            | None => (inl AttributeError, r1)
            | Some c =>
                (inl (if git_succeeds (commands r1) (GitBranch (sha1 c))
                      then BranchException (name +:+ ": no such branch")
                      else RunException),
                 mkRepo (Some refs) (commands r1 ++ [GitBranch (sha1 c)]))
            end
        end
    end.
Proof.
  intros H1. unfold create, try_except, mbind, M_bind.
  rewrite (init_spec _ _ _ _ H1). destruct x as [e|refs].
  - by rewrite (proj1 (proj2 (the_refs_spec _ _ _ H1)) e eq_refl).
  - pose proof (proj1 (the_refs_spec _ _ _ H1) _ eq_refl) as Hc1.
    destruct (refs !! __ref name) as [s|] eqn:El; [done|].
    cbn. destruct create_at as [c|]; [|done].
    unfold mbind, M_bind. cbn. rewrite run_spec, Hc1.
    destruct (git_succeeds _ _); [|done].
    rewrite (init_spec name _ (inr refs) _
               (the_refs_cached (mkRepo (Some refs) _) refs eq_refl)).
    by rewrite El.
Qed.

(** X27: after [Refs.set] of a commit whose SHA-1 is not forty zeros,
    [Refs.get] of the ref gives the commit of this SHA-1 and the other refs
    are as before; on a built cache, the only command [set] runs is one
    [git update-ref], with the cached value as the old one (forty zeros for
    a new ref), and none when the cache has the SHA-1 already. *)
Theorem refs_set_get ref c msg r r' :
  sha1 c ≠ zeros →
  set ref c msg r = (inr tt, r') →
  get ref r' = (inr (get_commit (sha1 c)), r') ∧
  (∀ ref', ref' ≠ ref → (get ref' r').1 = (get ref' r).1) ∧
  (∀ refs, cache r = Some refs →
     commands r' =
       if bool_decide (refs !! ref = Some (sha1 c)) then commands r
       else commands r ++ [UpdateRef msg ref (sha1 c) (default zeros (refs !! ref))]).
Proof.
  intros Hz H. unfold set in H.
  apply M_bind_inv in H as [(refs1 & r1 & H1 & H)|(e & _ & [=])].
  pose proof (proj1 (the_refs_spec _ _ _ H1) _ eq_refl) as Hc1.
  assert (∃ refs', cache r' = Some refs' ∧ refs' !! ref = Some (sha1 c) ∧
            (∀ ref', ref' ≠ ref → refs' !! ref' = refs1 !! ref') ∧
            commands r' =
              if bool_decide (refs1 !! ref = Some (sha1 c)) then commands r1
              else commands r1 ++
                     [UpdateRef msg ref (sha1 c) (default zeros (refs1 !! ref))])
    as (refs' & Hc' & Hl & Hne & Hcmd).
  { destruct (String.eqb (default zeros (refs1 !! ref)) (sha1 c)) eqn:E;
      cbn [negb] in H.
    - injection H as <-. apply String.eqb_eq in E. exists refs1.
      destruct (refs1 !! ref) as [s|] eqn:El; cbn in E; [subst s|congruence].
      by rewrite bool_decide_true.
    - apply String.eqb_neq in E.
      apply M_bind_inv in H as [([] & r2 & H2 & H)|(e & _ & [=])].
      rewrite run_spec in H2. injection H as <-.
      destruct (git_succeeds _ _); [|done]. injection H2 as <-.
      exists (<[ref:=sha1 c]> refs1). cbn [cache commands].
      split_and!; [done|by rewrite lookup_insert_eq| |].
      + intros ref' Hr. by rewrite lookup_insert_ne.
      + rewrite bool_decide_false; [done|].
        intros El. by rewrite El in E. }
  split_and!.
  - by rewrite (get_cached _ _ _ Hc'), Hl.
  - intros ref' Hr. rewrite (get_cached _ _ _ Hc'), (get_spec _ _ _ _ H1).
    by rewrite (Hne _ Hr).
  - intros refs Hc. rewrite (the_refs_cached _ _ Hc) in H1.
    by injection H1 as <- <-.
Qed.

(** X28: [Refs.delete] of a ref that [Refs.exists] does not find raises
    [KeyError] and does what [exists] did, no more; after a [delete] that
    returns, [exists] answers [False], the other refs are as before, and
    the [git update-ref -d] was given the SHA-1 the ref had. *)
Theorem refs_delete ref r :
  (∀ r1, exists_ ref r = (inr false, r1) →
     delete ref r = (inl (KeyError ref), r1)) ∧
  (∀ r', delete ref r = (inr tt, r') →
     exists_ ref r' = (inr false, r') ∧
     (∀ ref', ref' ≠ ref → (get ref' r').1 = (get ref' r).1) ∧
     ∃ cm r1, get ref r = (inr cm, r1) ∧
       commands r' = commands r1 ++ [UpdateRefDelete ref (sha1 cm)]).
Proof.
  destruct (the_refs r) as [x r1] eqn:H1.
  rewrite (exists_spec _ _ _ _ H1), (get_spec _ _ _ _ H1).
  unfold delete, mbind, M_bind. rewrite H1. split.
  - intros r2 H. destruct x as [e|refs]; [done|]. injection H as H <-.
    destruct (refs !! ref); [|done].
    by rewrite bool_decide_true in H.
  - intros r' H. destruct x as [e|refs]; [done|].
    destruct (refs !! ref) as [old|] eqn:El; [|done].
    fold (mbind (M := M) (A := unit) (B := unit)) in H.
    change (M_bind unit unit) with (mbind (M := M) (A := unit) (B := unit)) in H.
    rewrite run_spec in H.
    destruct (git_succeeds _ _); [|done]. injection H as <-.
    pose proof (proj1 (the_refs_spec _ _ _ H1) _ eq_refl) as Hc1.
    rewrite (exists_cached _ (base.delete ref refs)) by done.
    split_and!.
    + by rewrite lookup_delete_eq.
    + intros ref' Hr.
      rewrite (get_cached _ (base.delete ref refs)) by done.
      by rewrite (get_spec ref' _ _ _ H1), lookup_delete_ne.
    + exists (get_commit old), r1. by rewrite get_commit_sha1.
Qed.

(** X29: [Branch.create] never returns a branch.  Even when the branch
    did not exist and [git branch] has made it, it raises that there is no
    such branch: the cache of the refs was built by the first look and is
    not built again. *)
Theorem branch_create_never_returns name create_at r :
  (∀ b r', create name create_at r ≠ (inr b, r')) ∧
  (∀ c refs r1,
     create_at = Some c →
     the_refs r = (inr refs, r1) →
     refs !! __ref name = None →
     git_succeeds (commands r1) (GitBranch (sha1 c)) = true →
     create name create_at r =
       (inl (BranchException (name +:+ ": no such branch")),
        mkRepo (Some refs) (commands r1 ++ [GitBranch (sha1 c)]))).
Proof.
  destruct (the_refs r) as [x r1] eqn:H1.
  rewrite (create_eq _ _ _ _ _ H1). split.
  - intros b r'. destruct x as [e|refs]; [done|].
    destruct (refs !! __ref name); [done|]. by destruct create_at.
  - intros c refs r2 -> [= -> <-] El Hok. by rewrite El, Hok.
Qed.

(** X30: each operation of [Refs] and [Branch] leaves the cache of the
    refs built; it runs [git show-ref] once, before any other command, if
    the cache was not built, and never if it was: the cache is made on
    first use and not made again. *)
Theorem refs_cache_built_once ref name commit msg create_at :
  builds_cache_once (Refs.get ref)
  ∧ builds_cache_once (Refs.exists_ ref)
  ∧ builds_cache_once (Refs.set ref commit msg)
  ∧ builds_cache_once (Refs.delete ref)
  ∧ builds_cache_once (Branch.__init__ name)
  ∧ builds_cache_once (Branch.head name)
  ∧ builds_cache_once (Branch.set_head name commit msg)
  ∧ builds_cache_once (Branch.create name create_at).
Proof.
  assert (Hend : ∀ r r1 : Repo,
    is_Some (cache r1) ∧
    commands r1 = commands r ++ match cache r with Some _ => [] | None => [ShowRef] end →
    ∀ r', (r' = r1 ∨ ∃ c m, c ≠ ShowRef ∧ r' = mkRepo (Some m) (commands r1 ++ [c])
                  ∨ c ≠ ShowRef ∧ r' = mkRepo (cache r1) (commands r1 ++ [c])) →
    is_Some (cache r') ∧
    ∃ cmds,
      commands r'
      = commands r ++ match cache r with Some _ => [] | None => [ShowRef] end ++ cmds
      ∧ ShowRef ∉ cmds).
  { intros r r1 [Hs Hc] r' [->|(c & m & [[Hne ->]|[Hne ->]])]; cbn [cache commands].
    - split; [done|]. exists []. rewrite app_nil_r. split; [done|]. apply not_elem_of_nil.
    - split; [by eexists|]. exists [c]. rewrite Hc, <- app_assoc.
      split; [done|]. by apply not_elem_of_cons; split; [|apply not_elem_of_nil].
    - split; [done|]. exists [c]. rewrite Hc, <- app_assoc.
      split; [done|]. by apply not_elem_of_cons; split; [|apply not_elem_of_nil]. }
  assert (Hget : ∀ ref, builds_cache_once (Refs.get ref)).
  { intros ref0 r x r'. destruct (the_refs r) as [y r1] eqn:H1.
    rewrite (get_spec _ _ _ _ H1). intros [= <- <-].
    apply (Hend _ _ (the_refs_once _ _ _ H1)). by left. }
  assert (Hset : ∀ ref, builds_cache_once (Refs.set ref commit msg)).
  { intros ref0 r x r'. destruct (the_refs r) as [y r1] eqn:H1.
    rewrite (set_eq _ _ _ _ _ _ H1). intros H.
    apply (Hend _ _ (the_refs_once _ _ _ H1)).
    destruct y as [e|refs]; [left; congruence|].
    destruct (String.eqb _ _); [left; congruence|]. cbv zeta in H.
    right. eexists _, (<[ref0:=sha1 commit]> refs).
    destruct (git_succeeds _ _); injection H as <- <-; [left|right];
      (split; [|reflexivity]); done. }
  split_and!.
  - apply Hget.
  - intros r x r'. destruct (the_refs r) as [y r1] eqn:H1.
    rewrite (exists_spec _ _ _ _ H1). intros [= <- <-].
    apply (Hend _ _ (the_refs_once _ _ _ H1)). by left.
  - apply Hset.
  - intros r x r'. destruct (the_refs r) as [y r1] eqn:H1.
    rewrite (delete_eq _ _ _ _ H1). intros H.
    apply (Hend _ _ (the_refs_once _ _ _ H1)).
    destruct y as [e|refs]; [left; congruence|].
    destruct (refs !! ref) as [old|]; [|left; congruence]. cbv zeta in H.
    right. eexists _, (base.delete ref refs).
    destruct (git_succeeds _ _); injection H as <- <-; [left|right];
      (split; [|reflexivity]); done.
  - intros r x r'. destruct (the_refs r) as [y r1] eqn:H1.
    rewrite (init_spec _ _ _ _ H1). intros [= <- <-].
    apply (Hend _ _ (the_refs_once _ _ _ H1)). by left.
  - apply Hget.
  - apply Hset.
  - intros r x r'. destruct (the_refs r) as [y r1] eqn:H1.
    rewrite (create_eq _ _ _ _ _ H1). intros H.
    apply (Hend _ _ (the_refs_once _ _ _ H1)).
    destruct y as [e|refs]; [left; congruence|].
    destruct (refs !! __ref name); [left; congruence|].
    destruct create_at as [c|]; [|left; congruence].
    right. eexists _, refs. injection H as <- <-. left.
    split; [|reflexivity]. done.
Qed.

End refs_facts.

Lemma refs_set_get_witness :
  let r := Refs.set (R := sample_refs.repository) "refs/heads/topic"
             (sample_refs.commit_of "c1") "msg" sample_refs.fresh in
  r.1 = inr tt ∧
  Refs.get (R := sample_refs.repository) "refs/heads/topic" r.2
  = (inr (sample_refs.commit_of "c1"), r.2).
Proof.
  pose (r := Refs.set (R := sample_refs.repository) "refs/heads/topic"
               (sample_refs.commit_of "c1") "msg" sample_refs.fresh).
  assert (Hr : r = (inr tt, r.2)) by (vm_compute; reflexivity).
  split; [by vm_compute|].
  refine (proj1 (refs_set_get (R := sample_refs.repository) "refs/heads/topic"
                   (sample_refs.commit_of "c1") "msg" sample_refs.fresh r.2 _ Hr)).
  by vm_compute.
Defined.
